(** * Statevector simulator of the [qubo] package

    A shallow embedding of [qubo/circuit.py], [qubo/simulator.py] and
    [qubo/noise.py], with the hook of [api.py] and the output of [cli.py].

    Amplitudes are complex numbers over the real numbers of the Standard
    Library: a [complex] numpy entry is a pair (real part, imaginary part)
    and every arithmetic operation is the exact one.  numpy computes in
    binary64: where the code only moves amplitudes, changes their sign or
    multiplies by 0, 1 or [1j], the two agree; where a gate multiplies and
    adds (H and the rotations), binary64 is off by rounding.  Rounding is
    treated apart: section Rounding bounds what it can do to the norm over
    a whole run, and section binary64 replays the H gate bit for bit.

    Python exceptions are values of [exn]; a function that may raise returns
    a [result].  The generator behind [np.random] is process-global state:
    it is threaded explicitly through every function that seeds it or draws
    from it.

    Of [circuit.py] the registers and [draw] are left out. *)

From Stdlib Require Import Floats QArith.
From Stdlib Require Import Reals Lra Lia ZArith List String Permutation.
From stdpp Require Import gmap strings list sorting.

Local Open Scope Z_scope.
Local Open Scope nat_scope.

(** ** Complex numbers *)

Definition C : Type := (R * R)%type.

Definition RtoC (r : R) : C := (r, 0%R).
Definition C0 : C := RtoC 0.
Definition C1 : C := RtoC 1.
(** [1j] *)
Definition Ci : C := (0%R, 1%R).

Definition Cplus (x y : C) : C := (fst x + fst y, snd x + snd y)%R.
Definition Copp (x : C) : C := (- fst x, - snd x)%R.
Definition Cmult (x y : C) : C :=
  (fst x * fst y - snd x * snd y, fst x * snd y + snd x * fst y)%R.
(** [np.exp] on a complex argument *)
Definition Cexp (x : C) : C := (exp (fst x) * cos (snd x), exp (fst x) * sin (snd x))%R.
(** [np.abs] on a complex argument *)
Definition Cabs (x : C) : R := sqrt (fst x * fst x + snd x * snd x).
(** the squared modulus, [|x|^2] *)
Definition Cnorm2 (x : C) : R := (fst x * fst x + snd x * snd x)%R.

(** ** Exceptions and fallible computations *)

Inductive exn : Type :=
  | IndexError
  | ValueError
  | TypeError
  | OverflowError
  | RuntimeError
  | KeyboardInterrupt
  | SystemExit.

(** [isinstance(e, Exception)]: [KeyboardInterrupt] and [SystemExit] derive
    from [BaseException] only, so an [except Exception] clause lets them
    through. *)
Definition is_Exception (e : exn) : bool :=
  match e with
  | KeyboardInterrupt | SystemExit => false
  | _ => true
  end.

Inductive result (A : Type) : Type :=
  | Ok (a : A)
  | Raise (e : exn).
Arguments Ok {A} a.
Arguments Raise {A} e.

#[global] Instance result_ret : MRet result := fun A a => Ok a.
#[global] Instance result_bind : MBind result := fun A B k r =>
  match r with
  | Ok a => k a
  | Raise e => Raise e
  end.

#[global] Instance result_fmap : FMap result := fun A B f r =>
  match r with
  | Ok a => Ok (f a)
  | Raise e => Raise e
  end.

(** a [for] loop over [l] whose body may raise *)
Fixpoint foldM {A B : Type} (body : B -> A -> result B) (l : list A) (acc : B) : result B :=
  match l with
  | [] => Ok acc
  | x :: rest =>
      match body acc x with
      | Ok acc' => foldM body rest acc'
      | Raise e => Raise e
      end
  end.

(** [l[i]] for a Python list and a non-negative index *)
Definition index {A : Type} (l : list A) (i : nat) : result A :=
  match l !! i with
  | Some x => Ok x
  | None => Raise IndexError
  end.

(** [a[i]] for a numpy array and a non-negative Python integer: numpy turns
    the index into a C long first, so an index of [2^63] or more raises
    [OverflowError], and any other index past the end raises [IndexError].
    An array has fewer than [2^63] entries, so an index that is there
    always fits. *)
Definition np_index {A : Type} (a : list A) (i : nat) : result A :=
  match a !! i with
  | Some x => Ok x
  | None =>
      if (2 ^ 63 <=? Z.of_nat i)%Z then Raise OverflowError else Raise IndexError
  end.

(** ** circuit.py *)

Record Gate : Type := mkGate {
  name : string;
  targets : list Z;
  params : list R
}.

Record QuantumCircuit : Type := mkQuantumCircuit {
  num_qubits : Z;
  gates : list Gate
}.

(** [QuantumCircuit(num_qubits)] *)
Definition new_circuit (n : Z) : QuantumCircuit :=
  {| num_qubits := n; gates := [] |}.

(** [Gate(name, targets, params)]: [params or []] *)
Definition new_gate (nm : string) (ts : list Z) (ps : option (list R)) : Gate :=
  {| name := nm; targets := ts; params := default [] ps |}.

(** The first argument of [add_gate]: a [Gate] instance, a [str], or
    anything else. *)
Inductive gate_arg : Type :=
  | ArgGate (g : Gate)
  | ArgStr (s : string)
  | ArgOther.

Definition append_gate (qc : QuantumCircuit) (g : Gate) : QuantumCircuit :=
  {| num_qubits := num_qubits qc; gates := gates qc ++ [g] |}.

(** [QuantumCircuit.add_gate]; the circuit after the call is returned. *)
Definition add_gate (qc : QuantumCircuit) (gate : gate_arg)
    (tgts : option (list Z)) (ps : option (list R)) : result QuantumCircuit :=
  match gate with
  | ArgGate g => Ok (append_gate qc g)
  | ArgStr s =>
      match tgts with
      | None => Raise ValueError
      | Some ts => Ok (append_gate qc (new_gate s ts ps))
      end
  | ArgOther => Raise TypeError
  end.

(** ** numpy arrays of shape [[2]*n]

    An n-axis array of shape [[2]*n] is kept as its flat data in C order
    (the last axis varies fastest), the way [reshape] reads and writes it:
    the entry at multi-index [i_0, ..., i_{n-1}] sits at the flat index
    whose binary digits are [i_0 ... i_{n-1}], [i_0] the most significant. *)

Fixpoint unravel_le (n i : nat) : list bool :=
  match n with
  | 0 => []
  | S n' => Nat.odd i :: unravel_le n' (i / 2)
  end.

(** the multi-index of flat index [i], axis 0 first *)
Definition unravel (n i : nat) : list bool := rev (unravel_le n i).

Fixpoint ravel_le (bits : list bool) : nat :=
  match bits with
  | [] => 0
  | b :: rest => Nat.b2n b + 2 * ravel_le rest
  end.

(** the flat index of a multi-index, axis 0 first *)
Definition ravel (bits : list bool) : nat := ravel_le (rev bits).

(** [state.reshape([2] * n)]: the data is unchanged, the size must fit. *)
Definition reshape_2n {A : Type} (n : nat) (data : list A) : result (list A) :=
  if length data =? 2 ^ n then Ok data else Raise ValueError.

(** numpy lets an axis be counted from the end. *)
Definition normalize_axis (n : nat) (a : Z) : option nat :=
  let a' := if (a <? 0)%Z then (a + Z.of_nat n)%Z else a in
  if ((0 <=? a') && (a' <? Z.of_nat n))%Z then Some (Z.to_nat a') else None.

(** [np.transpose] accepts [axes] only when it is a permutation of
    [range(n)]. *)
Definition check_axes (n : nat) (axes : list Z) : result (list nat) :=
  if length axes =? n then
    match mapM (normalize_axis n) axes with
    | Some ax => if bool_decide (NoDup ax) then Ok ax else Raise ValueError
    | None => Raise ValueError
    end
  else Raise ValueError.

(** the place of [m] in [l] *)
Fixpoint position (m : nat) (l : list nat) : nat :=
  match l with
  | [] => 0
  | x :: rest => if x =? m then 0 else S (position m rest)
  end.

(** Axis [k] of the transposed array is axis [ax[k]] of the original: the
    entry of the result at multi-index [i] is the entry of the original at
    the multi-index [j] with [j[ax[k]] = i[k]]. *)
Definition source_index (n : nat) (ax : list nat) (o : nat) : nat :=
  let i := unravel n o in
  ravel (map (fun m => nth (position m ax) i false) (seq 0 n)).

(** [np.transpose(tensor, axes)] followed by a [reshape], which lays the
    transposed array out in C order. *)
Definition np_transpose {A : Type} (d : A) (n : nat) (tensor : list A) (axes : list Z)
    : result (list A) :=
  ax ← check_axes n axes;
  Ok (map (fun o => nth (source_index n ax o) tensor d) (seq 0 (2 ^ n))).

(** [np.argsort]: the indices of [l] sorted by their entries. *)
Definition key_le (l : list Z) : relation nat :=
  fun i j => (nth i l 0 <= nth j l 0)%Z.

#[global] Instance key_le_dec (l : list Z) (i j : nat) : Decision (key_le l i j) :=
  decide (nth i l 0 <= nth j l 0)%Z.

Definition argsort (l : list Z) : list nat :=
  merge_sort (key_le l) (seq 0 (length l)).

(** A 2x2 complex matrix [[u00, u01], [u10, u11]]. *)
Record Mat2 : Type := mkMat2 { u00 : C; u01 : C; u10 : C; u11 : C }.

(** [U @ t] for [t] of shape [(2, -1)]: the first half of the data is row 0,
    the second half row 1. *)
Definition matmul2 (U : Mat2) (t : list C) : list C :=
  let h := length t / 2 in
  let r0 := take h t in
  let r1 := drop h t in
  zip_with (fun a b => Cplus (Cmult (u00 U) a) (Cmult (u01 U) b)) r0 r1
  ++ zip_with (fun a b => Cplus (Cmult (u10 U) a) (Cmult (u11 U) b)) r0 r1.

(** ** simulator.py *)

Definition _apply_single_qubit_unitary (n : nat) (state : list C) (U : Mat2) (target : Z)
    : result (list C) :=
  tensor ← reshape_2n n state;
  let axes := target :: filter (fun i => i ≠ target) (map Z.of_nat (seq 0 n)) in
  t ← np_transpose C0 n tensor axes;
  let t := matmul2 U t in
  let inv_axes := map Z.of_nat (argsort axes) in
  np_transpose C0 n t inv_axes.

(** [i >> k] and [i << k]: a negative shift count raises [ValueError]. *)
Definition py_rshift (i : nat) (k : Z) : result nat :=
  if (k <? 0)%Z then Raise ValueError else Ok (Nat.shiftr i (Z.to_nat k)).

Definition py_lshift (i : nat) (k : Z) : result nat :=
  if (k <? 0)%Z then Raise ValueError else Ok (Nat.shiftl i (Z.to_nat k)).

(** One iteration of the loop of [_apply_cnot]; [new] is the copy being
    written, [state] the array being read. *)
Definition cnot_body (state : list C) (control target : Z) (new : list C) (i : nat)
    : result (list C) :=
  s ← py_rshift i control;
  if Nat.land s 1 =? 1 then
    m ← py_lshift 1 target;
    let j := Nat.lxor i m in
    sj ← np_index state j;
    si ← np_index state i;
    Ok (<[j := si]> (<[i := sj]> new))
  else Ok new.

Definition _apply_cnot (state : list C) (control target : Z) : result (list C) :=
  foldM (cnot_body state control target) (seq 0 (length state)) state.

(** One iteration of the loop of [_apply_swap]. *)
Definition swap_body (state : list C) (a b : Z) (new : list C) (i : nat)
    : result (list C) :=
  sa ← py_rshift i a;
  let bit_a := Nat.land sa 1 in
  sb ← py_rshift i b;
  let bit_b := Nat.land sb 1 in
  if negb (bit_a =? bit_b) then
    ma ← py_lshift 1 a;
    mb ← py_lshift 1 b;
    let j := Nat.lxor i (Nat.lor ma mb) in
    sj ← np_index state j;
    Ok (<[i := sj]> new)
  else
    si ← np_index state i;
    Ok (<[i := si]> new).

Definition _apply_swap (state : list C) (a b : Z) : result (list C) :=
  foldM (swap_body state a b) (seq 0 (length state)) state.

(** The gate matrices built in [run]. *)
Definition H_matrix : Mat2 :=
  let s := RtoC (1 / sqrt 2) in
  mkMat2 (Cmult s (RtoC 1)) (Cmult s (RtoC 1)) (Cmult s (RtoC 1)) (Cmult s (RtoC (-1))).

Definition X_matrix : Mat2 :=
  mkMat2 (RtoC 0) (RtoC 1) (RtoC 1) (RtoC 0).

Definition RX_matrix (theta : R) : Mat2 :=
  mkMat2 (RtoC (cos (theta / 2))) (Cmult (Copp Ci) (RtoC (sin (theta / 2))))
         (Cmult (Copp Ci) (RtoC (sin (theta / 2)))) (RtoC (cos (theta / 2))).

Definition RY_matrix (theta : R) : Mat2 :=
  mkMat2 (RtoC (cos (theta / 2))) (RtoC (- sin (theta / 2)))
         (RtoC (sin (theta / 2))) (RtoC (cos (theta / 2))).

Definition RZ_matrix (theta : R) : Mat2 :=
  mkMat2 (Cexp (Cmult (Copp (0, 0.5)%R) (RtoC theta))) (RtoC 0)
         (RtoC 0) (Cexp (Cmult (0, 0.5)%R (RtoC theta))).

(** [gate.params[0] if gate.params else 0.0] *)
Definition rotation_angle (gate : Gate) : R :=
  match params gate with
  | [] => 0%R
  | theta :: _ => theta
  end.

(** The [if]/[elif] chain of the loop body of [run].  [Some state'] is the
    state after the branch taken ([state] itself when no branch matches the
    name); [None] says the measurement branch was taken. *)
Definition gate_step (n : nat) (gate : Gate) (state : list C) : result (option (list C)) :=
  let nm := name gate in
  if String.eqb nm "H" then
    t ← index (targets gate) 0;
    Some <$> _apply_single_qubit_unitary n state H_matrix t
  else if String.eqb nm "X" then
    t ← index (targets gate) 0;
    Some <$> _apply_single_qubit_unitary n state X_matrix t
  else if String.eqb nm "RX" then
    let theta := rotation_angle gate in
    t ← index (targets gate) 0;
    Some <$> _apply_single_qubit_unitary n state (RX_matrix theta) t
  else if String.eqb nm "RY" then
    let theta := rotation_angle gate in
    t ← index (targets gate) 0;
    Some <$> _apply_single_qubit_unitary n state (RY_matrix theta) t
  else if String.eqb nm "RZ" then
    let theta := rotation_angle gate in
    t ← index (targets gate) 0;
    Some <$> _apply_single_qubit_unitary n state (RZ_matrix theta) t
  else if String.eqb nm "CNOT" then
    control ← index (targets gate) 0;
    target ← index (targets gate) 1;
    Some <$> _apply_cnot state control target
  else if String.eqb nm "SWAP" then
    a ← index (targets gate) 0;
    b ← index (targets gate) 1;
    Some <$> _apply_swap state a b
  else if String.eqb nm "M" || String.eqb nm "Measure" then
    Ok None
  else Ok (Some state).

(** [format(r, f'0{width}b')] *)
Fixpoint pos_bin (p : positive) : string :=
  match p with
  | xH => "1"
  | xO q => pos_bin q +:+ "0"
  | xI q => pos_bin q +:+ "1"
  end.

Definition bin (r : nat) : string :=
  match N.of_nat r with
  | N0 => "0"
  | Npos p => pos_bin p
  end.

Fixpoint zeros (k : nat) : string :=
  match k with
  | 0 => ""
  | S k' => "0" +:+ zeros k'
  end.

Definition format_0b (width r : nat) : string :=
  let s := bin r in
  zeros (width - String.length s) +:+ s.

(** [counts[b] = counts.get(b, 0) + 1] for each sampled index *)
Definition tally (width : nat) (results : list nat) : gmap string nat :=
  foldl (fun counts r =>
           let b := format_0b width r in
           <[b := default 0 (counts !! b) + 1]> counts)
        ∅ results.

(** What [run] returns: the amplitude vector, or the dictionary of counts. *)
Inductive run_output : Type :=
  | Statevector (amplitudes : list C)
  | Counts (counts : gmap string nat).

(** What a call [noise_hook(state, gate)] does.  The hook is handed the
    working array itself, not a copy: when it raises, [arg_after] is what
    that array holds by then. *)
Inductive hook_outcome : Type :=
  | HookReturn (ret : list C)
  | HookRaise (arg_after : list C) (e : exn).

(** The legacy global generator of [np.random] (a Mersenne Twister inside
    numpy): its state, [np.random.seed], which replaces the state or rejects
    the seed, and one uniform draw from [[0, 1)], which advances it. *)
Record NumpyRandom : Type := mkNumpyRandom {
  rng_state : Type;
  np_random_seed : Z -> result rng_state;
  np_random_rand : rng_state -> R * rng_state
}.

#[global] Instance Rlt_decision (x y : R) : Decision (x < y)%R := Rlt_dec x y.
#[global] Instance Rle_decision (x y : R) : Decision (x <= y)%R := Rle_dec x y.

Definition Rsum (l : list R) : R := foldr Rplus 0%R l.

(** [p.cumsum()] *)
Fixpoint cumsum_from (acc : R) (p : list R) : list R :=
  match p with
  | [] => []
  | x :: rest => (acc + x)%R :: cumsum_from (acc + x)%R rest
  end.

(** [cdf.searchsorted(u, side='right')]: how many entries are [<= u]. *)
Definition searchsorted_right (cdf : list R) (u : R) : nat :=
  length (filter (fun c => (c <= u)%R) cdf).

Section Simulator.

Context (G : NumpyRandom).

Definition noise_hook_t : Type :=
  list C -> Gate -> rng_state G -> hook_outcome * rng_state G.

Record StatevectorSimulator : Type := mkStatevectorSimulator {
  sim_circuit : QuantumCircuit;
  sim_num_qubits : nat;
  sim_state : list C;
  sim_noise_hook : option noise_hook_t
}.

(** [StatevectorSimulator.__init__]: [np.zeros(2 ** n)] rejects the float
    that a negative exponent gives; a seed goes to the global generator. *)
Definition __init__ (circuit : QuantumCircuit) (noise_hook : option noise_hook_t)
    (seed : option Z) (w : rng_state G) : result StatevectorSimulator * rng_state G :=
  if (num_qubits circuit <? 0)%Z then (Raise TypeError, w)
  else
    let n := Z.to_nat (num_qubits circuit) in
    let self := {| sim_circuit := circuit;
                   sim_num_qubits := n;
                   sim_state := <[0 := C1]> (replicate (2 ^ n) C0);
                   sim_noise_hook := noise_hook |} in
    match seed with
    | None => (Ok self, w)
    | Some s =>
        match np_random_seed G s with
        | Ok w' => (Ok self, w')
        | Raise e => (Raise e, w)
        end
    end.

(** [np.random.random_sample(k)]: [k] draws in a row. *)
Fixpoint random_sample (k : nat) (w : rng_state G) : list R * rng_state G :=
  match k with
  | 0 => ([], w)
  | S k' =>
      let (u, w1) := np_random_rand G w in
      let (us, w2) := random_sample k' w1 in
      (u :: us, w2)
  end.

(** [np.random.choice(len(p), size=size, p=p)], as numpy's legacy
    generator does it: [p] must be non-negative and sum to 1 up to
    [sqrt(eps) = 2^-26], [size] must not be negative; each sample is found by
    inverting the normalised cumulative distribution at a uniform draw. *)
Definition np_random_choice (w : rng_state G) (size : Z) (p : list R)
    : result (list nat) * rng_state G :=
  if bool_decide (Exists (fun x => (x < 0)%R) p) then (Raise ValueError, w)
  else if bool_decide (/ 2 ^ 26 < Rabs (Rsum p - 1))%R then (Raise ValueError, w)
  else if (size <? 0)%Z then (Raise ValueError, w)
  else
    let cdf := cumsum_from 0 p in
    let cdf := map (fun c => (c / List.last cdf 0)%R) cdf in
    let (uniform_samples, w') := random_sample (Z.to_nat size) w in
    (Ok (map (searchsorted_right cdf) uniform_samples), w').

(** The measurement branch of [run]. *)
Definition measure (n : nat) (shots : Z) (state : list C) (w : rng_state G)
    : result run_output * rng_state G :=
  let probs := map (fun z => (Cabs z ^ 2)%R) state in
  match np_random_choice w shots probs with
  | (Ok results, w') => (Ok (Counts (tally n results)), w')
  | (Raise e, w') => (Raise e, w')
  end.

(** The [try]/[except Exception: pass] around the noise hook. *)
Definition apply_noise (noise_hook : option noise_hook_t) (state : list C) (gate : Gate)
    (w : rng_state G) : result (list C) * rng_state G :=
  match noise_hook with
  | None => (Ok state, w)
  | Some hook =>
      match hook state gate w with
      | (HookReturn ret, w') => (Ok ret, w')
      | (HookRaise arg_after e, w') =>
          if is_Exception e then (Ok arg_after, w') else (Raise e, w')
      end
  end.

(** The loop of [run] over the gates still to come. *)
Fixpoint run_gates (n : nat) (noise_hook : option noise_hook_t) (shots : Z)
    (gs : list Gate) (state : list C) (w : rng_state G)
    : result run_output * rng_state G :=
  match gs with
  | [] => (Ok (Statevector state), w)
  | gate :: rest =>
      match gate_step n gate state with
      | Raise e => (Raise e, w)
      | Ok None => measure n shots state w
      | Ok (Some state') =>
          match apply_noise noise_hook state' gate w with
          | (Ok state'', w') => run_gates n noise_hook shots rest state'' w'
          | (Raise e, w') => (Raise e, w')
          end
      end
  end.

(** [StatevectorSimulator.run] *)
Definition run (self : StatevectorSimulator) (shots : Z) (w : rng_state G)
    : result run_output * rng_state G :=
  run_gates (sim_num_qubits self) (sim_noise_hook self) shots
            (gates (sim_circuit self)) (sim_state self) w.

(** ** noise.py *)

(** The loop of [bit_flip]; the swaps are made in place on [new_state]. *)
Fixpoint bit_flip_loop (p : R) (target : Z) (idx : list nat) (new_state : list C)
    (w : rng_state G) : result (list C) * rng_state G :=
  match idx with
  | [] => (Ok new_state, w)
  | i :: rest =>
      let (u, w') := np_random_rand G w in
      if Rlt_dec u p then
        match (m ← py_lshift 1 target;
               let j := Nat.lxor i m in
               nj ← np_index new_state j;
               ni ← np_index new_state i;
               Ok (<[j := ni]> (<[i := nj]> new_state))) with
        | Ok new_state' => bit_flip_loop p target rest new_state' w'
        | Raise e => (Raise e, w')
        end
      else bit_flip_loop p target rest new_state w'
  end.

(** [bit_flip(state, p, target)]; [int(np.log2(0))] raises
    [OverflowError]. *)
Definition bit_flip (state : list C) (p : R) (target : Z) (w : rng_state G)
    : result (list C) * rng_state G :=
  if length state =? 0 then (Raise OverflowError, w)
  else bit_flip_loop p target (seq 0 (length state)) state w.

End Simulator.

(** [sim = StatevectorSimulator(qc, noise_hook, seed)] followed at once by
    [sim.run(shots)], as [cli.py] and [api.py] do. *)
Definition simulate (G : NumpyRandom) (circuit : QuantumCircuit)
    (noise_hook : option (noise_hook_t G)) (seed : option Z) (shots : Z)
    (w : rng_state G) : result run_output * rng_state G :=
  match __init__ G circuit noise_hook seed w with
  | (Ok self, w') => run G self shots w'
  | (Raise e, w') => (Raise e, w')
  end.

(** ** Vocabulary of the statements *)

(** the sum of the squared moduli of the amplitudes *)
Definition norm_sq (state : list C) : R := Rsum (map Cnorm2 state).

(** every draw of the generator lies in [[0, 1)] *)
Definition rand_in_unit (G : NumpyRandom) : Prop :=
  forall w, (0 <= fst (np_random_rand G w) < 1)%R.

Definition has_name (names : list string) (g : Gate) : bool :=
  existsb (String.eqb (name g)) names.

(** the gates of the normalization property *)
Definition unitary_names : list string :=
  ["H"; "X"; "Y"; "Z"; "S"; "T"; "RX"; "RY"; "RZ"; "CNOT"; "SWAP"]%string.

(** the names that [run] has a branch for *)
Definition recognized_names : list string :=
  ["H"; "X"; "RX"; "RY"; "RZ"; "CNOT"; "SWAP"; "M"; "Measure"]%string.

Definition is_measure (g : Gate) : bool :=
  has_name ["M"; "Measure"]%string g.

Definition in_range (n : nat) (t : Z) : bool :=
  ((0 <=? t) && (t <? Z.of_nat n))%Z.

(** The targets that the branch of [run] for this gate reads are there and
    name qubits of the circuit. *)
Definition targets_ok (n : nat) (g : Gate) : bool :=
  if has_name ["H"; "X"; "RX"; "RY"; "RZ"]%string g then
    match targets g with
    | t :: _ => in_range n t
    | [] => false
    end
  else if has_name ["CNOT"; "SWAP"]%string g then
    match targets g with
    | a :: b :: _ => in_range n a && in_range n b
    | _ => false
    end
  else true.

(** A hook that raises without touching the array it was given. *)
Definition failing_hook (G : NumpyRandom) (e : exn) : noise_hook_t G :=
  fun state gate w => (HookRaise state e, w).

(** [def hook(state, gate): state[0] = 0; raise ValueError] *)
Definition clobbering_hook (G : NumpyRandom) : noise_hook_t G :=
  fun state gate w => (HookRaise (<[0 := C0]> state) ValueError, w).

(** A generator to run the simulator on.  Its stream is the start of the
    one numpy gives after [np.random.seed(0)], to eight places, repeated;
    every accepted seed rewinds it. *)
Definition sample_draws : list R :=
  [0.5488135; 0.71518937; 0.60276338; 0.54488318;
   0.4236548; 0.64589411; 0.43758721; 0.891773]%R.

Definition sample_generator : NumpyRandom :=
  {| rng_state := nat;
     np_random_seed := fun s =>
       if ((0 <=? s) && (s <? 2 ^ 32))%Z then Ok 0 else Raise ValueError;
     np_random_rand := fun k => (nth (k mod 8) sample_draws 0%R, S k) |}.

(** The gate constructors of [gates.py] used in the examples. *)
Definition gate_H (target : Z) : Gate := mkGate "H" [target] [].
Definition gate_X (target : Z) : Gate := mkGate "X" [target] [].
Definition gate_CNOT (control target : Z) : Gate := mkGate "CNOT" [control; target] [].
Definition gate_SWAP (a b : Z) : Gate := mkGate "SWAP" [a; b] [].
Definition gate_Measure (target : Z) : Gate := mkGate "M" [target] [].

(** ** Vocabulary of the proofs *)

(** A list of axes that is a permutation of [range(n)]. *)
Definition is_perm (n : nat) (ax : list nat) : Prop :=
  NoDup ax /\ length ax = n /\ Forall (fun x => x < n) ax.

(** The multi-index read by the transposition along [ax]. *)
Definition gather_bits (n : nat) (ax : list nat) (i : list bool) : list bool :=
  map (fun m => nth (position m ax) i false) (seq 0 n).

(** The inverse permutation, as a list. *)
Definition inv_perm (n : nat) (ax : list nat) : list nat :=
  map (fun m => position m ax) (seq 0 n).

(** The axes [[target] + [i for i in range(n) if i != target]]. *)
Definition target_axes (n t : nat) : list nat :=
  t :: filter (fun i => i ≠ t) (seq 0 n).

(** The data of [tensor] transposed along [ax]. *)
Definition gather {A : Type} (d : A) (n : nat) (ax : list nat) (v : list A) : list A :=
  map (fun o => nth (source_index n ax o) v d) (seq 0 (2 ^ n)).

(** What [U @ t] does to a column [(a, b)]. *)
Definition row_action (U : Mat2) (a b : C) : C * C :=
  (Cplus (Cmult (u00 U) a) (Cmult (u01 U) b),
   Cplus (Cmult (u10 U) a) (Cmult (u11 U) b)).

Definition norm_preserving (U : Mat2) : Prop :=
  forall a b : C,
    (Cnorm2 (fst (row_action U a b)) + Cnorm2 (snd (row_action U a b))
     = Cnorm2 a + Cnorm2 b)%R.

Definition acts_as_identity (U : Mat2) : Prop :=
  forall a b : C, row_action U a b = (a, b).

(** The index whose amplitude CNOT leaves at [m]. *)
Definition cnot_src (c t m : nat) : nat :=
  let m' := Nat.lxor m (2 ^ t) in
  if Nat.testbit m c || Nat.testbit m' c then m' else m.

(** The index whose amplitude SWAP leaves at [m]. *)
Definition swap_src (a b m : nat) : nat :=
  if xorb (Nat.testbit m a) (Nat.testbit m b)
  then Nat.lxor m (Nat.lor (2 ^ a) (2 ^ b)) else m.

(** The array of [bit_flip] at p = 1 once the indices below [k] are done:
    a pair of partners is exchanged when exactly one of the two is below [k]. *)
Definition swapped_upto (p k N : nat) (state : list C) : list C :=
  map (fun m => if xorb (m <? k) (Nat.lxor m p <? k)
                then nth (Nat.lxor m p) state C0 else nth m state C0)
      (seq 0 N).

(** the number a string of binary digits writes, read after [acc] *)
Fixpoint parse_bin (acc : nat) (s : string) : nat :=
  match s with
  | EmptyString => acc
  | String c rest => parse_bin (2 * acc + (if Ascii.eqb c (Ascii.ascii_of_nat 49) then 1 else 0)) rest
  end.

(** [sum(result.values())], the [total_shots] that [api.py] reports *)
Definition sum_values (counts : gmap string nat) : nat :=
  map_fold (fun _ v acc => v + acc) 0 counts.

(** ** noise.py: the other channels *)

Section NoiseChannels.

Context (G : NumpyRandom).

(** The loop of [phase_flip]; [and] draws a number only when the bit of
    the index is set. *)
Fixpoint phase_flip_loop (p : R) (target : Z) (idx : list nat) (new_state : list C)
    (w : rng_state G) : result (list C) * rng_state G :=
  match idx with
  | [] => (Ok new_state, w)
  | i :: rest =>
      match py_rshift i target with
      | Raise e => (Raise e, w)
      | Ok s =>
          if Nat.land s 1 =? 1 then
            let (u, w') := np_random_rand G w in
            if Rlt_dec u p then
              match (ni ← np_index new_state i;
                     Ok (<[i := Cmult ni (RtoC (-1))]> new_state)) with
              | Ok new_state' => phase_flip_loop p target rest new_state' w'
              | Raise e => (Raise e, w')
              end
            else phase_flip_loop p target rest new_state w'
          else phase_flip_loop p target rest new_state w
      end
  end.

(** [phase_flip(state, p, target)] *)
Definition phase_flip (state : list C) (p : R) (target : Z) (w : rng_state G)
    : result (list C) * rng_state G :=
  if length state =? 0 then (Raise OverflowError, w)
  else phase_flip_loop p target (seq 0 (length state)) state w.

(** The loop of [amplitude_damping]; [i & ~(1 << target)] is [i] with the
    bit cleared. *)
Fixpoint amplitude_damping_loop (p : R) (target : Z) (idx : list nat)
    (new_state : list C) (w : rng_state G) : result (list C) * rng_state G :=
  match idx with
  | [] => (Ok new_state, w)
  | i :: rest =>
      match py_rshift i target with
      | Raise e => (Raise e, w)
      | Ok s =>
          if Nat.land s 1 =? 1 then
            let (u, w') := np_random_rand G w in
            if Rlt_dec u p then
              match (m ← py_lshift 1 target;
                     let j := Nat.ldiff i m in
                     nj ← np_index new_state j;
                     ni ← np_index new_state i;
                     let new_state := <[j := Cplus nj ni]> new_state in
                     Ok (<[i := C0]> new_state)) with
              | Ok new_state' => amplitude_damping_loop p target rest new_state' w'
              | Raise e => (Raise e, w')
              end
            else amplitude_damping_loop p target rest new_state w'
          else amplitude_damping_loop p target rest new_state w
      end
  end.

(** [amplitude_damping(state, p, target)] *)
Definition amplitude_damping (state : list C) (p : R) (target : Z) (w : rng_state G)
    : result (list C) * rng_state G :=
  if length state =? 0 then (Raise OverflowError, w)
  else amplitude_damping_loop p target (seq 0 (length state)) state w.

(** [np.random.choice(a)] without [p] and [size] returns
    [a[np.random.randint(0, len(a))]]; the integer generator is a second
    primitive of numpy's global generator. *)
Context (np_random_randint : nat -> rng_state G -> nat * rng_state G).

(** [depolarizing(state, p, target)] *)
Definition depolarizing (state : list C) (p : R) (target : Z) (w : rng_state G)
    : result (list C) * rng_state G :=
  let (u, w1) := np_random_rand G w in
  if Rlt_dec u p then
    let (k, w2) := np_random_randint 3 w1 in
    let op := nth k ["X"; "Y"; "Z"]%string ""%string in
    if String.eqb op "X" then bit_flip G state 1 target w2
    else if String.eqb op "Y" then
      match bit_flip G state 1 target w2 with
      | (Ok s, w3) =>
          match phase_flip s 1 target w3 with
          | (Ok s, w4) => (Ok (map (Cmult Ci) s), w4)
          | (Raise e, w4) => (Raise e, w4)
          end
      | (Raise e, w3) => (Raise e, w3)
      end
    else if String.eqb op "Z" then phase_flip state 1 target w2
    else (Ok state, w2)
  else (Ok state, w1).

(** A channel [func(state, p, target)]; the channels of [noise.py] leave
    their argument as it is and return a new array. *)
Definition channel_t : Type :=
  list C -> R -> Z -> rng_state G -> result (list C) * rng_state G.

(** [for t in gate.targets: state = func(state, p, t)] *)
Fixpoint apply_channel (func : channel_t) (p : R) (ts : list Z) (state : list C)
    (w : rng_state G) : result (list C) * rng_state G :=
  match ts with
  | [] => (Ok state, w)
  | t :: rest =>
      match func state p t w with
      | (Ok state', w') => apply_channel func p rest state' w'
      | (Raise e, w') => (Raise e, w')
      end
  end.

(** [for name, (func, p) in channels.items(): ...]; the dict is read in its
    insertion order. *)
Fixpoint apply_channels (channels : list (string * (channel_t * R))) (ts : list Z)
    (state : list C) (w : rng_state G) : result (list C) * rng_state G :=
  match channels with
  | [] => (Ok state, w)
  | (_, (func, p)) :: rest =>
      match apply_channel func p ts state w with
      | (Ok state', w') => apply_channels rest ts state' w'
      | (Raise e, w') => (Raise e, w')
      end
  end.

(** [make_noise_hook(channels)]: the hook rebinds its local [state] and
    never writes into the array it was given. *)
Definition make_noise_hook (channels : list (string * (channel_t * R)))
    : noise_hook_t G :=
  fun state gate w =>
    match apply_channels channels (targets gate) state w with
    | (Ok ret, w') => (HookReturn ret, w')
    | (Raise e, w') => (HookRaise state e, w')
    end.

End NoiseChannels.

(** the channel is one of [bit_flip], [phase_flip], [depolarizing] *)
Definition flip_channel (G : NumpyRandom)
    (np_random_randint : nat -> rng_state G -> nat * rng_state G)
    (func : channel_t G) : Prop :=
  func = bit_flip G \/ func = phase_flip G \/ func = depolarizing G np_random_randint.

(** [new_state[i]] after [phase_flip] with every draw below [p] *)
Definition phase_flipped (t : nat) (state : list C) : list C :=
  imap (fun i z => if Nat.testbit i t then Copp z else z) state.

(** [new_state] after [amplitude_damping] with every draw below [p] *)
Definition fully_damped (t : nat) (state : list C) : list C :=
  imap (fun i z => if Nat.testbit i t then C0
                   else Cplus z (nth (i + 2 ^ t) state C0)) state.

(** what a channel does to an array: the array it returns has the squared
    moduli of its argument, up to their order, and what it raises derives
    from [Exception] *)
Definition keeps_moduli (G : NumpyRandom) (func : channel_t G) : Prop :=
  forall state p t w,
    match func state p t w with
    | (Ok new, _) => map Cnorm2 new ≡ₚ map Cnorm2 state
    | (Raise e, _) => is_Exception e = true
    end.

(** What [amplitude_damping] can have done to the entry at an index [i]
    whose bit [t] is set and to its partner at [i - 2^t]: left both, or set
    the first to 0 after adding it onto the second. *)
Definition damped_pair (t : nat) (state new : list C) (i : nat) : Prop :=
  let j := i - 2 ^ t in
  (nth i new C0 = nth i state C0 /\ nth j new C0 = nth j state C0)
  \/ (nth i new C0 = C0
      /\ nth j new C0 = Cplus (nth j state C0) (nth i state C0)).


(** ** Rounding *)

(** The amplitudes above are exact complex numbers.  numpy computes in
    binary64, and a gate that multiplies and adds (H and the rotations)
    returns an array a little off the exact one.  [rounded eta exact
    computed] says how far: [computed] has the length of [exact] and lies
    within relative distance [eta] of it in the 2-norm. *)
Definition dist_sq (v w : list C) : R :=
  Rsum (zip_with (fun a b => Cnorm2 (Cplus a (Copp b))) v w).

Definition rounded (eta : R) (exact computed : list C) : Prop :=
  length computed = length exact
  /\ (dist_sq computed exact <= eta ^ 2 * norm_sq exact)%R.

(** A run of [run] over gates that are no measurement, without a noise
    hook, in which the array that each gate returns is rounded. *)
Inductive run_rounded (eta : R) (n : nat) : list Gate -> list C -> list C -> Prop :=
  | run_rounded_nil (state : list C) : run_rounded eta n [] state state
  | run_rounded_cons (g : Gate) (gs : list Gate) (state exact computed final : list C) :
      gate_step n g state = Ok (Some exact) ->
      rounded eta exact computed ->
      run_rounded eta n gs computed final ->
      run_rounded eta n (g :: gs) state final.

(** ** binary64 *)

(** The H gate on a one-qubit register as numpy computes it, in binary64.
    With one qubit the reshapes and transpositions of
    [_apply_single_qubit_unitary] leave the array as it is, and
    [U @ t] is the product of the 2x2 matrix with the two amplitudes. *)
Definition complex128 : Type := float * float.

Definition c128_add (a b : complex128) : complex128 :=
  (fst a + fst b, snd a + snd b)%float.

Definition c128_mul (a b : complex128) : complex128 :=
  (fst a * fst b - snd a * snd b, fst a * snd b + snd a * fst b)%float.

(** [(1 / np.sqrt(2)) * np.array([[1, 1], [1, -1]], dtype=complex)] *)
Definition H_binary64 : (complex128 * complex128) * (complex128 * complex128) :=
  let s : complex128 := (1 / PrimFloat.sqrt 2, 0)%float in
  ((c128_mul s (1, 0)%float, c128_mul s (1, 0)%float),
   (c128_mul s (1, 0)%float, c128_mul s (-1, 0)%float)).

(** [U @ t] for [t] of shape (2, 1) *)
Definition matvec_binary64 (U : (complex128 * complex128) * (complex128 * complex128))
    (t : complex128 * complex128) : complex128 * complex128 :=
  let '((u00, u01), (u10, u11)) := U in
  let '(a, b) := t in
  (c128_add (c128_mul u00 a) (c128_mul u01 b),
   c128_add (c128_mul u10 a) (c128_mul u11 b)).

(** [run] over the one-qubit circuit of [k] H gates on qubit 0 *)
Definition run_H_binary64 (k : positive) : complex128 * complex128 :=
  Pos.iter (matvec_binary64 H_binary64) ((1, 0), (0, 0))%float k.

(** [k] H gates on qubit 0 take the amplitudes [(a, 0)] to [(a', 0)] *)
Definition H_steps (a : float) (k : positive) (a' : float) : Prop :=
  Pos.iter (matvec_binary64 H_binary64) ((a, 0), (0, 0))%float k
  = ((a', 0), (0, 0))%float.

(** the rational number that a finite binary64 value is *)
Definition binary64_value (f : float) : Q :=
  match Prim2SF f with
  | S754_finite s m e =>
      (inject_Z (if s then Z.neg m else Z.pos m) * Qpower (2 # 1) e)%Q
  | _ => 0%Q
  end.

(** the sum of the squared moduli of two binary64 amplitudes, exactly *)
Definition norm_sq_binary64 (t : complex128 * complex128) : Q :=
  let '((a, b), (c, d)) := t in
  (binary64_value a * binary64_value a + binary64_value b * binary64_value b
   + (binary64_value c * binary64_value c + binary64_value d * binary64_value d))%Q.

(** ** cli.py *)

(** The dictionary that [main] prints for a state vector:
    [{labels[i]: float(probs[i]) for i in range(len(probs))}] with
    [labels[i] = format(i, f'0{n}b')]. *)
Definition cli_probabilities (n : nat) (result : list C) : gmap string R :=
  let probs := map (fun z => (Cabs z ^ 2)%R) result in
  foldl (fun out i => <[format_0b n i := nth i probs 0%R]> out) ∅
        (seq 0 (length probs)).

(** ** Evaluation on concrete inputs *)

(** Unfolds the model on closed inputs and leaves the real arithmetic. *)
Ltac rcompute :=
  cbv -[Rplus Rmult Rminus Ropp Rinv Rdiv sqrt cos sin exp IZR Rlt_dec Rle_dec
        Rabs pow Rlt Rle].

Ltac amplitudes := repeat (f_equal; try lra).

(** A branch that raised: the exception derives from [Exception]. *)
Ltac raised :=
  let H := fresh in intros H; injection H as H _; by rewrite <- H.

(** ** circuit.py *)

(** C3 as stated fails: [add_gate('CNOT', targets=[0])] raises nothing and
    appends the gate with its single target. *)
Lemma add_gate_cnot_one_target_appended :
  add_gate (new_circuit 2) (ArgStr "CNOT") (Some [0%Z]) None
  = Ok {| num_qubits := 2; gates := [mkGate "CNOT" [0%Z] []] |}.
Proof. reflexivity. Qed.

(** C3, amended.  Given a gate name, [add_gate] checks neither the number
    of targets nor their range: it appends [Gate(name, targets, params or [])]
    as it is, and raises ([ValueError]) only when [targets] is [None].  A CNOT
    with one target fails later, in [run], with the [IndexError] of
    [gate.targets[1]]. *)
Theorem add_gate_by_name_unchecked (qc : QuantumCircuit) (nm : string)
    (ts : list Z) (ps : option (list R)) :
  add_gate qc (ArgStr nm) (Some ts) ps
    = Ok {| num_qubits := num_qubits qc;
            gates := gates qc ++ [mkGate nm ts (default [] ps)] |}
  /\ add_gate qc (ArgStr nm) None ps = Raise ValueError
  /\ forall (n : nat) (t : Z) (state : list C),
       gate_step n (mkGate "CNOT" [t] (default [] ps)) state = Raise IndexError.
Proof.
  split; [reflexivity|]. split; [reflexivity|].
  intros n t state. reflexivity.
Qed.

Section RunLemmas.
Context (G : NumpyRandom).


Lemma gate_step_measure n g state :
  is_measure g = true -> gate_step n g state = Ok None.
Proof.
  unfold is_measure, has_name, gate_step. simpl.
  intros Hm.
  destruct (String.eqb_spec (name g) "M") as [->|?];
    [reflexivity|].
  destruct (String.eqb_spec (name g) "Measure") as [->|?]; [reflexivity|].
  discriminate.
Qed.

Lemma gate_step_unknown n g state :
  has_name recognized_names g = false -> gate_step n g state = Ok (Some state).
Proof.
  unfold has_name, recognized_names, gate_step. simpl. intros Hm.
  repeat (destruct (String.eqb (name g) _); [discriminate|]). simpl.
  reflexivity.
Qed.

End RunLemmas.

(** ** Flat indices and multi-indices *)

Lemma unravel_le_length n i : length (unravel_le n i) = n.
Proof. revert i. induction n as [|n IH]; intros i; simpl; [done|]. by rewrite IH. Qed.

Lemma ravel_le_bound bits : ravel_le bits < 2 ^ length bits.
Proof.
  induction bits as [|b bits IH]; simpl; [lia|].
  destruct b; simpl; lia.
Qed.

Lemma ravel_le_unravel_le n i : i < 2 ^ n -> ravel_le (unravel_le n i) = i.
Proof.
  revert i. induction n as [|n IH]; intros i Hi.
  { simpl in *. lia. }
  rewrite Nat.pow_succ_r' in Hi.
  cbn [unravel_le ravel_le]. rewrite IH by (apply Nat.Div0.div_lt_upper_bound; lia).
  pose proof (Nat.div_mod_eq i 2) as Hd.
  assert (Hm : Nat.b2n (Nat.odd i) = i mod 2).
  { rewrite <- Nat.bit0_mod. by rewrite Nat.bit0_odd. }
  lia.
Qed.

Lemma unravel_le_ravel_le bits : unravel_le (length bits) (ravel_le bits) = bits.
Proof.
  induction bits as [|b bits IH]; [done|].
  cbn [length ravel_le unravel_le].
  assert (Hd : (Nat.b2n b + 2 * ravel_le bits) / 2 = ravel_le bits).
  { symmetry. apply Nat.div_unique with (Nat.b2n b); destruct b; simpl; lia. }
  rewrite Hd, IH. f_equal.
  rewrite Nat.odd_add, Nat.odd_mul. simpl. destruct b; done.
Qed.

Lemma unravel_length n i : length (unravel n i) = n.
Proof. unfold unravel. by rewrite length_rev, unravel_le_length. Qed.

Lemma ravel_bound bits : ravel bits < 2 ^ length bits.
Proof. unfold ravel. rewrite <- (length_rev bits). apply ravel_le_bound. Qed.

Lemma ravel_unravel n i : i < 2 ^ n -> ravel (unravel n i) = i.
Proof. intros Hi. unfold ravel, unravel. rewrite rev_involutive. by apply ravel_le_unravel_le. Qed.

Lemma unravel_ravel bits : unravel (length bits) (ravel bits) = bits.
Proof.
  unfold ravel, unravel. rewrite <- (length_rev bits), unravel_le_ravel_le.
  apply rev_involutive.
Qed.

(** ** Permutations of the axes *)

Lemma nth_map_seq {A} (f : nat -> A) n m d : m < n -> nth m (map f (seq 0 n)) d = f m.
Proof.
  intros Hm. rewrite (nth_indep _ d (f 0)) by (rewrite length_map, length_seq; lia).
  rewrite (map_nth f (seq 0 n) 0 m), seq_nth; [done|lia].
Qed.

Lemma position_lt m l : In m l -> position m l < length l.
Proof.
  induction l as [|x l IH]; simpl; [done|].
  intros [->|Hin]; [rewrite Nat.eqb_refl; lia|].
  destruct (x =? m); [lia|]. specialize (IH Hin). lia.
Qed.

Lemma nth_position m l d : In m l -> nth (position m l) l d = m.
Proof.
  induction l as [|x l IH]; simpl; [done|].
  intros Hin. destruct (Nat.eqb_spec x m) as [->|Hne]; [done|].
  destruct Hin as [?|Hin]; [done|]. by apply IH.
Qed.

Lemma position_nth k l d : NoDup l -> k < length l -> position (nth k l d) l = k.
Proof.
  revert k. induction l as [|x l IH]; intros k Hnd Hk; simpl in *; [lia|].
  apply NoDup_cons in Hnd as [Hx Hnd].
  destruct k as [|k].
  - by rewrite Nat.eqb_refl.
  - destruct (Nat.eqb_spec x (nth k l d)) as [->|Hne].
    + exfalso. apply Hx. rewrite list_elem_of_In. apply nth_In. lia.
    + rewrite IH; [done|done|lia].
Qed.

Lemma is_perm_In n ax m : is_perm n ax -> m < n -> In m ax.
Proof.
  intros (Hnd & Hlen & Hlt) Hm.
  apply NoDup_ListNoDup in Hnd.
  apply (NoDup_length_incl Hnd (l' := seq 0 n)).
  - rewrite length_seq. lia.
  - intros x Hx. apply in_seq. rewrite Forall_forall in Hlt.
    apply list_elem_of_In in Hx. specialize (Hlt x Hx). lia.
  - apply in_seq. lia.
Qed.

Lemma inv_perm_length n ax : length (inv_perm n ax) = n.
Proof. unfold inv_perm. by rewrite length_map, length_seq. Qed.

Lemma inv_perm_nth n ax m : m < n -> nth m (inv_perm n ax) 0 = position m ax.
Proof. intros Hm. unfold inv_perm. by rewrite nth_map_seq. Qed.

Lemma inv_perm_is_perm n ax : is_perm n ax -> is_perm n (inv_perm n ax).
Proof.
  intros Hp. pose proof Hp as (Hnd & Hlen & Hlt).
  split; [|split].
  - unfold inv_perm. apply NoDup_fmap_2_strong; [|apply NoDup_seq].
    intros x y Hx Hy Heq. apply elem_of_seq in Hx, Hy.
    rewrite <- (nth_position x ax 0), <- (nth_position y ax 0), Heq;
      [done|apply (is_perm_In n); [done|lia]..].
  - apply inv_perm_length.
  - unfold inv_perm. rewrite Forall_fmap, Forall_forall. intros m Hm.
    apply elem_of_seq in Hm. simpl. rewrite <- Hlen.
    apply position_lt, (is_perm_In n); [done|lia].
Qed.

Lemma position_inv_perm n ax m :
  is_perm n ax -> m < n -> position m (inv_perm n ax) = nth m ax 0.
Proof.
  intros Hp Hm. pose proof Hp as (Hnd & Hlen & Hlt).
  pose proof (inv_perm_is_perm n ax Hp) as (Hnd' & Hlen' & Hlt').
  assert (Hk : nth m ax 0 < n).
  { rewrite Forall_forall in Hlt. apply Hlt, list_elem_of_In, nth_In. lia. }
  transitivity (position (nth (nth m ax 0) (inv_perm n ax) 0) (inv_perm n ax)).
  - f_equal. rewrite inv_perm_nth by done.
    symmetry. apply position_nth; [done|lia].
  - apply position_nth; [done|lia].
Qed.

Lemma gather_bits_length n ax i : length (gather_bits n ax i) = n.
Proof. unfold gather_bits. by rewrite length_map, length_seq. Qed.

Lemma gather_bits_nth n ax i m :
  m < n -> nth m (gather_bits n ax i) false = nth (position m ax) i false.
Proof. intros Hm. unfold gather_bits. by rewrite nth_map_seq. Qed.

Lemma gather_inv_gather n ax i :
  is_perm n ax -> length i = n ->
  gather_bits n ax (gather_bits n (inv_perm n ax) i) = i.
Proof.
  intros Hp Hi. pose proof Hp as (Hnd & Hlen & Hlt).
  apply (nth_ext _ _ false false); [by rewrite gather_bits_length|].
  intros m Hm. rewrite gather_bits_length in Hm.
  assert (Hin : In m ax) by by apply (is_perm_In n).
  rewrite gather_bits_nth by done.
  rewrite gather_bits_nth by (rewrite <- Hlen; by apply position_lt).
  rewrite position_inv_perm by (done || rewrite <- Hlen; by apply position_lt).
  by rewrite nth_position.
Qed.

Lemma gather_gather_inv n ax i :
  is_perm n ax -> length i = n ->
  gather_bits n (inv_perm n ax) (gather_bits n ax i) = i.
Proof.
  intros Hp Hi. pose proof Hp as (Hnd & Hlen & Hlt).
  apply (nth_ext _ _ false false); [by rewrite gather_bits_length|].
  intros m Hm. rewrite gather_bits_length in Hm.
  rewrite gather_bits_nth by done.
  rewrite position_inv_perm by done.
  assert (Hk : nth m ax 0 < n).
  { rewrite Forall_forall in Hlt. apply Hlt, list_elem_of_In, nth_In. lia. }
  rewrite gather_bits_nth by done.
  rewrite position_nth by (done || lia). done.
Qed.

Lemma unravel_ravel_len n bits : length bits = n -> unravel n (ravel bits) = bits.
Proof. intros <-. apply unravel_ravel. Qed.

Lemma source_index_bound n ax o : source_index n ax o < 2 ^ n.
Proof.
  unfold source_index.
  pose proof (ravel_bound (gather_bits n ax (unravel n o))) as Hb.
  rewrite gather_bits_length in Hb. exact Hb.
Qed.

Lemma source_index_inv_l n ax o :
  is_perm n ax -> o < 2 ^ n ->
  source_index n ax (source_index n (inv_perm n ax) o) = o.
Proof.
  intros Hp Ho. unfold source_index.
  change (ravel (gather_bits n ax
     (unravel n (ravel (gather_bits n (inv_perm n ax) (unravel n o))))) = o).
  rewrite unravel_ravel_len by apply gather_bits_length.
  rewrite gather_inv_gather; [by apply ravel_unravel|done|apply unravel_length].
Qed.

Lemma source_index_inv_r n ax o :
  is_perm n ax -> o < 2 ^ n ->
  source_index n (inv_perm n ax) (source_index n ax o) = o.
Proof.
  intros Hp Ho. unfold source_index.
  change (ravel (gather_bits n (inv_perm n ax)
     (unravel n (ravel (gather_bits n ax (unravel n o))))) = o).
  rewrite unravel_ravel_len by apply gather_bits_length.
  rewrite gather_gather_inv; [by apply ravel_unravel|done|apply unravel_length].
Qed.

#[local] Instance key_le_total l : Total (key_le l).
Proof. intros i j. unfold key_le. lia. Qed.

Lemma is_perm_Permutation n ax : is_perm n ax -> ax ≡ₚ seq 0 n.
Proof.
  intros Hp. pose proof Hp as (Hnd & Hlen & Hlt).
  apply NoDup_Permutation; [done|apply NoDup_seq|].
  intros x. rewrite elem_of_seq. split.
  - intros Hx. rewrite Forall_forall in Hlt. specialize (Hlt x Hx). lia.
  - intros Hx. apply list_elem_of_In, (is_perm_In n); [done|lia].
Qed.

Lemma Permutation_is_perm n ax : ax ≡ₚ seq 0 n -> is_perm n ax.
Proof.
  intros Hp. split; [|split].
  - rewrite Hp. apply NoDup_seq.
  - rewrite Hp. apply length_seq.
  - rewrite Hp. apply Forall_forall. intros x Hx. apply elem_of_seq in Hx. lia.
Qed.

Lemma map_nth_seq {A} (l : list A) d : map (fun k => nth k l d) (seq 0 (length l)) = l.
Proof.
  apply (nth_ext _ _ d d); [by rewrite length_map, length_seq|].
  intros m Hm. rewrite length_map, length_seq in Hm. by rewrite nth_map_seq.
Qed.

Lemma nth_map_lt {A B} (f : A -> B) (l : list A) d d' p :
  p < length l -> nth p (map f l) d' = f (nth p l d).
Proof.
  intros Hp. rewrite (nth_indep _ d' (f d)) by (by rewrite length_map).
  apply map_nth.
Qed.

Lemma Sorted_of_nat_seq a n : Sorted Z.le (map Z.of_nat (seq a n)).
Proof.
  revert a. induction n as [|n IH]; intros a; simpl; constructor; [apply IH|].
  destruct n; simpl; constructor. lia.
Qed.

Lemma argsort_perm n ax :
  is_perm n ax -> argsort (map Z.of_nat ax) = inv_perm n ax.
Proof.
  intros Hp. pose proof Hp as (Hnd & Hlen & Hlt).
  set (l := map Z.of_nat ax). unfold argsort.
  assert (Hl : length l = n) by (unfold l; by rewrite length_map).
  rewrite Hl. set (r := merge_sort (key_le l) (seq 0 n)).
  assert (Hs : Sorted (key_le l) r) by apply (Sorted_merge_sort _).
  assert (Hr : r ≡ₚ seq 0 n) by apply merge_sort_Permutation.
  assert (Hkeys : map (fun k => nth k l 0%Z) r = map Z.of_nat (seq 0 n)).
  { apply (@Sorted_unique _ Z.le _ _).
    - eapply (Sorted_fmap _ (key_le l) Z.le); [|exact Hs]. done.
    - apply Sorted_of_nat_seq.
    - change (((fun k => nth k l 0%Z) <$> r) ≡ₚ (Z.of_nat <$> seq 0 n)).
      rewrite Hr. rewrite <- Hl at 1.
      change ((fun k : nat => nth k l 0%Z) <$> seq 0 (length l)) with
        (map (fun k : nat => nth k l 0%Z) (seq 0 (length l))).
      rewrite map_nth_seq. unfold l.
      change (map Z.of_nat ax) with (Z.of_nat <$> ax).
      by rewrite (is_perm_Permutation n ax Hp). }
  assert (Hrlen : length r = n) by (rewrite Hr; apply length_seq).
  apply (nth_ext _ _ 0 0); [by rewrite inv_perm_length|].
  intros p Hp'. rewrite Hrlen in Hp'. rewrite inv_perm_nth by done.
  set (k := nth p r 0).
  assert (Hk : k < n).
  { assert (k ∈ seq 0 n) as Hin.
    { rewrite <- Hr. apply list_elem_of_In, nth_In. lia. }
    apply elem_of_seq in Hin. lia. }
  assert (Hkey : nth k l 0%Z = Z.of_nat p).
  { pose proof (f_equal (fun x => nth p x 0%Z) Hkeys) as E. simpl in E.
    rewrite (nth_map_lt _ r 0) in E by lia.
    rewrite (nth_map_lt _ (seq 0 n) 0) in E by (rewrite length_seq; lia).
    rewrite seq_nth in E by done. exact E. }
  unfold l in Hkey. rewrite (nth_map_lt _ ax 0) in Hkey by lia.
  apply Nat2Z.inj in Hkey.
  rewrite <- Hkey. symmetry. apply position_nth; [done|lia].
Qed.

Lemma check_axes_perm n ax : is_perm n ax -> check_axes n (map Z.of_nat ax) = Ok ax.
Proof.
  intros (Hnd & Hlen & Hlt). unfold check_axes.
  rewrite length_map, Hlen, Nat.eqb_refl.
  assert (Hm : mapM (normalize_axis n) (map Z.of_nat ax) = Some ax).
  { apply mapM_Some. apply Forall2_fmap_l, Forall_Forall2_diag.
    eapply Forall_impl; [exact Hlt|]. intros x Hx. simpl.
    unfold normalize_axis.
    simpl in Hx.
    rewrite (proj2 (Z.ltb_ge _ _)) by lia.
    rewrite (proj2 (Z.leb_le _ _)) by lia.
    rewrite (proj2 (Z.ltb_lt _ _)) by lia.
    simpl. by rewrite Nat2Z.id. }
  rewrite Hm. by rewrite bool_decide_eq_true_2.
Qed.

Lemma filter_all {A} (P : A -> Prop) `{!forall x, Decision (P x)} (l : list A) :
  Forall P l -> filter P l = l.
Proof.
  induction 1 as [|x l Hx Hl IH]; [done|].
  rewrite filter_cons_True by done. by rewrite IH.
Qed.

Lemma filter_seq_ne n t :
  t < n -> filter (fun i => i ≠ t) (seq 0 n) = seq 0 t ++ seq (S t) (n - S t).
Proof.
  intros Ht. replace n with (t + S (n - S t)) at 1 by lia.
  rewrite seq_app, filter_app. simpl.
  rewrite filter_cons_False by (intros H; by apply H).
  rewrite !filter_all; [done|..].
  - apply Forall_forall. intros x Hx. apply elem_of_seq in Hx. lia.
  - apply Forall_forall. intros x Hx. apply elem_of_seq in Hx. lia.
Qed.

Lemma target_axes_is_perm n t : t < n -> is_perm n (target_axes n t).
Proof.
  intros Ht. apply Permutation_is_perm. unfold target_axes.
  rewrite filter_seq_ne by done.
  replace n with (t + S (n - S t)) at 2 by lia.
  rewrite seq_app. simpl. apply Permutation_middle.
Qed.

Lemma axes_of_target n (target : Z) :
  (0 <= target < Z.of_nat n)%Z ->
  target :: filter (fun i => i ≠ target) (map Z.of_nat (seq 0 n))
  = map Z.of_nat (target_axes n (Z.to_nat target)).
Proof.
  intros Ht. unfold target_axes. simpl. rewrite Z2Nat.id by lia. f_equal.
  induction (seq 0 n) as [|x l IH]; [done|]. simpl.
  destruct (decide (x = Z.to_nat target)) as [->|Hne].
  - rewrite filter_cons_False by (rewrite Z2Nat.id by lia; intros H; by apply H).
    rewrite filter_cons_False by (intros H; by apply H). exact IH.
  - rewrite filter_cons_True by lia. rewrite filter_cons_True by done.
    simpl. by rewrite IH.
Qed.

(** ** [_apply_single_qubit_unitary] as two gathers around a product *)

Lemma gather_length {A} (d : A) n ax v : length (gather d n ax v) = 2 ^ n.
Proof. unfold gather. by rewrite length_map, length_seq. Qed.

Lemma gather_inv_l {A} (d : A) n ax v :
  is_perm n ax -> length v = 2 ^ n ->
  gather d n (inv_perm n ax) (gather d n ax v) = v.
Proof.
  intros Hp Hv. apply (nth_ext _ _ d d); [by rewrite gather_length|].
  intros o Ho. rewrite gather_length in Ho.
  unfold gather at 1. rewrite nth_map_seq by done.
  unfold gather. rewrite nth_map_seq by apply source_index_bound.
  by rewrite source_index_inv_l.
Qed.

Lemma apply_single_qubit_unitary_eq n state U target :
  length state = 2 ^ n -> (0 <= target < Z.of_nat n)%Z ->
  let ax := target_axes n (Z.to_nat target) in
  _apply_single_qubit_unitary n state U target
  = Ok (gather C0 n (inv_perm n ax) (matmul2 U (gather C0 n ax state))).
Proof.
  intros Hlen Ht ax. unfold _apply_single_qubit_unitary, reshape_2n.
  assert (Hp : is_perm n ax) by (apply target_axes_is_perm; lia).
  rewrite Hlen, Nat.eqb_refl.
  rewrite axes_of_target by done. fold ax.
  unfold np_transpose. cbn [mbind result_bind].
  rewrite (check_axes_perm n ax Hp). cbn [mbind result_bind].
  rewrite (argsort_perm n ax Hp).
  rewrite (check_axes_perm n _ (inv_perm_is_perm n ax Hp)).
  reflexivity.
Qed.

(** ** The gate matrices *)

Lemma inv_sqrt2_sq : (1 / sqrt 2 * (1 / sqrt 2) = 1 / 2)%R.
Proof.
  assert (H2 : (sqrt 2 * sqrt 2 = 2)%R) by (apply sqrt_sqrt; lra).
  assert (Hn : (sqrt 2 <> 0)%R) by (intros E; rewrite E in H2; lra).
  replace (1 / sqrt 2 * (1 / sqrt 2))%R with (1 / (sqrt 2 * sqrt 2))%R
    by (field; exact Hn).
  by rewrite H2.
Qed.

Lemma H_norm_preserving : norm_preserving H_matrix.
Proof.
  intros [a1 a2] [b1 b2]. unfold row_action, H_matrix, Cnorm2, Cplus, Cmult, RtoC. simpl.
  pose proof inv_sqrt2_sq as Hs. set (s := (1 / sqrt 2)%R) in *.
  transitivity ((s * s) * 2 * (a1 * a1 + a2 * a2 + b1 * b1 + b2 * b2))%R; [ring|].
  rewrite Hs. field.
Qed.

Lemma X_norm_preserving : norm_preserving X_matrix.
Proof.
  intros [a1 a2] [b1 b2]. unfold row_action, X_matrix, Cnorm2, Cplus, Cmult, RtoC. simpl.
  ring.
Qed.

Lemma RX_norm_preserving theta : norm_preserving (RX_matrix theta).
Proof.
  intros [a1 a2] [b1 b2].
  unfold row_action, RX_matrix, Cnorm2, Cplus, Cmult, Copp, Ci, RtoC. simpl.
  pose proof (sin2_cos2 (theta / 2)) as Hsc. unfold Rsqr in Hsc.
  set (s := sin (theta / 2)) in *. set (c := cos (theta / 2)) in *.
  transitivity ((s * s + c * c) * (a1 * a1 + a2 * a2 + b1 * b1 + b2 * b2))%R; [ring|].
  rewrite Hsc. ring.
Qed.

Lemma RY_norm_preserving theta : norm_preserving (RY_matrix theta).
Proof.
  intros [a1 a2] [b1 b2].
  unfold row_action, RY_matrix, Cnorm2, Cplus, Cmult, RtoC. simpl.
  pose proof (sin2_cos2 (theta / 2)) as Hsc. unfold Rsqr in Hsc.
  set (s := sin (theta / 2)) in *. set (c := cos (theta / 2)) in *.
  transitivity ((s * s + c * c) * (a1 * a1 + a2 * a2 + b1 * b1 + b2 * b2))%R; [ring|].
  rewrite Hsc. ring.
Qed.

Lemma RZ_entries theta :
  Cexp (Cmult (Copp (0, 0.5)%R) (RtoC theta)) = (cos (theta / 2), (- sin (theta / 2))%R)
  /\ Cexp (Cmult (0, 0.5)%R (RtoC theta)) = (cos (theta / 2), sin (theta / 2)).
Proof.
  unfold Cexp, Cmult, Copp, RtoC. simpl. split.
  - repeat match goal with
           | |- context [exp ?x] => progress (replace x with 0%R by lra)
           | |- context [cos ?x] => progress (replace x with (- (theta / 2))%R by lra)
           | |- context [sin ?x] => progress (replace x with (- (theta / 2))%R by lra)
           end.
    rewrite exp_0, cos_neg, sin_neg. f_equal; ring.
  - repeat match goal with
           | |- context [exp ?x] => progress (replace x with 0%R by lra)
           | |- context [cos ?x] => progress (replace x with (theta / 2)%R by lra)
           | |- context [sin ?x] => progress (replace x with (theta / 2)%R by lra)
           end.
    rewrite exp_0. f_equal; ring.
Qed.

Lemma RZ_norm_preserving theta : norm_preserving (RZ_matrix theta).
Proof.
  intros [a1 a2] [b1 b2]. unfold row_action, RZ_matrix. cbn [u00 u01 u10 u11].
  destruct (RZ_entries theta) as [-> ->].
  unfold Cnorm2, Cplus, Cmult, RtoC. simpl.
  pose proof (sin2_cos2 (theta / 2)) as Hsc. unfold Rsqr in Hsc.
  set (s := sin (theta / 2)) in *. set (c := cos (theta / 2)) in *.
  transitivity ((s * s + c * c) * (a1 * a1 + a2 * a2 + b1 * b1 + b2 * b2))%R; [ring|].
  rewrite Hsc. ring.
Qed.

Lemma RX_zero_identity : acts_as_identity (RX_matrix 0).
Proof.
  intros [a1 a2] [b1 b2].
  unfold row_action, RX_matrix, Cplus, Cmult, Copp, Ci, RtoC. simpl.
  replace (0 / 2)%R with 0%R by field. rewrite cos_0, sin_0.
  f_equal; f_equal; ring.
Qed.

Lemma RY_zero_identity : acts_as_identity (RY_matrix 0).
Proof.
  intros [a1 a2] [b1 b2].
  unfold row_action, RY_matrix, Cplus, Cmult, RtoC. simpl.
  replace (0 / 2)%R with 0%R by field. rewrite cos_0, sin_0.
  f_equal; f_equal; ring.
Qed.

Lemma RZ_zero_identity : acts_as_identity (RZ_matrix 0).
Proof.
  intros [a1 a2] [b1 b2]. unfold row_action, RZ_matrix. cbn [u00 u01 u10 u11].
  destruct (RZ_entries 0) as [-> ->].
  unfold Cplus, Cmult, RtoC. simpl.
  replace (0 / 2)%R with 0%R by field. rewrite cos_0, sin_0.
  f_equal; f_equal; ring.
Qed.

(** ** Norms *)

Lemma norm_sq_app v w : norm_sq (v ++ w) = (norm_sq v + norm_sq w)%R.
Proof.
  unfold norm_sq. induction v as [|x v IH]; simpl; [ring|]. rewrite IH. ring.
Qed.

Lemma norm_sq_Permutation v w : v ≡ₚ w -> norm_sq v = norm_sq w.
Proof.
  unfold norm_sq. induction 1; simpl; lra.
Qed.

Lemma matmul2_rows (U : Mat2) (r0 r1 : list C) :
  length r0 = length r1 ->
  matmul2 U (r0 ++ r1)
  = zip_with (fun a b => fst (row_action U a b)) r0 r1
    ++ zip_with (fun a b => snd (row_action U a b)) r0 r1.
Proof.
  intros Hl. unfold matmul2.
  assert (Hh : length (r0 ++ r1) / 2 = length r0).
  { rewrite length_app, <- Hl. symmetry. apply Nat.div_unique with 0; lia. }
  rewrite Hh, take_app_length, drop_app_length. reflexivity.
Qed.

Lemma zip_rows_norm (U : Mat2) (r0 r1 : list C) :
  norm_preserving U -> length r0 = length r1 ->
  (norm_sq (zip_with (fun a b => fst (row_action U a b)) r0 r1)
   + norm_sq (zip_with (fun a b => snd (row_action U a b)) r0 r1)
   = norm_sq r0 + norm_sq r1)%R.
Proof.
  intros HU. revert r1. induction r0 as [|a r0 IH]; intros [|b r1] Hl;
    simpl in Hl; try discriminate; [unfold norm_sq; simpl; ring|].
  injection Hl as Hl. specialize (IH r1 Hl). specialize (HU a b).
  unfold norm_sq in *. simpl in *. lra.
Qed.

Lemma zip_rows_identity (U : Mat2) (r0 r1 : list C) :
  acts_as_identity U -> length r0 = length r1 ->
  zip_with (fun a b => fst (row_action U a b)) r0 r1 = r0
  /\ zip_with (fun a b => snd (row_action U a b)) r0 r1 = r1.
Proof.
  intros HU. revert r1. induction r0 as [|a r0 IH]; intros [|b r1] Hl;
    simpl in Hl; try discriminate; [done|].
  injection Hl as Hl. destruct (IH r1 Hl) as [E0 E1].
  cbn [zip_with]. rewrite E0, E1, (HU a b). done.
Qed.

Lemma split_halves {A} (n : nat) (v : list A) :
  length v = 2 ^ S n ->
  exists r0 r1, v = r0 ++ r1 /\ length r0 = 2 ^ n /\ length r1 = 2 ^ n.
Proof.
  intros Hv. rewrite Nat.pow_succ_r' in Hv.
  exists (take (2 ^ n) v), (drop (2 ^ n) v). split; [by rewrite take_drop|].
  rewrite length_take, length_drop. lia.
Qed.

Lemma matmul2_length U n v : length v = 2 ^ S n -> length (matmul2 U v) = 2 ^ S n.
Proof.
  intros Hv. destruct (split_halves n v Hv) as (r0 & r1 & -> & H0 & H1).
  rewrite matmul2_rows by lia. rewrite length_app, !length_zip_with.
  rewrite Nat.pow_succ_r'. lia.
Qed.

Lemma matmul2_norm U n v :
  norm_preserving U -> length v = 2 ^ S n -> norm_sq (matmul2 U v) = norm_sq v.
Proof.
  intros HU Hv. destruct (split_halves n v Hv) as (r0 & r1 & -> & H0 & H1).
  rewrite matmul2_rows by lia. rewrite !norm_sq_app.
  apply zip_rows_norm; [done|lia].
Qed.

Lemma matmul2_identity U n v :
  acts_as_identity U -> length v = 2 ^ S n -> matmul2 U v = v.
Proof.
  intros HU Hv. destruct (split_halves n v Hv) as (r0 & r1 & -> & H0 & H1).
  rewrite matmul2_rows by lia.
  destruct (zip_rows_identity U r0 r1 HU) as [-> ->]; [lia|done].
Qed.

(** A gather along an injective index map permutes the entries. *)
Lemma gather_by_Permutation {A} (f : nat -> nat) (N : nat) (v : list A) (d : A) :
  (forall o, o < N -> f o < N) ->
  (forall o o', o < N -> o' < N -> f o = f o' -> o = o') ->
  length v = N ->
  map (fun o => nth (f o) v d) (seq 0 N) ≡ₚ v.
Proof.
  intros Hb Hinj Hv.
  assert (Hperm : map f (seq 0 N) ≡ₚ seq 0 N).
  { apply submseteq_length_Permutation; [|by rewrite length_map].
    apply NoDup_submseteq.
    - apply NoDup_fmap_2_strong; [|apply NoDup_seq].
      intros x y Hx Hy. apply elem_of_seq in Hx, Hy. apply Hinj; lia.
    - intros x Hx. apply list_elem_of_fmap in Hx as (o & -> & Ho).
      apply elem_of_seq in Ho. apply elem_of_seq. specialize (Hb o). lia. }
  transitivity (map (fun k => nth k v d) (seq 0 N)).
  - rewrite <- (map_map f (fun k => nth k v d)). by apply Permutation_map.
  - rewrite <- Hv. by rewrite map_nth_seq.
Qed.

Lemma gather_Permutation {A} (d : A) n ax v :
  is_perm n ax -> length v = 2 ^ n -> gather d n ax v ≡ₚ v.
Proof.
  intros Hp Hv. unfold gather. apply gather_by_Permutation; [| |done].
  - intros o _. apply source_index_bound.
  - intros o o' Ho Ho' E.
    rewrite <- (source_index_inv_r n ax o), <- (source_index_inv_r n ax o') by done.
    by rewrite E.
Qed.

Lemma apply_single_qubit_unitary_norm n state U target :
  norm_preserving U ->
  length state = 2 ^ n -> (0 <= target < Z.of_nat n)%Z ->
  exists state',
    _apply_single_qubit_unitary n state U target = Ok state'
    /\ length state' = 2 ^ n /\ norm_sq state' = norm_sq state.
Proof.
  intros HU Hlen Ht. rewrite apply_single_qubit_unitary_eq by done.
  eexists. split; [reflexivity|]. split; [apply gather_length|].
  destruct n as [|n]; [lia|].
  assert (Hp : is_perm (S n) (target_axes (S n) (Z.to_nat target)))
    by (apply target_axes_is_perm; lia).
  rewrite (norm_sq_Permutation _ _ (gather_Permutation C0 _ _ _
             (inv_perm_is_perm _ _ Hp) (matmul2_length U n _ (gather_length _ _ _ _)))).
  rewrite (matmul2_norm U n) by (done || apply gather_length).
  apply norm_sq_Permutation, gather_Permutation; done.
Qed.

Lemma apply_single_qubit_unitary_identity n state U target :
  acts_as_identity U ->
  length state = 2 ^ n -> (0 <= target < Z.of_nat n)%Z ->
  _apply_single_qubit_unitary n state U target = Ok state.
Proof.
  intros HU Hlen Ht. rewrite apply_single_qubit_unitary_eq by done.
  destruct n as [|n]; [lia|].
  rewrite (matmul2_identity U n) by (done || apply gather_length).
  rewrite gather_inv_l; [done| |done]. apply target_axes_is_perm. lia.
Qed.

(** ** Bits of an index *)

Lemma land_shiftr_1 i k : Nat.land (Nat.shiftr i k) 1 = Nat.b2n (Nat.testbit i k).
Proof.
  change 1 with (Nat.ones 1). rewrite Nat.land_ones.
  rewrite Nat.testbit_odd. rewrite <- Nat.bit0_odd, Nat.bit0_mod. by rewrite Nat.pow_1_r.
Qed.

Lemma bits_lt_pow2 x n : (forall k, n <= k -> Nat.testbit x k = false) -> x < 2 ^ n.
Proof.
  intros Hb. assert (E : x mod 2 ^ n = x).
  { apply Nat.bits_inj. intros k. destruct (Nat.lt_ge_cases k n) as [Hk|Hk].
    - by apply Nat.mod_pow2_bits_low.
    - rewrite Nat.mod_pow2_bits_high by done. symmetry. by apply Hb. }
  rewrite <- E. apply Nat.mod_upper_bound. apply Nat.pow_nonzero. lia.
Qed.

Lemma lt_pow2_bits x n k : x < 2 ^ n -> n <= k -> Nat.testbit x k = false.
Proof.
  intros Hx Hk. rewrite <- (Nat.mod_small x (2 ^ n)) by done.
  by apply Nat.mod_pow2_bits_high.
Qed.

Lemma lxor_lt_pow2 x y n : x < 2 ^ n -> y < 2 ^ n -> Nat.lxor x y < 2 ^ n.
Proof.
  intros Hx Hy. apply bits_lt_pow2. intros k Hk.
  by rewrite Nat.lxor_spec, (lt_pow2_bits x n k), (lt_pow2_bits y n k).
Qed.

Lemma lor_lt_pow2 x y n : x < 2 ^ n -> y < 2 ^ n -> Nat.lor x y < 2 ^ n.
Proof.
  intros Hx Hy. apply bits_lt_pow2. intros k Hk.
  by rewrite Nat.lor_spec, (lt_pow2_bits x n k), (lt_pow2_bits y n k).
Qed.

Lemma pow2_lt_pow2 t n : t < n -> 2 ^ t < 2 ^ n.
Proof. intros. apply Nat.pow_lt_mono_r; lia. Qed.

Lemma lxor_lxor x y : Nat.lxor (Nat.lxor x y) y = x.
Proof. by rewrite Nat.lxor_assoc, Nat.lxor_nilpotent, Nat.lxor_0_r. Qed.

Lemma lxor_pow2_ne x t : Nat.lxor x (2 ^ t) ≠ x.
Proof.
  intros E.
  assert (H0 : 2 ^ t = Nat.lxor x (Nat.lxor x (2 ^ t)))
    by (by rewrite <- Nat.lxor_assoc, Nat.lxor_nilpotent, Nat.lxor_0_l).
  rewrite E, Nat.lxor_nilpotent in H0.
  pose proof (Nat.pow_nonzero 2 t). lia.
Qed.

(** ** Arrays *)

Lemma index_nth {A} (l : list A) i d : i < length l -> index l i = Ok (nth i l d).
Proof.
  intros Hi. unfold index. rewrite (nth_lookup l i d).
  destruct (lookup_lt_is_Some_2 l i Hi) as [x ->]. done.
Qed.

Lemma np_index_nth {A} (l : list A) i d : i < length l -> np_index l i = Ok (nth i l d).
Proof.
  intros Hi. unfold np_index. rewrite (nth_lookup l i d).
  destruct (lookup_lt_is_Some_2 l i Hi) as [x ->]. done.
Qed.

Lemma np_index_past_end {A} (l : list A) i :
  length l <= i ->
  np_index l i
  = if (2 ^ 63 <=? Z.of_nat i)%Z then Raise OverflowError else Raise IndexError.
Proof. intros Hi. unfold np_index. by rewrite lookup_ge_None_2. Qed.

Lemma nth_insert {A} (l : list A) i x m d :
  i < length l -> nth m (<[i := x]> l) d = if m =? i then x else nth m l d.
Proof.
  intros Hi. rewrite !nth_lookup.
  destruct (Nat.eqb_spec m i) as [->|Hne].
  - by rewrite list_lookup_insert_eq.
  - by rewrite list_lookup_insert_ne.
Qed.

Lemma foldM_snoc {A B} (body : B -> A -> result B) l x acc :
  foldM body (l ++ [x]) acc
  = match foldM body l acc with Ok a => body a x | Raise e => Raise e end.
Proof.
  revert acc. induction l as [|y l IH]; intros acc; simpl.
  - by destruct (body acc x).
  - destruct (body acc y); [apply IH|done].
Qed.

Lemma py_rshift_ok i k : (0 <= k)%Z -> py_rshift i k = Ok (Nat.shiftr i (Z.to_nat k)).
Proof. intros Hk. unfold py_rshift. by rewrite (proj2 (Z.ltb_ge _ _)). Qed.

Lemma py_lshift_1_ok k : (0 <= k)%Z -> py_lshift 1 k = Ok (2 ^ Z.to_nat k).
Proof.
  intros Hk. unfold py_lshift. rewrite (proj2 (Z.ltb_ge _ _)) by done.
  by rewrite Nat.shiftl_1_l.
Qed.

(** ** [_apply_swap] *)

Lemma swap_src_lt a b m n : a < n -> b < n -> m < 2 ^ n -> swap_src a b m < 2 ^ n.
Proof.
  intros Ha Hb Hm. unfold swap_src. destruct (xorb _ _); [|done].
  apply lxor_lt_pow2; [done|]. apply lor_lt_pow2; by apply pow2_lt_pow2.
Qed.

Lemma swap_src_involutive a b m : swap_src a b (swap_src a b m) = m.
Proof.
  unfold swap_src. destruct (xorb (Nat.testbit m a) (Nat.testbit m b)) eqn:E.
  - set (m' := Nat.lxor m (Nat.lor (2 ^ a) (2 ^ b))).
    assert (E' : xorb (Nat.testbit m' a) (Nat.testbit m' b) = true).
    { unfold m'. rewrite !Nat.lxor_spec, !Nat.lor_spec, !Nat.pow2_bits_eqb.
      rewrite !Nat.eqb_refl. rewrite (Nat.eqb_sym b a).
      destruct (Nat.eqb_spec a b) as [->|Hne].
      - by rewrite xorb_nilpotent in E.
      - simpl. destruct (Nat.testbit m a), (Nat.testbit m b); done. }
    rewrite E'. apply lxor_lxor.
  - by rewrite E.
Qed.

Lemma swap_body_ok n state a b new k :
  length state = 2 ^ n -> length new = 2 ^ n ->
  (0 <= a < Z.of_nat n)%Z -> (0 <= b < Z.of_nat n)%Z -> k < 2 ^ n ->
  swap_body state a b new k
  = Ok (<[k := nth (swap_src (Z.to_nat a) (Z.to_nat b) k) state C0]> new).
Proof.
  intros Hs Hn Ha Hb Hk. unfold swap_body.
  rewrite !py_rshift_ok by lia. cbn [mbind result_bind].
  rewrite !land_shiftr_1. unfold swap_src.
  destruct (Nat.testbit k (Z.to_nat a)), (Nat.testbit k (Z.to_nat b));
    cbn [Nat.b2n Nat.eqb negb xorb];
    rewrite ?py_lshift_1_ok by lia; cbn [mbind result_bind];
    rewrite (np_index_nth state _ C0); try done; rewrite Hs; try done;
    apply lxor_lt_pow2; try done; apply lor_lt_pow2; apply pow2_lt_pow2; lia.
Qed.

Lemma swap_loop n state a b k :
  length state = 2 ^ n ->
  (0 <= a < Z.of_nat n)%Z -> (0 <= b < Z.of_nat n)%Z -> k <= 2 ^ n ->
  exists new,
    foldM (swap_body state a b) (seq 0 k) state = Ok new
    /\ length new = 2 ^ n
    /\ forall m, nth m new C0
         = if m <? k then nth (swap_src (Z.to_nat a) (Z.to_nat b) m) state C0
           else nth m state C0.
Proof.
  intros Hs Ha Hb. induction k as [|k IH]; intros Hk.
  - exists state. split; [done|]. split; [done|]. intros m. done.
  - destruct IH as (new & Hf & Hn & Hnew); [lia|].
    rewrite seq_S, foldM_snoc, Hf. simpl.
    rewrite (swap_body_ok n) by (done || lia).
    eexists. split; [reflexivity|]. split; [by rewrite length_insert|].
    intros m. rewrite nth_insert by lia. rewrite Hnew.
    destruct (Nat.eqb_spec m k) as [->|Hne].
    + by rewrite (proj2 (Nat.ltb_lt k (S k))) by lia.
    + destruct (Nat.ltb_spec m k), (Nat.ltb_spec m (S k)); try done; lia.
Qed.

Lemma apply_swap_eq n state a b :
  length state = 2 ^ n ->
  (0 <= a < Z.of_nat n)%Z -> (0 <= b < Z.of_nat n)%Z ->
  _apply_swap state a b
  = Ok (map (fun m => nth (swap_src (Z.to_nat a) (Z.to_nat b) m) state C0) (seq 0 (2 ^ n))).
Proof.
  intros Hs Ha Hb. unfold _apply_swap. rewrite Hs.
  destruct (swap_loop n state a b (2 ^ n)) as (new & -> & Hn & Hnew); try done.
  f_equal. apply (nth_ext _ _ C0 C0); [by rewrite length_map, length_seq|].
  intros m Hm. rewrite Hn in Hm. rewrite Hnew, nth_map_seq by done.
  by rewrite (proj2 (Nat.ltb_lt _ _)).
Qed.

(** ** [_apply_cnot] *)

Lemma cnot_src_lt c t m n : t < n -> m < 2 ^ n -> cnot_src c t m < 2 ^ n.
Proof.
  intros Ht Hm. unfold cnot_src. destruct (_ || _); [|done].
  apply lxor_lt_pow2; [done|]. by apply pow2_lt_pow2.
Qed.

Lemma cnot_src_involutive c t m : cnot_src c t (cnot_src c t m) = m.
Proof.
  unfold cnot_src. cbv zeta.
  destruct (Nat.testbit m c || Nat.testbit (Nat.lxor m (2 ^ t)) c) eqn:E.
  - rewrite lxor_lxor, (orb_comm (Nat.testbit (Nat.lxor m (2 ^ t)) c)), E. done.
  - by rewrite E.
Qed.

Lemma cnot_body_ok n state c t new k :
  length state = 2 ^ n -> length new = 2 ^ n ->
  (0 <= c)%Z -> (0 <= t < Z.of_nat n)%Z -> k < 2 ^ n ->
  cnot_body state c t new k
  = Ok (if Nat.testbit k (Z.to_nat c)
        then <[Nat.lxor k (2 ^ Z.to_nat t) := nth k state C0]>
               (<[k := nth (Nat.lxor k (2 ^ Z.to_nat t)) state C0]> new)
        else new).
Proof.
  intros Hs Hn Hc Ht Hk. unfold cnot_body.
  rewrite py_rshift_ok by lia. cbn [mbind result_bind].
  rewrite land_shiftr_1.
  destruct (Nat.testbit k (Z.to_nat c)); cbn [Nat.b2n Nat.eqb]; [|done].
  rewrite py_lshift_1_ok by lia. cbn [mbind result_bind].
  rewrite (np_index_nth state (Nat.lxor k (2 ^ Z.to_nat t)) C0).
  2:{ rewrite Hs. apply lxor_lt_pow2; [done|]. apply pow2_lt_pow2. lia. }
  cbn [mbind result_bind]. rewrite (np_index_nth state k C0) by lia. done.
Qed.

Lemma cnot_loop n state c t k :
  length state = 2 ^ n ->
  (0 <= c)%Z -> (0 <= t < Z.of_nat n)%Z -> k <= 2 ^ n ->
  exists new,
    foldM (cnot_body state c t) (seq 0 k) state = Ok new
    /\ length new = 2 ^ n
    /\ forall m, m < 2 ^ n ->
         nth m new C0
         = let m' := Nat.lxor m (2 ^ Z.to_nat t) in
           if (m <? k) && Nat.testbit m (Z.to_nat c)
              || (m' <? k) && Nat.testbit m' (Z.to_nat c)
           then nth m' state C0 else nth m state C0.
Proof.
  intros Hs Hc Ht. induction k as [|k IH]; intros Hk.
  - exists state. split; [done|]. split; [done|]. intros m Hm. done.
  - destruct IH as (new & Hf & Hn & Hnew); [lia|].
    rewrite seq_S, foldM_snoc, Hf. simpl.
    rewrite (cnot_body_ok n) by (done || lia).
    set (p := 2 ^ Z.to_nat t) in *.
    assert (Hp : p < 2 ^ n) by (apply pow2_lt_pow2; lia).
    destruct (Nat.testbit k (Z.to_nat c)) eqn:Ek.
    + eexists. split; [reflexivity|]. split; [by rewrite !length_insert|].
      intros m Hm. cbv zeta.
      assert (Hk' : Nat.lxor k p < 2 ^ n) by (apply lxor_lt_pow2; [lia|done]).
      rewrite nth_insert by (rewrite length_insert; lia).
      rewrite nth_insert by lia.
      destruct (Nat.eqb_spec m (Nat.lxor k p)) as [->|Hne1].
      * rewrite lxor_lxor, Ek.
        rewrite (proj2 (Nat.ltb_lt k (S k))) by lia. simpl.
        by rewrite orb_true_r.
      * destruct (Nat.eqb_spec m k) as [->|Hne2].
        { rewrite Ek, (proj2 (Nat.ltb_lt k (S k))) by lia. done. }
        rewrite Hnew by done. cbv zeta.
        assert (Hne3 : Nat.lxor m p ≠ k).
        { intros E. apply Hne1. rewrite <- E. by rewrite lxor_lxor. }
        replace (m <? S k) with (m <? k)
          by (destruct (Nat.ltb_spec m k), (Nat.ltb_spec m (S k)); done || lia).
        replace (Nat.lxor m p <? S k) with (Nat.lxor m p <? k)
          by (destruct (Nat.ltb_spec (Nat.lxor m p) k),
                       (Nat.ltb_spec (Nat.lxor m p) (S k)); done || lia).
        done.
    + exists new. split; [done|]. split; [done|].
      intros m Hm. rewrite Hnew by done. cbv zeta.
      destruct (Nat.eqb_spec m k) as [->|Hne2].
      { rewrite Ek, !andb_false_r. simpl.
        replace (Nat.lxor k p <? S k) with (Nat.lxor k p <? k); [done|].
        pose proof (lxor_pow2_ne k (Z.to_nat t)). fold p in H.
        destruct (Nat.ltb_spec (Nat.lxor k p) k),
                 (Nat.ltb_spec (Nat.lxor k p) (S k)); done || lia. }
      replace (m <? S k) with (m <? k)
        by (destruct (Nat.ltb_spec m k), (Nat.ltb_spec m (S k)); done || lia).
      destruct (Nat.eqb_spec (Nat.lxor m p) k) as [E|Hne3].
      { rewrite E, Ek, !andb_false_r. done. }
      replace (Nat.lxor m p <? S k) with (Nat.lxor m p <? k)
        by (destruct (Nat.ltb_spec (Nat.lxor m p) k),
                     (Nat.ltb_spec (Nat.lxor m p) (S k)); done || lia).
      done.
Qed.

Lemma apply_cnot_eq n state c t :
  length state = 2 ^ n ->
  (0 <= c)%Z -> (0 <= t < Z.of_nat n)%Z ->
  _apply_cnot state c t
  = Ok (map (fun m => nth (cnot_src (Z.to_nat c) (Z.to_nat t) m) state C0) (seq 0 (2 ^ n))).
Proof.
  intros Hs Hc Ht. unfold _apply_cnot. rewrite Hs.
  destruct (cnot_loop n state c t (2 ^ n)) as (new & -> & Hn & Hnew); try done.
  f_equal. apply (nth_ext _ _ C0 C0); [by rewrite length_map, length_seq|].
  intros m Hm. rewrite Hn in Hm. rewrite Hnew, nth_map_seq by done.
  cbv zeta. unfold cnot_src. cbv zeta.
  rewrite (proj2 (Nat.ltb_lt m (2 ^ n))) by done.
  rewrite (proj2 (Nat.ltb_lt (Nat.lxor m _) (2 ^ n)))
    by (apply lxor_lt_pow2; [done|apply pow2_lt_pow2; lia]).
  rewrite !andb_true_l. by destruct (_ || _).
Qed.

Lemma involution_gather_Permutation {A} (f : nat -> nat) N (v : list A) d :
  (forall o, o < N -> f o < N) -> (forall o, f (f o) = o) -> length v = N ->
  map (fun o => nth (f o) v d) (seq 0 N) ≡ₚ v.
Proof.
  intros Hb Hinv Hv. apply gather_by_Permutation; [done| |done].
  intros o o' _ _ E. by rewrite <- (Hinv o), <- (Hinv o'), E.
Qed.

Lemma apply_cnot_norm n state c t :
  length state = 2 ^ n -> (0 <= c)%Z -> (0 <= t < Z.of_nat n)%Z ->
  exists state', _apply_cnot state c t = Ok state'
    /\ length state' = 2 ^ n /\ norm_sq state' = norm_sq state.
Proof.
  intros Hs Hc Ht. rewrite (apply_cnot_eq n) by done.
  eexists. split; [reflexivity|]. split; [by rewrite length_map, length_seq|].
  apply norm_sq_Permutation, involution_gather_Permutation; [|
    apply cnot_src_involutive|done].
  intros o Ho. apply cnot_src_lt; [lia|done].
Qed.

Lemma apply_swap_norm n state a b :
  length state = 2 ^ n -> (0 <= a < Z.of_nat n)%Z -> (0 <= b < Z.of_nat n)%Z ->
  exists state', _apply_swap state a b = Ok state'
    /\ length state' = 2 ^ n /\ norm_sq state' = norm_sq state.
Proof.
  intros Hs Ha Hb. rewrite (apply_swap_eq n) by done.
  eexists. split; [reflexivity|]. split; [by rewrite length_map, length_seq|].
  apply norm_sq_Permutation, involution_gather_Permutation; [|
    apply swap_src_involutive|done].
  intros o Ho. apply swap_src_lt; lia.
Qed.

(** ** Targets that name no qubit *)

Lemma apply_single_qubit_unitary_out_of_range n state U target :
  ~ (0 <= target < Z.of_nat n)%Z ->
  exists e, _apply_single_qubit_unitary n state U target = Raise e.
Proof.
  intros Ht. unfold _apply_single_qubit_unitary, reshape_2n.
  destruct (length state =? 2 ^ n); [|by eexists].
  cbn [mbind result_bind]. unfold np_transpose, check_axes.
  assert (Hf : filter (fun i => i ≠ target) (map Z.of_nat (seq 0 n)) = map Z.of_nat (seq 0 n)).
  { apply filter_all. apply Forall_forall. intros x Hx.
    apply list_elem_of_fmap in Hx as (k & -> & Hk). apply elem_of_seq in Hk. lia. }
  rewrite Hf. cbn [length]. rewrite (length_map Z.of_nat (seq 0 n)), length_seq.
  rewrite (proj2 (Nat.eqb_neq (S n) n)) by lia. by eexists.
Qed.

Lemma pow2_le_of_bit x t n : Nat.testbit x t = true -> n <= t -> 2 ^ n <= x.
Proof.
  intros Hb Hn. destruct (Nat.lt_ge_cases x (2 ^ n)) as [Hx|Hx]; [|done].
  rewrite (lt_pow2_bits x n t) in Hb; done.
Qed.

Lemma cnot_loop_bad_target n state c t k new :
  length state = 2 ^ n -> ~ (0 <= t < Z.of_nat n)%Z -> k <= 2 ^ n ->
  foldM (cnot_body state c t) (seq 0 k) state = Ok new -> new = state.
Proof.
  intros Hs Ht. revert new. induction k as [|k IH]; intros new Hk Hf.
  - simpl in Hf. by injection Hf.
  - rewrite seq_S, foldM_snoc in Hf. simpl in Hf.
    destruct (foldM (cnot_body state c t) (seq 0 k) state) as [new'|e] eqn:E; [|done].
    rewrite (IH new') in Hf by (done || lia).
    unfold cnot_body in Hf. destruct (py_rshift k c) as [s|e]; [|done].
    cbn [mbind result_bind] in Hf.
    destruct (Nat.land s 1 =? 1); [|by injection Hf].
    unfold py_lshift in Hf.
    destruct (Z.ltb_spec t 0) as [Hneg|Hpos]; cbn [mbind result_bind] in Hf; [done|].
    rewrite Nat.shiftl_1_l in Hf.
    rewrite (np_index_past_end state (Nat.lxor k (2 ^ Z.to_nat t))) in Hf;
      [by destruct (2 ^ 63 <=? _)%Z|].
    rewrite Hs. apply (pow2_le_of_bit _ (Z.to_nat t)); [|lia].
    rewrite Nat.lxor_spec, Nat.pow2_bits_eqb, Nat.eqb_refl.
    rewrite (lt_pow2_bits k n) by lia. done.
Qed.

Lemma swap_loop_bad_target n state a b k new :
  length state = 2 ^ n ->
  ~ ((0 <= a < Z.of_nat n)%Z /\ (0 <= b < Z.of_nat n)%Z) -> k <= 2 ^ n ->
  foldM (swap_body state a b) (seq 0 k) state = Ok new -> new = state.
Proof.
  intros Hs Hab. revert new. induction k as [|k IH]; intros new Hk Hf.
  - simpl in Hf. by injection Hf.
  - rewrite seq_S, foldM_snoc in Hf. simpl in Hf.
    destruct (foldM (swap_body state a b) (seq 0 k) state) as [new'|e] eqn:E; [|done].
    rewrite (IH new') in Hf by (done || lia).
    unfold swap_body in Hf.
    unfold py_rshift in Hf.
    destruct (Z.ltb_spec a 0) as [Ha|Ha]; cbn [mbind result_bind] in Hf; [done|].
    destruct (Z.ltb_spec b 0) as [Hb|Hb]; cbn [mbind result_bind] in Hf; [done|].
    rewrite !land_shiftr_1 in Hf.
    destruct (negb (Nat.b2n (Nat.testbit k (Z.to_nat a))
                    =? Nat.b2n (Nat.testbit k (Z.to_nat b)))) eqn:Ebits.
    + rewrite !py_lshift_1_ok in Hf by done. cbn [mbind result_bind] in Hf.
      rewrite (np_index_past_end state (Nat.lxor k _)) in Hf;
        [by destruct (2 ^ 63 <=? _)%Z|].
      rewrite Hs.
      destruct (Z.lt_ge_cases a (Z.of_nat n)) as [Han|Han].
      * assert (Hbn : (Z.of_nat n <= b)%Z) by lia.
        apply (pow2_le_of_bit _ (Z.to_nat b)); [|lia].
        rewrite Nat.lxor_spec, Nat.lor_spec, !Nat.pow2_bits_eqb, Nat.eqb_refl.
        rewrite (lt_pow2_bits k n) by lia. by rewrite orb_true_r.
      * apply (pow2_le_of_bit _ (Z.to_nat a)); [|lia].
        rewrite Nat.lxor_spec, Nat.lor_spec, !Nat.pow2_bits_eqb, Nat.eqb_refl.
        rewrite (lt_pow2_bits k n) by lia. done.
    + rewrite (np_index_nth state k C0) in Hf by lia. cbn [mbind result_bind] in Hf.
      injection Hf as <-. apply list_insert_id. rewrite (nth_lookup state k C0).
      destruct (lookup_lt_is_Some_2 state k) as [x Hx]; [lia|]. by rewrite Hx.
Qed.

(** ** One gate *)

Lemma fmap_result_Ok {A B} (f : A -> B) (r : result A) (b : B) :
  f <$> r = Ok b -> exists a, r = Ok a /\ b = f a.
Proof. destruct r as [a|e]; [|done]. intros [= <-]. by exists a. Qed.

Lemma single_qubit_step_norm n (ts : list Z) state U st :
  norm_preserving U -> length state = 2 ^ n ->
  (t ← index ts 0; Some <$> _apply_single_qubit_unitary n state U t) = Ok st ->
  exists state', st = Some state' /\ length state' = 2 ^ n
                 /\ norm_sq state' = norm_sq state.
Proof.
  intros HU Hs Hst. destruct ts as [|t ts]; [done|].
  cbn [index lookup list_lookup mbind result_bind] in Hst.
  apply fmap_result_Ok in Hst as (state' & Happ & ->).
  exists state'. split; [done|].
  destruct (decide (0 <= t < Z.of_nat n)%Z) as [Ht|Ht].
  - destruct (apply_single_qubit_unitary_norm n state U t HU Hs Ht) as (s' & E & Hl & Hn).
    rewrite E in Happ. injection Happ as <-. done.
  - destruct (apply_single_qubit_unitary_out_of_range n state U t Ht) as (e & E).
    by rewrite E in Happ.
Qed.

Lemma cnot_step_norm n (ts : list Z) state st :
  length state = 2 ^ n ->
  (control ← index ts 0; target ← index ts 1;
   Some <$> _apply_cnot state control target) = Ok st ->
  exists state', st = Some state' /\ length state' = 2 ^ n
                 /\ norm_sq state' = norm_sq state.
Proof.
  intros Hs Hst. destruct ts as [|c [|t ts]]; try done.
  cbn [index lookup list_lookup mbind result_bind] in Hst.
  apply fmap_result_Ok in Hst as (state' & Happ & ->).
  exists state'. split; [done|].
  destruct (decide (0 <= t < Z.of_nat n)%Z) as [Ht|Ht].
  - destruct (Z.lt_ge_cases c 0) as [Hc|Hc].
    + exfalso. unfold _apply_cnot in Happ. rewrite Hs in Happ.
      destruct (2 ^ n) as [|N] eqn:EN; [pose proof (Nat.pow_nonzero 2 n); lia|].
      cbn [seq foldM] in Happ. unfold cnot_body at 1, py_rshift in Happ.
      by rewrite (proj2 (Z.ltb_lt c 0)) in Happ.
    + destruct (apply_cnot_norm n state c t Hs Hc Ht) as (s' & E & Hl & Hn).
      rewrite E in Happ. injection Happ as <-. done.
  - unfold _apply_cnot in Happ.
    rewrite (cnot_loop_bad_target n state c t (length state) state') by (done || lia).
    done.
Qed.

Lemma swap_step_norm n (ts : list Z) state st :
  length state = 2 ^ n ->
  (a ← index ts 0; b ← index ts 1; Some <$> _apply_swap state a b) = Ok st ->
  exists state', st = Some state' /\ length state' = 2 ^ n
                 /\ norm_sq state' = norm_sq state.
Proof.
  intros Hs Hst. destruct ts as [|a [|b ts]]; try done.
  cbn [index lookup list_lookup mbind result_bind] in Hst.
  apply fmap_result_Ok in Hst as (state' & Happ & ->).
  exists state'. split; [done|].
  destruct (decide ((0 <= a < Z.of_nat n)%Z /\ (0 <= b < Z.of_nat n)%Z)) as [[Ha Hb]|Hab].
  - destruct (apply_swap_norm n state a b Hs Ha Hb) as (s' & E & Hl & Hn).
    rewrite E in Happ. injection Happ as <-. done.
  - unfold _apply_swap in Happ.
    rewrite (swap_loop_bad_target n state a b (length state) state') by (done || lia).
    done.
Qed.

Lemma gate_step_norm n g state st :
  has_name unitary_names g = true -> length state = 2 ^ n ->
  gate_step n g state = Ok st ->
  exists state', st = Some state' /\ length state' = 2 ^ n
                 /\ norm_sq state' = norm_sq state.
Proof.
  unfold has_name, unitary_names, gate_step. cbn [existsb]. cbv zeta.
  intros Hname Hs.
  destruct (String.eqb_spec (name g) "H");
    [by apply single_qubit_step_norm; [apply H_norm_preserving|]|].
  destruct (String.eqb_spec (name g) "X");
    [by apply single_qubit_step_norm; [apply X_norm_preserving|]|].
  destruct (String.eqb_spec (name g) "RX");
    [by apply single_qubit_step_norm; [apply RX_norm_preserving|]|].
  destruct (String.eqb_spec (name g) "RY");
    [by apply single_qubit_step_norm; [apply RY_norm_preserving|]|].
  destruct (String.eqb_spec (name g) "RZ");
    [by apply single_qubit_step_norm; [apply RZ_norm_preserving|]|].
  destruct (String.eqb_spec (name g) "CNOT"); [by apply cnot_step_norm|].
  destruct (String.eqb_spec (name g) "SWAP"); [by apply swap_step_norm|].
  destruct (String.eqb_spec (name g) "M") as [E|_].
  { rewrite E in Hname. discriminate Hname. }
  destruct (String.eqb_spec (name g) "Measure") as [E|_].
  { rewrite E in Hname. discriminate Hname. }
  cbn [orb]. intros [= <-]. by exists state.
Qed.

Lemma gate_step_total n g state :
  has_name unitary_names g = true -> targets_ok n g = true ->
  length state = 2 ^ n ->
  exists state', gate_step n g state = Ok (Some state').
Proof.
  unfold has_name, unitary_names, targets_ok, has_name, gate_step, in_range.
  cbn [existsb]. cbv zeta. intros Hname Hok Hs.
  assert (Hsingle : forall U, norm_preserving U ->
            match targets g with t :: _ => (0 <=? t)%Z && (t <? Z.of_nat n)%Z | [] => false end = true ->
            exists state', (t ← index (targets g) 0;
                            Some <$> _apply_single_qubit_unitary n state U t) = Ok (Some state')).
  { intros U HU Ht. destruct (targets g) as [|t ts]; [done|].
    cbn [index lookup list_lookup mbind result_bind].
    apply andb_true_iff in Ht as [H0 H1]. apply Z.leb_le in H0. apply Z.ltb_lt in H1.
    destruct (apply_single_qubit_unitary_norm n state U t HU Hs) as (s' & -> & _); [lia|].
    by eexists. }
  destruct (String.eqb_spec (name g) "H"); [by apply Hsingle; [apply H_norm_preserving|]|].
  destruct (String.eqb_spec (name g) "X"); [by apply Hsingle; [apply X_norm_preserving|]|].
  destruct (String.eqb_spec (name g) "RX"); [by apply Hsingle; [apply RX_norm_preserving|]|].
  destruct (String.eqb_spec (name g) "RY"); [by apply Hsingle; [apply RY_norm_preserving|]|].
  destruct (String.eqb_spec (name g) "RZ"); [by apply Hsingle; [apply RZ_norm_preserving|]|].
  cbn [orb] in Hok.
  destruct (String.eqb_spec (name g) "CNOT").
  { cbn [orb] in Hok. destruct (targets g) as [|c [|t ts]]; try done.
    cbn [index lookup list_lookup mbind result_bind].
    apply andb_true_iff in Hok as [Hc Ht].
    apply andb_true_iff in Hc as [Hc0 Hc1]. apply andb_true_iff in Ht as [Ht0 Ht1].
    apply Z.leb_le in Hc0, Ht0. apply Z.ltb_lt in Hc1, Ht1.
    destruct (apply_cnot_norm n state c t Hs) as (s' & -> & _); [lia..|]. by eexists. }
  destruct (String.eqb_spec (name g) "SWAP").
  { cbn [orb] in Hok. destruct (targets g) as [|a [|b ts]]; try done.
    cbn [index lookup list_lookup mbind result_bind].
    apply andb_true_iff in Hok as [Ha Hb].
    apply andb_true_iff in Ha as [Ha0 Ha1]. apply andb_true_iff in Hb as [Hb0 Hb1].
    apply Z.leb_le in Ha0, Hb0. apply Z.ltb_lt in Ha1, Hb1.
    destruct (apply_swap_norm n state a b Hs) as (s' & -> & _); [lia..|]. by eexists. }
  destruct (String.eqb_spec (name g) "M") as [E|_].
  { rewrite E in Hname. discriminate Hname. }
  destruct (String.eqb_spec (name g) "Measure") as [E|_].
  { rewrite E in Hname. discriminate Hname. }
  cbn [orb]. by eexists.
Qed.

(** ** The whole run *)

Lemma ground_state_length n : length (<[0 := C1]> (replicate (2 ^ n) C0)) = 2 ^ n.
Proof. by rewrite length_insert, length_replicate. Qed.

Lemma norm_sq_zeros k : norm_sq (replicate k C0) = 0%R.
Proof.
  unfold norm_sq. induction k as [|k IH]; simpl; [done|].
  rewrite IH. unfold Cnorm2, C0, RtoC. simpl. ring.
Qed.

Lemma ground_state_norm n : norm_sq (<[0 := C1]> (replicate (2 ^ n) C0)) = 1%R.
Proof.
  destruct (2 ^ n) as [|k] eqn:E; [pose proof (Nat.pow_nonzero 2 n); lia|].
  simpl. change (norm_sq (C1 :: replicate k C0) = 1%R).
  change (C1 :: replicate k C0) with ([C1] ++ replicate k C0).
  rewrite norm_sq_app, norm_sq_zeros. unfold norm_sq, Cnorm2, C1, RtoC. simpl. ring.
Qed.

Lemma init_ok G circuit hook seed w0 self :
  fst (__init__ G circuit hook seed w0) = Ok self ->
  sim_circuit G self = circuit
  /\ sim_noise_hook G self = hook
  /\ sim_state G self = <[0 := C1]> (replicate (2 ^ sim_num_qubits G self) C0).
Proof.
  unfold __init__. destruct (num_qubits circuit <? 0)%Z; [done|].
  destruct seed as [s|]; [destruct (np_random_seed G s)|]; simpl; try done;
    intros [= <-]; done.
Qed.

Section Unitary.
Context (G : NumpyRandom).

Lemma run_gates_unitary n shots gs state w out w' :
  forallb (has_name unitary_names) gs = true ->
  length state = 2 ^ n ->
  run_gates G n None shots gs state w = (Ok out, w') ->
  exists amplitudes, out = Statevector amplitudes
    /\ norm_sq amplitudes = norm_sq state /\ w' = w.
Proof.
  revert state. induction gs as [|g gs IH]; intros state Hnames Hs Hrun.
  - simpl in Hrun. injection Hrun as <- <-. by exists state.
  - cbn [forallb] in Hnames. apply andb_true_iff in Hnames as [Hg Hgs].
    cbn [run_gates] in Hrun.
    destruct (gate_step n g state) as [st|e] eqn:E; [|done].
    destruct (gate_step_norm n g state st Hg Hs E) as (state' & -> & Hl & Hn).
    cbn [apply_noise] in Hrun.
    destruct (IH state' Hgs Hl Hrun) as (amps & -> & Hnorm & ->).
    exists amps. rewrite Hnorm, Hn. done.
Qed.

Lemma run_gates_unitary_total n shots gs state w :
  forallb (has_name unitary_names) gs = true ->
  forallb (targets_ok n) gs = true ->
  length state = 2 ^ n ->
  exists amplitudes, run_gates G n None shots gs state w = (Ok (Statevector amplitudes), w).
Proof.
  revert state. induction gs as [|g gs IH]; intros state Hnames Hok Hs.
  - by exists state.
  - cbn [forallb] in Hnames, Hok.
    apply andb_true_iff in Hnames as [Hg Hgs]. apply andb_true_iff in Hok as [Hgo Hgso].
    cbn [run_gates].
    destruct (gate_step_total n g state Hg Hgo Hs) as (state' & E). rewrite E.
    destruct (gate_step_norm n g state _ Hg Hs E) as (s & [= <-] & Hl & _).
    cbn [apply_noise]. by apply IH.
Qed.

End Unitary.

(** C2 as stated fails: a gate with a name that [run] has no branch for is
    not rejected; the run goes on and returns the amplitude vector. *)
Lemma unknown_gate_not_rejected :
  simulate sample_generator (mkQuantumCircuit 1 [mkGate "FOO" [0%Z] []])
           None None 1024 0
  = (Ok (Statevector [C1; C0]), 0).
Proof. reflexivity. Qed.

(** C2, amended.  A gate whose name is none of H, X, RX, RY, RZ, CNOT,
    SWAP, M, Measure raises nothing: it leaves the state as it is, the noise
    hook (when there is one) is still called for it, and the run goes on
    with the gates that follow. *)
Theorem unknown_gate_is_skipped (G : NumpyRandom) (n : nat)
    (noise_hook : option (noise_hook_t G)) (shots : Z) (g : Gate)
    (rest : list Gate) (state : list C) (w : rng_state G) :
  has_name recognized_names g = false ->
  gate_step n g state = Ok (Some state)
  /\ run_gates G n noise_hook shots (g :: rest) state w
     = match apply_noise G noise_hook state g w with
       | (Ok state', w') => run_gates G n noise_hook shots rest state' w'
       | (Raise e, w') => (Raise e, w')
       end
  /\ run_gates G n None shots (g :: rest) state w
     = run_gates G n None shots rest state w.
Proof.
  intros Hname. pose proof (gate_step_unknown n g state Hname) as E.
  split; [done|]. cbn [run_gates]. rewrite E. done.
Qed.

Lemma unknown_gate_is_skipped_witness :
  gate_step 1 (mkGate "FOO" [0%Z] []) [C1; C0] = Ok (Some [C1; C0])
  /\ run_gates sample_generator 1 None 1024
       [mkGate "FOO" [0%Z] []; gate_Measure 0] [C1; C0] 0
     = match apply_noise sample_generator None [C1; C0] (mkGate "FOO" [0%Z] []) 0 with
       | (Ok state', w') =>
           run_gates sample_generator 1 None 1024 [gate_Measure 0] state' w'
       | (Raise e, w') => (Raise e, w')
       end
  /\ run_gates sample_generator 1 None 1024
       [mkGate "FOO" [0%Z] []; gate_Measure 0] [C1; C0] 0
     = run_gates sample_generator 1 None 1024 [gate_Measure 0] [C1; C0] 0.
Proof.
  apply (unknown_gate_is_skipped sample_generator 1 None 1024
           (mkGate "FOO" [0%Z] []) [gate_Measure 0] [C1; C0] 0).
  reflexivity.
Defined.

(** ** Labels and counts *)

Lemma parse_bin_app acc s1 s2 :
  parse_bin acc (s1 +:+ s2) = parse_bin (parse_bin acc s1) s2.
Proof. revert acc. induction s1 as [|c s1 IH]; intros acc; simpl; [done|apply IH]. Qed.

Lemma parse_pos_bin p : parse_bin 0 (pos_bin p) = Pos.to_nat p.
Proof.
  induction p as [p IH|p IH|]; cbn [pos_bin].
  - rewrite parse_bin_app, IH. simpl. lia.
  - rewrite parse_bin_app, IH. simpl. lia.
  - reflexivity.
Qed.

Lemma parse_bin_bin r : parse_bin 0 (bin r) = r.
Proof.
  unfold bin. destruct (N.of_nat r) as [|p] eqn:E.
  - simpl. lia.
  - rewrite parse_pos_bin. lia.
Qed.

Lemma parse_bin_zeros k s : parse_bin 0 (zeros k +:+ s) = parse_bin 0 s.
Proof.
  induction k as [|k IH]; [done|].
  cbn [zeros]. rewrite !parse_bin_app in *. exact IH.
Qed.

Lemma parse_format_0b width r : parse_bin 0 (format_0b width r) = r.
Proof. unfold format_0b. by rewrite parse_bin_zeros, parse_bin_bin. Qed.

Lemma format_0b_inj width r r' : format_0b width r = format_0b width r' -> r = r'.
Proof.
  intros E. by rewrite <- (parse_format_0b width r), <- (parse_format_0b width r'), E.
Qed.






Lemma tally_foldl_lookup width rs (m : gmap string nat) i :
  foldl (fun counts r =>
           let b := format_0b width r in
           <[b := default 0 (counts !! b) + 1]> counts) m rs
    !! format_0b width i
  = match count_occ Nat.eq_dec rs i with
    | 0 => m !! format_0b width i
    | S c => Some (default 0 (m !! format_0b width i) + S c)
    end.
Proof.
  revert m. induction rs as [|r rs IH]; intros m; [done|].
  cbn [foldl count_occ]. rewrite IH. cbv zeta.
  destruct (Nat.eq_dec r i) as [->|Hne].
  - rewrite lookup_insert_eq.
    destruct (count_occ Nat.eq_dec rs i); simpl; f_equal; lia.
  - rewrite lookup_insert_ne; [done|].
    intros E. by apply format_0b_inj in E.
Qed.

(** The count under the label of [i] is the number of samples equal to [i];
    an index never sampled has no entry. *)
Lemma tally_lookup width rs i :
  tally width rs !! format_0b width i
  = match count_occ Nat.eq_dec rs i with
    | 0 => None
    | S c => Some (S c)
    end.
Proof.
  unfold tally. rewrite tally_foldl_lookup, lookup_empty. done.
Qed.

Lemma Cabs_sq z : (Cabs z ^ 2 = Cnorm2 z)%R.
Proof.
  unfold Cabs, Cnorm2. simpl. rewrite Rmult_1_r. apply sqrt_sqrt.
  pose proof (Rle_0_sqr (fst z)). pose proof (Rle_0_sqr (snd z)).
  unfold Rsqr in *. lra.
Qed.

(** C5 fails on the code: on two qubits, X on qubit 0 and then CNOT with
    control 0 and target 1 leave the amplitude 1 at index 2, not at index 3.
    The single-qubit gates address qubit [t] as axis [t] of the reshaped
    array, that is bit [n-1-t] of the index, while CNOT reads bit [t]. *)
Theorem x0_cnot01_amplitudes (G : NumpyRandom) (shots : Z) (w : rng_state G) :
  simulate G (mkQuantumCircuit 2 [gate_X 0; gate_CNOT 0 1]) None None shots w
  = (Ok (Statevector [C0; C0; C1; C0]), w).
Proof.
  change (run_gates G 2 None shots [gate_X 0; gate_CNOT 0 1] [C1; C0; C0; C0] w
          = (Ok (Statevector [C0; C0; C1; C0]), w)).
  assert (E1 : gate_step 2 (gate_X 0) [C1; C0; C0; C0] = Ok (Some [C0; C0; C1; C0])).
  { rcompute. amplitudes. }
  assert (E2 : gate_step 2 (gate_CNOT 0 1) [C0; C0; C1; C0] = Ok (Some [C0; C0; C1; C0])).
  { reflexivity. }
  cbn [run_gates apply_noise]. rewrite E1, E2. reflexivity.
Qed.

(** C6.  On an amplitude vector of [2^n] entries and qubits [a], [b] below
    [n], [_apply_swap] succeeds, and applied to its own result it gives the
    original vector back. *)
Theorem swap_involution (n : nat) (state : list C) (a b : Z) :
  length state = 2 ^ n ->
  (0 <= a < Z.of_nat n)%Z -> (0 <= b < Z.of_nat n)%Z ->
  exists swapped,
    _apply_swap state a b = Ok swapped /\ _apply_swap swapped a b = Ok state.
Proof.
  intros Hs Ha Hb. rewrite (apply_swap_eq n) by done.
  eexists. split; [reflexivity|].
  rewrite (apply_swap_eq n) by (by rewrite ?length_map, ?length_seq).
  f_equal. apply (nth_ext _ _ C0 C0); [by rewrite length_map, length_seq|].
  intros m Hm. rewrite length_map, length_seq in Hm.
  rewrite nth_map_seq by done.
  rewrite nth_map_seq by (apply swap_src_lt; lia).
  by rewrite swap_src_involutive.
Qed.

Lemma swap_involution_witness :
  exists swapped,
    _apply_swap [C0; C1; C0; C0] 0 1 = Ok swapped
    /\ _apply_swap swapped 0 1 = Ok [C0; C1; C0; C0].
Proof.
  apply (swap_involution 2 [C0; C1; C0; C0] 0 1); [reflexivity|lia|lia].
Defined.

(** C7 as stated fails: a hook that writes into the array it is given and
    then raises leaves the run with the array as written, not with the
    state before the hook was called. *)
Lemma hook_raise_can_change_state :
  gate_step 2 (gate_SWAP 0 1) [C1; C0; C0; C0] = Ok (Some [C1; C0; C0; C0])
  /\ fst (clobbering_hook sample_generator [C1; C0; C0; C0] (gate_SWAP 0 1) 0)
       = HookRaise [C0; C0; C0; C0] ValueError
  /\ simulate sample_generator (mkQuantumCircuit 2 [gate_SWAP 0 1])
       (Some (clobbering_hook sample_generator)) None 1024 0
     = (Ok (Statevector [C0; C0; C0; C0]), 0)
  /\ [C0; C0; C0; C0] ≠ [C1; C0; C0; C0].
Proof.
  split; [reflexivity|]. split; [reflexivity|]. split; [reflexivity|].
  intros E. injection E as E. lra.
Qed.

(** An exception that does not derive from [Exception] is not caught. *)
Lemma hook_interrupt_aborts_run :
  simulate sample_generator (mkQuantumCircuit 2 [gate_SWAP 0 1; gate_Measure 0])
    (Some (failing_hook sample_generator KeyboardInterrupt)) None 1024 0
  = (Raise KeyboardInterrupt, 0).
Proof. reflexivity. Qed.

(** C7, amended.  When the hook, called after a gate, raises an exception
    that derives from [Exception], the exception is swallowed and the run
    goes on with the gates that follow, from the array that was passed to
    the hook, as the hook left it.  When the hook has not written into that
    array, this is exactly the state the gate produced. *)
Theorem hook_exception_is_swallowed (G : NumpyRandom) (n : nat)
    (hook : noise_hook_t G) (shots : Z) (g : Gate) (rest : list Gate)
    (state state' arg_after : list C) (e : exn) (w w' : rng_state G) :
  gate_step n g state = Ok (Some state') ->
  hook state' g w = (HookRaise arg_after e, w') ->
  is_Exception e = true ->
  apply_noise G (Some hook) state' g w = (Ok arg_after, w')
  /\ run_gates G n (Some hook) shots (g :: rest) state w
     = run_gates G n (Some hook) shots rest arg_after w'
  /\ (arg_after = state' ->
      apply_noise G (Some hook) state' g w = (Ok state', w')
      /\ run_gates G n (Some hook) shots (g :: rest) state w
         = run_gates G n (Some hook) shots rest state' w').
Proof.
  intros Hstep Hhook He.
  assert (Hnoise : apply_noise G (Some hook) state' g w = (Ok arg_after, w')).
  { unfold apply_noise. by rewrite Hhook, He. }
  assert (Hrun : run_gates G n (Some hook) shots (g :: rest) state w
                 = run_gates G n (Some hook) shots rest arg_after w').
  { cbn [run_gates]. by rewrite Hstep, Hnoise. }
  split; [done|]. split; [done|]. intros E. by rewrite E in Hnoise, Hrun.
Qed.

Lemma hook_exception_is_swallowed_witness :
  let hook := clobbering_hook sample_generator in
  apply_noise sample_generator (Some hook) [C1; C0; C0; C0] (gate_SWAP 0 1) 0
  = (Ok [C0; C0; C0; C0], 0)
  /\ run_gates sample_generator 2 (Some hook) 1024 [gate_SWAP 0 1; gate_CNOT 0 1]
       [C1; C0; C0; C0] 0
     = run_gates sample_generator 2 (Some hook) 1024 [gate_CNOT 0 1] [C0; C0; C0; C0] 0
  /\ ([C0; C0; C0; C0] = [C1; C0; C0; C0] ->
      apply_noise sample_generator (Some hook) [C1; C0; C0; C0] (gate_SWAP 0 1) 0
      = (Ok [C1; C0; C0; C0], 0)
      /\ run_gates sample_generator 2 (Some hook) 1024 [gate_SWAP 0 1; gate_CNOT 0 1]
           [C1; C0; C0; C0] 0
         = run_gates sample_generator 2 (Some hook) 1024 [gate_CNOT 0 1]
             [C1; C0; C0; C0] 0).
Proof.
  intros hook.
  apply (hook_exception_is_swallowed sample_generator 2 hook 1024 (gate_SWAP 0 1)
           [gate_CNOT 0 1] [C1; C0; C0; C0] [C1; C0; C0; C0] [C0; C0; C0; C0]
           ValueError 0 0);
    reflexivity.
Defined.

(** C10.  An RX, RY or RZ gate with an empty parameter list is applied with
    the angle 0.0: on a state of [2^n] amplitudes and a target below [n] it
    returns the state unchanged. *)
Theorem rotation_without_params_is_identity (n : nat) (g : Gate)
    (state : list C) (t : Z) :
  has_name ["RX"; "RY"; "RZ"]%string g = true ->
  params g = [] ->
  targets g !! 0 = Some t ->
  (0 <= t < Z.of_nat n)%Z ->
  length state = 2 ^ n ->
  rotation_angle g = 0%R /\ gate_step n g state = Ok (Some state).
Proof.
  intros Hname Hp Ht Hr Hs. unfold rotation_angle. rewrite Hp. split; [done|].
  unfold gate_step, rotation_angle, index. rewrite Hp, Ht.
  cbn [mbind result_bind]. cbv zeta.
  unfold has_name in Hname. cbn [existsb] in Hname.
  destruct (String.eqb_spec (name g) "RX") as [->|?].
  { cbn [String.eqb Ascii.eqb Bool.eqb].
    by rewrite (apply_single_qubit_unitary_identity _ _ _ _ RX_zero_identity Hs Hr). }
  destruct (String.eqb_spec (name g) "RY") as [->|?].
  { cbn [String.eqb Ascii.eqb Bool.eqb].
    by rewrite (apply_single_qubit_unitary_identity _ _ _ _ RY_zero_identity Hs Hr). }
  destruct (String.eqb_spec (name g) "RZ") as [->|?]; [|done].
  cbn [String.eqb Ascii.eqb Bool.eqb].
  by rewrite (apply_single_qubit_unitary_identity _ _ _ _ RZ_zero_identity Hs Hr).
Qed.

Lemma rotation_without_params_is_identity_witness :
  rotation_angle (mkGate "RY" [1%Z] []) = 0%R
  /\ gate_step 2 (mkGate "RY" [1%Z] []) [C0; C1; C0; C0] = Ok (Some [C0; C1; C0; C0]).
Proof.
  apply (rotation_without_params_is_identity 2 (mkGate "RY" [1%Z] [])
           [C0; C1; C0; C0] 1); [reflexivity|reflexivity|reflexivity|lia|reflexivity].
Defined.

(** ** Sampling *)

Lemma H_on_ground :
  gate_step 1 (gate_H 0) [C1; C0]
  = Ok (Some [((1 / sqrt 2)%R, 0%R); ((1 / sqrt 2)%R, 0%R)]).
Proof. rcompute. amplitudes. Qed.

Lemma probs_after_H :
  map (fun z => (Cabs z ^ 2)%R) [((1 / sqrt 2)%R, 0%R); ((1 / sqrt 2)%R, 0%R)]
  = [(1 / 2)%R; (1 / 2)%R].
Proof.
  cbn [map]. rewrite !Cabs_sq. unfold Cnorm2. cbn [fst snd].
  rewrite inv_sqrt2_sq. repeat f_equal; lra.
Qed.

Lemma searchsorted_half_low u :
  (u < 1 / 2)%R -> searchsorted_right [(1 / 2)%R; 1%R] u = 0.
Proof.
  intros Hu. unfold searchsorted_right.
  rewrite filter_cons_False by lra. rewrite filter_cons_False by lra. done.
Qed.

Lemma searchsorted_half_high u :
  (1 / 2 <= u < 1)%R -> searchsorted_right [(1 / 2)%R; 1%R] u = 1.
Proof.
  intros Hu. unfold searchsorted_right.
  rewrite filter_cons_True by lra. rewrite filter_cons_False by lra. done.
Qed.

Lemma choice_half (G : NumpyRandom) (w : rng_state G) (size : nat) :
  np_random_choice G w (Z.of_nat size) [(1 / 2)%R; (1 / 2)%R]
  = (Ok (map (searchsorted_right [(1 / 2)%R; 1%R]) (fst (random_sample G size w))),
     snd (random_sample G size w)).
Proof.
  unfold np_random_choice.
  rewrite bool_decide_eq_false_2.
  2:{ rewrite !Exists_cons, Exists_nil. lra. }
  rewrite bool_decide_eq_false_2.
  2:{ cbn [Rsum foldr]. replace (1 / 2 + (1 / 2 + 0) - 1)%R with 0%R by lra.
      rewrite Rabs_R0. apply Rle_not_lt. left. apply Rinv_0_lt_compat.
      apply pow_lt. lra. }
  rewrite (proj2 (Z.ltb_ge _ _)) by lia. rewrite Nat2Z.id.
  cbn [cumsum_from map List.last].
  replace ((0 + 1 / 2) / (0 + 1 / 2 + 1 / 2))%R with (1 / 2)%R by lra.
  replace ((0 + 1 / 2 + 1 / 2) / (0 + 1 / 2 + 1 / 2))%R with 1%R by lra.
  by destruct (random_sample G size w).
Qed.

Lemma sample_draws_first :
  random_sample sample_generator 4 0
  = ([0.5488135; 0.71518937; 0.60276338; 0.54488318]%R, 4).
Proof. reflexivity. Qed.

Lemma sample_draws_second :
  random_sample sample_generator 4 4
  = ([0.4236548; 0.64589411; 0.43758721; 0.891773]%R, 8).
Proof. reflexivity. Qed.

Lemma measure_after_H_first :
  measure sample_generator 1 4 [((1 / sqrt 2)%R, 0%R); ((1 / sqrt 2)%R, 0%R)] 0
  = (Ok (Counts {["1" := 4]}), 4).
Proof.
  unfold measure. rewrite probs_after_H. change 4%Z with (Z.of_nat 4).
  rewrite (choice_half sample_generator 0 4), sample_draws_first.
  cbn [fst snd map].
  rewrite !searchsorted_half_high by lra. reflexivity.
Qed.

Lemma measure_after_H_second :
  measure sample_generator 1 4 [((1 / sqrt 2)%R, 0%R); ((1 / sqrt 2)%R, 0%R)] 4
  = (Ok (Counts (<["0" := 2]> {["1" := 2]})), 8).
Proof.
  unfold measure. rewrite probs_after_H. change 4%Z with (Z.of_nat 4).
  rewrite (choice_half sample_generator 4 4), sample_draws_second.
  cbn [fst snd map].
  rewrite (searchsorted_half_low 0.4236548) by lra.
  rewrite (searchsorted_half_low 0.43758721) by lra.
  rewrite !searchsorted_half_high by lra.
  reflexivity.
Qed.

(** With the sample generator seeded with 0, H on qubit 0, a measurement and
    a trailing X return the counts of four samples, the X unapplied. *)
Lemma h_measure_x_counts :
  simulate sample_generator
    (mkQuantumCircuit 1 [gate_H 0; gate_Measure 0; gate_X 0]) None (Some 0%Z) 4 7
  = (Ok (Counts {["1" := 4]}), 4).
Proof.
  change (run_gates sample_generator 1 None 4
            [gate_H 0; gate_Measure 0; gate_X 0] [C1; C0] 0
          = (Ok (Counts {["1" := 4]}), 4)).
  cbn [run_gates]. rewrite H_on_ground. cbn [apply_noise run_gates].
  rewrite (gate_step_measure 1 (gate_Measure 0)) by reflexivity.
  apply measure_after_H_first.
Qed.

(** C9 as stated fails: with both simulators built (each seeding the one
    global generator with 0) before either is run, the second run draws
    where the first one stopped, and the two count maps differ. *)
Lemma same_seed_instances_differ :
  let qc := mkQuantumCircuit 1 [gate_H 0; gate_Measure 0] in
  let sim := mkStatevectorSimulator sample_generator qc 1 [C1; C0] None in
  let built_a := __init__ sample_generator qc None (Some 0%Z) 5 in
  let built_b := __init__ sample_generator qc None (Some 0%Z) (snd built_a) in
  let ran_a := run sample_generator sim 4 (snd built_b) in
  let ran_b := run sample_generator sim 4 (snd ran_a) in
  fst built_a = Ok sim
  /\ fst built_b = Ok sim
  /\ fst ran_a = Ok (Counts {["1" := 4]})
  /\ fst ran_b = Ok (Counts (<["0" := 2]> {["1" := 2]}))
  /\ fst ran_a ≠ fst ran_b.
Proof.
  intros qc sim built_a built_b ran_a ran_b.
  assert (Hrun : forall w, run sample_generator sim 4 w
            = measure sample_generator 1 4
                [((1 / sqrt 2)%R, 0%R); ((1 / sqrt 2)%R, 0%R)] w).
  { intros w. unfold run, sim, qc.
    cbn [sim_num_qubits sim_noise_hook sim_circuit sim_state gates run_gates].
    rewrite H_on_ground. cbn [apply_noise]. reflexivity. }
  assert (Ha : ran_a = (Ok (Counts {["1" := 4]}), 4)).
  { unfold ran_a. rewrite Hrun. apply measure_after_H_first. }
  assert (Hb : ran_b = (Ok (Counts (<["0" := 2]> {["1" := 2]})), 8)).
  { unfold ran_b. rewrite Ha, Hrun. apply measure_after_H_second. }
  split; [reflexivity|]. split; [reflexivity|].
  rewrite Ha, Hb. split; [reflexivity|]. split; [reflexivity|].
  cbn [fst]. intros E.
  apply (f_equal (fun r => match r with
                           | Ok (Counts m) => m !! "0"
                           | _ => None
                           end)) in E.
  vm_compute in E. discriminate E.
Qed.

(** C9, amended.  A run that follows at once the construction of its
    simulator with a seed depends on the circuit, the hook, the seed and the
    number of shots only, not on what the global generator held before: the
    result is the same each time. *)
Theorem seeded_run_reproducible (G : NumpyRandom) (circuit : QuantumCircuit)
    (noise_hook : option (noise_hook_t G)) (seed : Z) (shots : Z)
    (wa wb : rng_state G) :
  fst (simulate G circuit noise_hook (Some seed) shots wa)
  = fst (simulate G circuit noise_hook (Some seed) shots wb).
Proof.
  unfold simulate, __init__.
  destruct (num_qubits circuit <? 0)%Z; [done|].
  destruct (np_random_seed G seed) as [w'|e]; done.
Qed.

(** ** noise.py *)

(** C8 fails on the code: with p = 1 the loop swaps every pair of partners
    twice, once from each end, so [bit_flip] hands the state back unchanged,
    where an X gate on the target exchanges the two amplitudes. *)
Theorem bit_flip_p1_failing_input :
  bit_flip sample_generator [C1; C0] 1 0 0 = (Ok [C1; C0], 2)
  /\ _apply_single_qubit_unitary 1 [C1; C0] X_matrix 0 = Ok [C0; C1]
  /\ [C1; C0] ≠ [C0; C1].
Proof.
  split; [|split].
  - unfold bit_flip. cbn -[Rlt_dec].
    destruct (Rlt_dec 0.5488135 1) as [_|Hn]; [|exfalso; apply Hn; lra].
    destruct (Rlt_dec 0.71518937 1) as [_|Hn]; [|exfalso; apply Hn; lra].
    reflexivity.
  - rcompute. amplitudes.
  - intros E. injection E as E. lra.
Qed.

Lemma ltb_succ_ne m k : m ≠ k -> (m <? S k) = (m <? k).
Proof. intros. destruct (Nat.ltb_spec m k), (Nat.ltb_spec m (S k)); done || lia. Qed.

Lemma swapped_upto_step n t k state :
  length state = 2 ^ n -> t < n -> k < 2 ^ n ->
  let p := 2 ^ t in
  let new := swapped_upto p k (2 ^ n) state in
  <[Nat.lxor k p := nth k new C0]> (<[k := nth (Nat.lxor k p) new C0]> new)
  = swapped_upto p (S k) (2 ^ n) state.
Proof.
  intros Hs Ht Hk p new.
  assert (Hp : p < 2 ^ n) by (by apply pow2_lt_pow2).
  assert (Hk' : Nat.lxor k p < 2 ^ n) by (by apply lxor_lt_pow2).
  assert (Hne : Nat.lxor k p ≠ k) by apply lxor_pow2_ne.
  assert (Hlen : length new = 2 ^ n)
    by (unfold new, swapped_upto; by rewrite length_map, length_seq).
  assert (Hnew : forall m, m < 2 ^ n ->
            nth m new C0 = if xorb (m <? k) (Nat.lxor m p <? k)
                           then nth (Nat.lxor m p) state C0 else nth m state C0).
  { intros m Hm. unfold new, swapped_upto. by rewrite nth_map_seq. }
  apply (nth_ext _ _ C0 C0).
  { rewrite !length_insert. unfold swapped_upto. by rewrite Hlen, length_map, length_seq. }
  intros m Hm. rewrite !length_insert, Hlen in Hm.
  rewrite nth_insert by (rewrite length_insert; lia).
  rewrite nth_insert by lia.
  unfold swapped_upto. rewrite nth_map_seq by done.
  rewrite !Hnew by done. rewrite lxor_lxor, Nat.ltb_irrefl.
  destruct (Nat.eqb_spec m (Nat.lxor k p)) as [->|Hne1].
  - rewrite lxor_lxor, (proj2 (Nat.ltb_lt k (S k))) by lia.
    rewrite ltb_succ_ne by done.
    destruct (Nat.lxor k p <? k); done.
  - destruct (Nat.eqb_spec m k) as [->|Hne2].
    + rewrite (proj2 (Nat.ltb_lt k (S k))) by lia. rewrite ltb_succ_ne by done.
      destruct (Nat.lxor k p <? k); done.
    + assert (Hne3 : Nat.lxor m p ≠ k).
      { intros E. apply Hne1. rewrite <- E. by rewrite lxor_lxor. }
      by rewrite !ltb_succ_ne.
Qed.

Lemma swapped_upto_zero p N state : length state = N -> swapped_upto p 0 N state = state.
Proof.
  intros Hs. unfold swapped_upto. rewrite <- Hs. apply map_nth_seq.
Qed.

Lemma swapped_upto_all n t state :
  length state = 2 ^ n -> t < n -> swapped_upto (2 ^ t) (2 ^ n) (2 ^ n) state = state.
Proof.
  intros Hs Ht. apply (nth_ext _ _ C0 C0).
  { unfold swapped_upto. by rewrite length_map, length_seq. }
  intros m Hm. unfold swapped_upto in *. rewrite length_map, length_seq in Hm.
  rewrite nth_map_seq by done.
  rewrite (proj2 (Nat.ltb_lt m (2 ^ n))) by done.
  rewrite (proj2 (Nat.ltb_lt (Nat.lxor m _) (2 ^ n)))
    by (apply lxor_lt_pow2; [done|by apply pow2_lt_pow2]).
  done.
Qed.

Lemma sample_generator_in_unit : rand_in_unit sample_generator.
Proof.
  intros k. cbn [np_random_rand sample_generator fst].
  assert (Hk : k mod 8 < 8) by (apply Nat.mod_upper_bound; lia).
  destruct (k mod 8) as [|[|[|[|[|[|[|[|?]]]]]]]]; cbn [nth sample_draws]; lra || lia.
Qed.

(** With p = 1 every draw is below p, every pair of partners is swapped
    twice, and the state comes back as it was. *)
Lemma bit_flip_p1_identity (G : NumpyRandom) n state (target : Z) (w : rng_state G) :
  rand_in_unit G ->
  length state = 2 ^ n -> (0 <= target < Z.of_nat n)%Z ->
  fst (bit_flip G state 1 target w) = Ok state.
Proof.
  intros HG Hs Ht. unfold bit_flip. rewrite Hs.
  rewrite (proj2 (Nat.eqb_neq (2 ^ n) 0)) by (apply Nat.pow_nonzero; lia).
  set (p := 2 ^ Z.to_nat target).
  assert (Hloop : forall r k w1, k + r = 2 ^ n ->
            fst (bit_flip_loop G 1 target (seq k r) (swapped_upto p k (2 ^ n) state) w1)
            = Ok (swapped_upto p (2 ^ n) (2 ^ n) state)).
  { induction r as [|r IH]; intros k w1 Hk.
    - simpl. rewrite Nat.add_0_r in Hk. by rewrite Hk.
    - cbn [seq bit_flip_loop]. specialize (HG w1).
      destruct (np_random_rand G w1) as [u w2]. cbn [fst] in HG.
      destruct (Rlt_dec u 1) as [_|Hn]; [|exfalso; apply Hn; lra].
      rewrite py_lshift_1_ok by lia. cbn [mbind result_bind]. fold p.
      assert (Hlen : length (swapped_upto p k (2 ^ n) state) = 2 ^ n)
        by (unfold swapped_upto; by rewrite length_map, length_seq).
      rewrite (np_index_nth _ (Nat.lxor k p) C0).
      2:{ rewrite Hlen. apply lxor_lt_pow2; [lia|]. apply pow2_lt_pow2. lia. }
      cbn [mbind result_bind]. rewrite (np_index_nth _ k C0) by lia.
      cbn [mbind result_bind].
      pose proof (swapped_upto_step n (Z.to_nat target) k state Hs) as Hstep.
      cbv zeta in Hstep. fold p in Hstep. rewrite Hstep by lia.
      apply IH. lia. }
  specialize (Hloop (2 ^ n) 0 w eq_refl).
  rewrite swapped_upto_zero in Hloop by done.
  rewrite Hloop. unfold p. rewrite swapped_upto_all; [done|done|lia].
Qed.

(** * Further properties of the simulator, the noise channels and the command line *)

(** ** More on [_apply_cnot] and [_apply_swap] *)

(** X1.  With control and target two different qubits of the register,
    [_apply_cnot] returns the array whose entry at an index with the control
    bit set is the old entry at the index with the target bit flipped, and
    whose other entries are the old ones. *)
Theorem apply_cnot_spec (n : nat) (state : list C) (control target : Z) :
  length state = 2 ^ n ->
  (0 <= control < Z.of_nat n)%Z -> (0 <= target < Z.of_nat n)%Z ->
  control ≠ target ->
  exists new,
    _apply_cnot state control target = Ok new
    /\ length new = 2 ^ n
    /\ forall m, m < 2 ^ n ->
         nth m new C0
         = if Nat.testbit m (Z.to_nat control)
           then nth (Nat.lxor m (2 ^ Z.to_nat target)) state C0
           else nth m state C0.
Proof.
  intros Hs Hc Ht Hne. rewrite (apply_cnot_eq n) by (done || lia).
  eexists. split; [reflexivity|]. split; [by rewrite length_map, length_seq|].
  intros m Hm. rewrite nth_map_seq by done. unfold cnot_src. cbv zeta.
  rewrite Nat.lxor_spec, Nat.pow2_bits_eqb.
  rewrite (proj2 (Nat.eqb_neq (Z.to_nat target) (Z.to_nat control))) by lia.
  rewrite xorb_false_r, orb_diag. by destruct (Nat.testbit m _).
Qed.

Lemma apply_cnot_spec_witness :
  exists new,
    _apply_cnot [C0; C1; C0; C0] 0 1 = Ok new
    /\ length new = 2 ^ 2
    /\ forall m, m < 2 ^ 2 ->
         nth m new C0
         = if Nat.testbit m (Z.to_nat 0)
           then nth (Nat.lxor m (2 ^ Z.to_nat 1)) [C0; C1; C0; C0] C0
           else nth m [C0; C1; C0; C0] C0.
Proof.
  apply (apply_cnot_spec 2 [C0; C1; C0; C0] 0 1); [reflexivity|lia|lia|lia].
Defined.

(** X2.  With the same qubit as control and as target, [_apply_cnot] is not
    rejected: it exchanges every entry with its partner across that bit, as
    an X gate on that bit would. *)
Theorem apply_cnot_same_qubit (n : nat) (state : list C) (q : Z) :
  length state = 2 ^ n -> (0 <= q < Z.of_nat n)%Z ->
  _apply_cnot state q q
  = Ok (map (fun m => nth (Nat.lxor m (2 ^ Z.to_nat q)) state C0) (seq 0 (2 ^ n))).
Proof.
  intros Hs Hq. rewrite (apply_cnot_eq n) by (done || lia).
  f_equal. apply map_ext. intros m. unfold cnot_src. cbv zeta.
  rewrite Nat.lxor_spec, Nat.pow2_bits_eqb, Nat.eqb_refl.
  by destruct (Nat.testbit m _).
Qed.

Lemma apply_cnot_same_qubit_witness :
  _apply_cnot [C1; C0; C0; C0] 1 1
  = Ok (map (fun m => nth (Nat.lxor m (2 ^ Z.to_nat 1)) [C1; C0; C0; C0] C0)
            (seq 0 (2 ^ 2))).
Proof.
  apply (apply_cnot_same_qubit 2 [C1; C0; C0; C0] 1); [reflexivity|lia].
Defined.

(** X3.  [_apply_cnot] applied twice with the same control and target gives
    the original array back. *)
Theorem apply_cnot_involution (n : nat) (state : list C) (control target : Z) :
  length state = 2 ^ n ->
  (0 <= control)%Z -> (0 <= target < Z.of_nat n)%Z ->
  exists new,
    _apply_cnot state control target = Ok new
    /\ _apply_cnot new control target = Ok state.
Proof.
  intros Hs Hc Ht. rewrite (apply_cnot_eq n) by done.
  eexists. split; [reflexivity|].
  rewrite (apply_cnot_eq n) by (by rewrite ?length_map, ?length_seq).
  f_equal. apply (nth_ext _ _ C0 C0); [by rewrite length_map, length_seq|].
  intros m Hm. rewrite length_map, length_seq in Hm.
  rewrite nth_map_seq by done.
  rewrite nth_map_seq by (apply cnot_src_lt; lia).
  by rewrite cnot_src_involutive.
Qed.

Lemma apply_cnot_involution_witness :
  exists new,
    _apply_cnot [C0; C1; C0; C0] 0 1 = Ok new
    /\ _apply_cnot new 0 1 = Ok [C0; C1; C0; C0].
Proof.
  apply (apply_cnot_involution 2 [C0; C1; C0; C0] 0 1); [reflexivity|lia|lia].
Defined.









Lemma testbit_exchange a b m :
  let m' := swap_src a b m in
  Nat.testbit m' a = Nat.testbit m b
  /\ Nat.testbit m' b = Nat.testbit m a
  /\ forall k, k ≠ a -> k ≠ b -> Nat.testbit m' k = Nat.testbit m k.
Proof.
  unfold swap_src. cbv zeta.
  destruct (xorb (Nat.testbit m a) (Nat.testbit m b)) eqn:E.
  - repeat split.
    + rewrite Nat.lxor_spec, Nat.lor_spec, !Nat.pow2_bits_eqb, Nat.eqb_refl. simpl.
      destruct (Nat.testbit m a), (Nat.testbit m b); done.
    + rewrite Nat.lxor_spec, Nat.lor_spec, !Nat.pow2_bits_eqb, Nat.eqb_refl.
      rewrite orb_true_r.
      destruct (Nat.testbit m a), (Nat.testbit m b); done.
    + intros k Ha Hb.
      rewrite Nat.lxor_spec, Nat.lor_spec, !Nat.pow2_bits_eqb.
      rewrite (proj2 (Nat.eqb_neq a k)), (proj2 (Nat.eqb_neq b k)) by done.
      by rewrite xorb_false_r.
  - repeat split; try done;
      destruct (Nat.testbit m a), (Nat.testbit m b); done.
Qed.

(** X5.  With [a] and [b] qubits of the register, [_apply_swap] returns the
    array whose entry at index [m] is the old entry at the index obtained
    from [m] by exchanging its bits [a] and [b]. *)
Theorem apply_swap_exchanges_bits (n : nat) (state : list C) (a b : Z) :
  length state = 2 ^ n ->
  (0 <= a < Z.of_nat n)%Z -> (0 <= b < Z.of_nat n)%Z ->
  exists new,
    _apply_swap state a b = Ok new
    /\ length new = 2 ^ n
    /\ forall m, m < 2 ^ n ->
         exists m', m' < 2 ^ n
           /\ nth m new C0 = nth m' state C0
           /\ Nat.testbit m' (Z.to_nat a) = Nat.testbit m (Z.to_nat b)
           /\ Nat.testbit m' (Z.to_nat b) = Nat.testbit m (Z.to_nat a)
           /\ forall k, k ≠ Z.to_nat a -> k ≠ Z.to_nat b ->
                Nat.testbit m' k = Nat.testbit m k.
Proof.
  intros Hs Ha Hb. rewrite (apply_swap_eq n) by done.
  eexists. split; [reflexivity|]. split; [by rewrite length_map, length_seq|].
  intros m Hm. exists (swap_src (Z.to_nat a) (Z.to_nat b) m).
  split; [apply swap_src_lt; lia|]. split; [by rewrite nth_map_seq|].
  apply testbit_exchange.
Qed.

Lemma apply_swap_exchanges_bits_witness :
  exists new,
    _apply_swap [C0; C1; C0; C0] 0 1 = Ok new
    /\ length new = 2 ^ 2
    /\ forall m, m < 2 ^ 2 ->
         exists m', m' < 2 ^ 2
           /\ nth m new C0 = nth m' [C0; C1; C0; C0] C0
           /\ Nat.testbit m' (Z.to_nat 0) = Nat.testbit m (Z.to_nat 1)
           /\ Nat.testbit m' (Z.to_nat 1) = Nat.testbit m (Z.to_nat 0)
           /\ forall k, k ≠ Z.to_nat 0 -> k ≠ Z.to_nat 1 ->
                Nat.testbit m' k = Nat.testbit m k.
Proof.
  apply (apply_swap_exchanges_bits 2 [C0; C1; C0; C0] 0 1); [reflexivity|lia|lia].
Defined.

Lemma swap_body_comm state a b new i :
  swap_body state a b new i = swap_body state b a new i.
Proof.
  unfold swap_body, py_rshift, py_lshift.
  destruct (a <? 0)%Z, (b <? 0)%Z; cbn [mbind result_bind]; try done.
  rewrite (Nat.eqb_sym (Nat.land (Nat.shiftr i (Z.to_nat a)) 1)).
  by rewrite (Nat.lor_comm (Nat.shiftl 1 (Z.to_nat a))).
Qed.

Lemma foldM_ext {A B} (f g : B -> A -> result B) l acc :
  (forall b x, f b x = g b x) -> foldM f l acc = foldM g l acc.
Proof.
  intros Hfg. revert acc. induction l as [|x l IH]; intros acc; simpl; [done|].
  rewrite Hfg. destruct (g acc x); [apply IH|done].
Qed.

(** X6.  [_apply_swap] does not depend on the order of its two qubits: for
    every array and every pair of indices, valid or not, the two calls give
    the same array or raise the same exception. *)
Theorem apply_swap_symmetric (state : list C) (a b : Z) :
  _apply_swap state a b = _apply_swap state b a.
Proof.
  unfold _apply_swap. apply foldM_ext. intros new i. apply swap_body_comm.
Qed.






(** ** Which bit a single-qubit gate acts on *)

Lemma unravel_le_nth n s k : k < n -> nth k (unravel_le n s) false = Nat.testbit s k.
Proof.
  revert s k. induction n as [|n IH]; intros s k Hk; [lia|].
  cbn [unravel_le]. destruct k as [|k]; cbn [nth].
  - by rewrite Nat.bit0_odd.
  - rewrite IH by lia. apply Nat.div2_bits.
Qed.

Lemma unravel_nth n s t : t < n -> nth t (unravel n s) false = Nat.testbit s (n - 1 - t).
Proof.
  intros Ht. unfold unravel.
  rewrite rev_nth by (rewrite unravel_le_length; lia).
  rewrite unravel_le_length. replace (n - S t) with (n - 1 - t) by lia.
  apply unravel_le_nth. lia.
Qed.

Lemma ravel_le_testbit bits k :
  Nat.testbit (ravel_le bits) k = nth k bits false.
Proof.
  revert k. induction bits as [|b bits IH]; intros k.
  - cbn [ravel_le]. rewrite Nat.bits_0. by destruct k.
  - cbn [ravel_le]. destruct k as [|k]; cbn [nth].
    + rewrite Nat.bit0_odd, Nat.odd_add, Nat.odd_mul. simpl. by destruct b.
    + rewrite <- IH, <- Nat.div2_bits. f_equal.
      symmetry. apply Nat.div_unique with (Nat.b2n b); destruct b; simpl; lia.
Qed.

Lemma ravel_testbit bits k :
  k < length bits ->
  Nat.testbit (ravel bits) k = nth (length bits - 1 - k) bits false.
Proof.
  intros Hk. unfold ravel. rewrite ravel_le_testbit.
  rewrite rev_nth by lia. f_equal. lia.
Qed.

Lemma ravel_testbit_high bits k :
  length bits <= k -> Nat.testbit (ravel bits) k = false.
Proof.
  intros Hk. apply (lt_pow2_bits _ (length bits)); [apply ravel_bound|done].
Qed.

Lemma nth_insert_bool (l : list bool) i x m :
  i < length l -> nth m (<[i := x]> l) false = if m =? i then x else nth m l false.
Proof.
  intros Hi. rewrite !nth_lookup.
  destruct (Nat.eqb_spec m i) as [->|Hne].
  - by rewrite list_lookup_insert_eq.
  - by rewrite list_lookup_insert_ne.
Qed.

Lemma ravel_insert (n s t : nat) (c : bool) :
  t < n -> s < 2 ^ n ->
  ravel (<[t := c]> (unravel n s))
  = if c then Nat.setbit s (n - 1 - t) else Nat.clearbit s (n - 1 - t).
Proof.
  intros Ht Hs. apply Nat.bits_inj. intros k.
  assert (Hlen : length (<[t := c]> (unravel n s)) = n)
    by (by rewrite length_insert, unravel_length).
  destruct (Nat.lt_ge_cases k n) as [Hk|Hk].
  - rewrite ravel_testbit by lia. rewrite Hlen.
    rewrite nth_insert_bool by (rewrite unravel_length; lia).
    rewrite unravel_nth by lia. replace (n - 1 - (n - 1 - k)) with k by lia.
    destruct (Nat.eqb_spec (n - 1 - k) t) as [E|E].
    + assert (Ek : n - 1 - t = k) by lia. rewrite Ek.
      destruct c.
      * by rewrite Nat.setbit_eqb, Nat.eqb_refl.
      * by rewrite Nat.clearbit_eqb, Nat.eqb_refl, andb_false_r.
    + destruct c.
      * rewrite Nat.setbit_eqb. by rewrite (proj2 (Nat.eqb_neq _ _)) by lia.
      * rewrite Nat.clearbit_eqb. rewrite (proj2 (Nat.eqb_neq _ _)) by lia.
        by rewrite andb_true_r.
  - rewrite ravel_testbit_high by lia.
    destruct c.
    + rewrite Nat.setbit_eqb, (lt_pow2_bits s n k) by done.
      by rewrite (proj2 (Nat.eqb_neq _ _)) by lia.
    + by rewrite Nat.clearbit_eqb, (lt_pow2_bits s n k) by done.
Qed.

Lemma ravel_cons b bits : ravel (b :: bits) = Nat.b2n b * 2 ^ length bits + ravel bits.
Proof.
  unfold ravel. cbn [rev]. rewrite <- (length_rev bits).
  induction (rev bits) as [|x l IH]; cbn [app ravel_le length].
  - simpl. lia.
  - rewrite IH. rewrite Nat.pow_succ_r'. lia.
Qed.

Lemma nth_zip_with {A B D} (f : A -> B -> D) l1 l2 k d1 d2 d :
  k < length l1 -> k < length l2 ->
  nth k (zip_with f l1 l2) d = f (nth k l1 d1) (nth k l2 d2).
Proof.
  revert l2 k. induction l1 as [|x l1 IH]; intros [|y l2] k H1 H2;
    simpl in *; try lia.
  destruct k as [|k]; [done|]. apply IH; lia.
Qed.

Lemma matmul2_nth U n v b bits :
  length v = 2 ^ S n -> length bits = n ->
  nth (ravel (b :: bits)) (matmul2 U v) C0
  = (if b then snd else fst)
      (row_action U (nth (ravel (false :: bits)) v C0) (nth (ravel (true :: bits)) v C0)).
Proof.
  intros Hv Hb. destruct (split_halves n v Hv) as (r0 & r1 & -> & H0 & H1).
  rewrite matmul2_rows by lia.
  pose proof (ravel_bound bits) as Hk. rewrite Hb in Hk.
  rewrite !ravel_cons, Hb. cbn [Nat.b2n]. rewrite Nat.mul_0_l, Nat.mul_1_l, Nat.add_0_l.
  rewrite (app_nth1 r0 r1) by lia.
  rewrite <- H0 at 2. rewrite (app_nth2_plus r0 r1).
  destruct b; cbn [Nat.b2n].
  - rewrite Nat.mul_1_l.
    replace (2 ^ n) with (length (zip_with (fun a b => fst (row_action U a b)) r0 r1))
      by (rewrite length_zip_with; lia).
    rewrite app_nth2_plus. by rewrite (nth_zip_with _ _ _ _ C0 C0) by lia.
  - rewrite Nat.mul_0_l, Nat.add_0_l.
    rewrite app_nth1 by (rewrite length_zip_with; lia).
    by rewrite (nth_zip_with _ _ _ _ C0 C0) by lia.
Qed.

Lemma position_head t l : position t (t :: l) = 0.
Proof. cbn [position]. by rewrite Nat.eqb_refl. Qed.

Lemma gather_bits_head n t l c b bits :
  is_perm n (t :: l) ->
  gather_bits n (t :: l) (c :: bits) = <[t := c]> (gather_bits n (t :: l) (b :: bits)).
Proof.
  intros Hp. pose proof Hp as (Hnd & Hlen & Hlt).
  assert (Ht : t < n) by (by inversion Hlt).
  apply (nth_ext _ _ false false).
  { by rewrite length_insert, !gather_bits_length. }
  intros m Hm. rewrite gather_bits_length in Hm.
  rewrite nth_insert_bool by (rewrite gather_bits_length; lia).
  rewrite !gather_bits_nth by done.
  destruct (Nat.eqb_spec m t) as [->|Hne].
  - by rewrite position_head.
  - cbn [position]. by rewrite (proj2 (Nat.eqb_neq t m)) by done.
Qed.

(** The entries of the array that a single-qubit matrix gives. *)
Lemma single_qubit_entries (n : nat) (state : list C) (U : Mat2)
    (target : Z) :
  length state = 2 ^ n -> (0 <= target < Z.of_nat n)%Z ->
  exists new,
    _apply_single_qubit_unitary n state U target = Ok new
    /\ length new = 2 ^ n
    /\ forall s, s < 2 ^ n ->
         let k := n - 1 - Z.to_nat target in
         let lo := nth (Nat.clearbit s k) state C0 in
         let hi := nth (Nat.setbit s k) state C0 in
         nth s new C0
         = if Nat.testbit s k
           then Cplus (Cmult (u10 U) lo) (Cmult (u11 U) hi)
           else Cplus (Cmult (u00 U) lo) (Cmult (u01 U) hi).
Proof.
  intros Hs Ht. rewrite apply_single_qubit_unitary_eq by done.
  eexists. split; [reflexivity|]. split; [apply gather_length|].
  intros s Hlt. cbv zeta.
  set (t := Z.to_nat target). set (ax := target_axes n t).
  assert (Htn : t < n) by (unfold t; lia).
  assert (Hp : is_perm n ax) by (by apply target_axes_is_perm).
  destruct n as [|n]; [lia|].
  unfold gather at 1. rewrite nth_map_seq by done.
  set (js := unravel (S n) s).
  assert (Hjs : length js = S n) by apply unravel_length.
  set (i := gather_bits (S n) (inv_perm (S n) ax) js).
  assert (Hi : length i = S n) by apply gather_bits_length.
  change (source_index (S n) (inv_perm (S n) ax) s) with (ravel i).
  destruct i as [|b bits] eqn:Ei; [simpl in Hi; lia|].
  assert (Hbits : length bits = n) by (simpl in Hi; lia).
  rewrite (matmul2_nth U n) by (done || apply gather_length).
  assert (Hb : b = Nat.testbit s (S n - 1 - t)).
  { rewrite <- unravel_nth by done. fold js.
    change b with (nth 0 (b :: bits) false). rewrite <- Ei. unfold i.
    rewrite gather_bits_nth by lia.
    rewrite position_inv_perm by (done || lia). unfold ax, target_axes. done. }
  assert (Hsrc : forall c, nth (ravel (c :: bits)) (gather C0 (S n) ax state) C0
            = nth (if c then Nat.setbit s (S n - 1 - t)
                   else Nat.clearbit s (S n - 1 - t)) state C0).
  { intros c. unfold gather.
    assert (Hr : ravel (c :: bits) < 2 ^ S n).
    { pose proof (ravel_bound (c :: bits)) as Hb'. cbn [length] in Hb'.
      by rewrite Hbits in Hb'. }
    rewrite nth_map_seq by done. f_equal.
    change (source_index (S n) ax (ravel (c :: bits)))
      with (ravel (gather_bits (S n) ax (unravel (S n) (ravel (c :: bits))))).
    rewrite unravel_ravel_len by (cbn [length]; lia).
    unfold ax, target_axes at 1.
    rewrite (gather_bits_head (S n) t _ c b bits) by exact Hp.
    fold (target_axes (S n) t). fold ax. rewrite <- Ei. unfold i.
    rewrite gather_inv_gather by done. unfold js.
    by apply ravel_insert. }
  rewrite (Hsrc false), (Hsrc true). rewrite <- Hb.
  unfold row_action. by destruct b.
Qed.

(** X11.  A single-qubit matrix applied to target [t] of an [n]-qubit state
    acts on bit [n-1-t] of the index: the new entry at index [s] combines the
    old entries at [s] with that bit cleared and with that bit set, by row 0
    of the matrix when the bit of [s] is clear and by row 1 when it is
    set. *)
Theorem apply_single_qubit_unitary_spec (n : nat) (state : list C) (U : Mat2)
    (target : Z) :
  length state = 2 ^ n -> (0 <= target < Z.of_nat n)%Z ->
  exists new,
    _apply_single_qubit_unitary n state U target = Ok new
    /\ length new = 2 ^ n
    /\ forall s, s < 2 ^ n ->
         let k := n - 1 - Z.to_nat target in
         let lo := nth (Nat.clearbit s k) state C0 in
         let hi := nth (Nat.setbit s k) state C0 in
         nth s new C0
         = if Nat.testbit s k
           then Cplus (Cmult (u10 U) lo) (Cmult (u11 U) hi)
           else Cplus (Cmult (u00 U) lo) (Cmult (u01 U) hi).
Proof. exact (single_qubit_entries n state U target). Qed.

Lemma apply_single_qubit_unitary_spec_witness :
  exists new,
    _apply_single_qubit_unitary 2 [C1; C0; C0; C0] X_matrix 0 = Ok new
    /\ length new = 2 ^ 2
    /\ forall s, s < 2 ^ 2 ->
         let k := 2 - 1 - Z.to_nat 0 in
         let lo := nth (Nat.clearbit s k) [C1; C0; C0; C0] C0 in
         let hi := nth (Nat.setbit s k) [C1; C0; C0; C0] C0 in
         nth s new C0
         = if Nat.testbit s k
           then Cplus (Cmult (u10 X_matrix) lo) (Cmult (u11 X_matrix) hi)
           else Cplus (Cmult (u00 X_matrix) lo) (Cmult (u01 X_matrix) hi).
Proof.
  apply (apply_single_qubit_unitary_spec 2 [C1; C0; C0; C0] X_matrix 0);
    [reflexivity|lia].
Defined.

Lemma lxor_pow2_bit s k :
  Nat.lxor s (2 ^ k) = if Nat.testbit s k then Nat.clearbit s k else Nat.setbit s k.
Proof.
  apply Nat.bits_inj. intros m. rewrite Nat.lxor_spec, Nat.pow2_bits_eqb.
  destruct (Nat.testbit s k) eqn:E.
  - rewrite Nat.clearbit_eqb. destruct (Nat.eqb_spec k m) as [<-|?].
    + by rewrite E.
    + by rewrite xorb_false_r, andb_true_r.
  - rewrite Nat.setbit_eqb. destruct (Nat.eqb_spec k m) as [<-|?].
    + by rewrite E.
    + by rewrite xorb_false_r.
Qed.

(** The X branch of [run] on a target in range. *)
Lemma x_gate_step (n : nat) (state : list C) (t : Z) (ts : list Z) (ps : list R) :
  length state = 2 ^ n -> (0 <= t < Z.of_nat n)%Z ->
  gate_step n (mkGate "X" (t :: ts) ps) state
  = Ok (Some (map (fun s => nth (Nat.lxor s (2 ^ (n - 1 - Z.to_nat t))) state C0)
                  (seq 0 (2 ^ n)))).
Proof.
  intros Hs Ht.
  destruct (single_qubit_entries n state X_matrix t Hs Ht)
    as (new & E & Hlen & Hnew).
  unfold gate_step, index. cbn. rewrite E. cbn. do 2 f_equal.
  apply (nth_ext _ _ C0 C0); [by rewrite length_map, length_seq|].
  intros s Hlt. rewrite Hlen in Hlt. rewrite nth_map_seq by done.
  rewrite (Hnew s Hlt). cbv zeta. rewrite lxor_pow2_bit.
  destruct (Nat.testbit s _);
    match goal with
    | |- Cplus (Cmult _ ?x) (Cmult _ ?y) = _ => destruct x as [x1 x2], y as [y1 y2]
    end;
    unfold X_matrix, Cplus, Cmult, RtoC; cbn [u00 u01 u10 u11 fst snd];
    f_equal; ring.
Qed.

(** X12.  An X gate on target [t] of an [n]-qubit state moves every
    amplitude to the index that differs in bit [n-1-t]: qubit 0 is the most
    significant bit of the index for the single-qubit gates. *)
Theorem x_gate_flips_bit (n : nat) (state : list C) (t : Z) (ts : list Z)
    (ps : list R) :
  length state = 2 ^ n -> (0 <= t < Z.of_nat n)%Z ->
  gate_step n (mkGate "X" (t :: ts) ps) state
  = Ok (Some (map (fun s => nth (Nat.lxor s (2 ^ (n - 1 - Z.to_nat t))) state C0)
                  (seq 0 (2 ^ n)))).
Proof. exact (x_gate_step n state t ts ps). Qed.

Lemma x_gate_flips_bit_witness :
  gate_step 2 (mkGate "X" (0%Z :: []) []) [C1; C0; C0; C0]
  = Ok (Some (map (fun s => nth (Nat.lxor s (2 ^ (2 - 1 - Z.to_nat 0))) [C1; C0; C0; C0] C0)
                  (seq 0 (2 ^ 2)))).
Proof.
  apply (x_gate_flips_bit 2 [C1; C0; C0; C0] 0 [] []); [reflexivity|lia].
Defined.

(** X9.  An X gate applied twice in a row to the same qubit of the register
    gives the state back, entry for entry: the gate only moves amplitudes,
    and the second application moves each of them back. *)
Theorem x_gate_self_inverse (n : nat) (state : list C) (t : Z) (ts : list Z)
    (ps : list R) :
  length state = 2 ^ n -> (0 <= t < Z.of_nat n)%Z ->
  exists mid,
    gate_step n (mkGate "X" (t :: ts) ps) state = Ok (Some mid)
    /\ gate_step n (mkGate "X" (t :: ts) ps) mid = Ok (Some state).
Proof.
  intros Hs Ht. eexists. split; [by apply x_gate_step|].
  rewrite x_gate_step by (done || by rewrite length_map, length_seq).
  do 2 f_equal. apply (nth_ext _ _ C0 C0); [by rewrite length_map, length_seq|].
  intros s Hlt. rewrite length_map, length_seq in Hlt.
  rewrite nth_map_seq by done.
  rewrite nth_map_seq by (apply lxor_lt_pow2; [done|apply pow2_lt_pow2; lia]).
  by rewrite lxor_lxor.
Qed.

Lemma x_gate_self_inverse_witness :
  exists mid,
    gate_step 2 (mkGate "X" (1%Z :: []) []) [C0; C1; C0; C0] = Ok (Some mid)
    /\ gate_step 2 (mkGate "X" (1%Z :: []) []) mid = Ok (Some [C0; C1; C0; C0]).
Proof.
  apply (x_gate_self_inverse 2 [C0; C1; C0; C0] 1 [] []); [reflexivity|lia].
Defined.

(** ** More on the whole run *)

Lemma unrecognized_name g :
  has_name unitary_names g = false -> is_measure g = false ->
  has_name recognized_names g = false.
Proof.
  unfold is_measure, has_name, unitary_names, recognized_names. cbn [existsb].
  repeat (destruct (String.eqb (name g) _); try done).
Qed.

Lemma gate_step_length n g state state' :
  length state = 2 ^ n -> gate_step n g state = Ok (Some state') ->
  length state' = 2 ^ n.
Proof.
  intros Hs Hstep. destruct (has_name unitary_names g) eqn:Hn.
  - destruct (gate_step_norm n g state _ Hn Hs Hstep) as (s & [= <-] & Hl & _). done.
  - destruct (is_measure g) eqn:Hm.
    + by rewrite gate_step_measure in Hstep.
    + rewrite gate_step_unknown in Hstep by (by apply unrecognized_name).
      by injection Hstep as <-.
Qed.

Lemma bind_fmap_not_None {A B} (r : result A) (k : A -> result B) :
  (t ← r; Some <$> k t) ≠ Ok None.
Proof. destruct r as [a|e]; [|done]. cbn. by destruct (k a). Qed.

Lemma bind2_fmap_not_None {A B} (r1 r2 : result A) (k : A -> A -> result B) :
  (a ← r1; b ← r2; Some <$> k a b) ≠ Ok None.
Proof.
  destruct r1 as [a|e]; [|done]. cbn. destruct r2 as [b|e]; [|done]. cbn.
  by destruct (k a b).
Qed.

Lemma gate_step_None_measure n g state :
  gate_step n g state = Ok None -> is_measure g = true.
Proof.
  unfold gate_step, is_measure, has_name. cbn [existsb]. cbv zeta.
  destruct (String.eqb (name g) "H"); [by intros ?%bind_fmap_not_None|].
  destruct (String.eqb (name g) "X"); [by intros ?%bind_fmap_not_None|].
  destruct (String.eqb (name g) "RX"); [by intros ?%bind_fmap_not_None|].
  destruct (String.eqb (name g) "RY"); [by intros ?%bind_fmap_not_None|].
  destruct (String.eqb (name g) "RZ"); [by intros ?%bind_fmap_not_None|].
  destruct (String.eqb (name g) "CNOT"); [by intros ?%bind2_fmap_not_None|].
  destruct (String.eqb (name g) "SWAP"); [by intros ?%bind2_fmap_not_None|].
  rewrite orb_false_r. by destruct (_ || _).
Qed.

Section RunInvariants.
Context (G : NumpyRandom).

Lemma run_gates_length n shots gs state w amplitudes w' :
  length state = 2 ^ n ->
  run_gates G n None shots gs state w = (Ok (Statevector amplitudes), w') ->
  length amplitudes = 2 ^ n.
Proof.
  revert state. induction gs as [|g gs IH]; intros state Hs Hrun.
  - simpl in Hrun. by injection Hrun as <- <-.
  - cbn [run_gates] in Hrun.
    destruct (gate_step n g state) as [[state'|]|e] eqn:E; [| |done].
    + cbn [apply_noise] in Hrun. apply (IH state'); [|done].
      by apply (gate_step_length n g state).
    + unfold measure in Hrun.
      destruct (np_random_choice G w shots _) as [[rs|e] w1]; done.
Qed.

Lemma run_gates_no_measure n hook shots shots' gs state w :
  forallb (fun g => negb (is_measure g)) gs = true ->
  run_gates G n hook shots gs state w = run_gates G n hook shots' gs state w.
Proof.
  revert state w. induction gs as [|g gs IH]; intros state w Hgs; [done|].
  cbn [forallb] in Hgs. apply andb_true_iff in Hgs as [Hg Hgs].
  cbn [run_gates].
  destruct (gate_step n g state) as [[state'|]|e] eqn:E; [| |done].
  - destruct (apply_noise G hook state' g w) as [[s|e] w1]; [by apply IH|done].
  - apply gate_step_None_measure in E. by rewrite E in Hg.
Qed.

Lemma run_gates_no_measure_out n shots gs state w out w' :
  forallb (fun g => negb (is_measure g)) gs = true ->
  run_gates G n None shots gs state w = (Ok out, w') ->
  w' = w /\ exists amplitudes, out = Statevector amplitudes.
Proof.
  revert state. induction gs as [|g gs IH]; intros state Hgs Hrun.
  - simpl in Hrun. injection Hrun as <- <-. split; [done|by eexists].
  - cbn [forallb] in Hgs. apply andb_true_iff in Hgs as [Hg Hgs].
    cbn [run_gates] in Hrun.
    destruct (gate_step n g state) as [[state'|]|e] eqn:E; [| |done].
    + cbn [apply_noise] in Hrun. by apply (IH state').
    + apply gate_step_None_measure in E. by rewrite E in Hg.
Qed.

End RunInvariants.

(** X13.  Without a noise hook, an amplitude vector that [run] returns has
    [2^n] entries, whatever the names and targets of the gates. *)
Theorem run_statevector_length (G : NumpyRandom) (circuit : QuantumCircuit)
    (seed : option Z) (shots : Z) (w0 w w' : rng_state G)
    (self : StatevectorSimulator G) (amplitudes : list C) :
  fst (__init__ G circuit None seed w0) = Ok self ->
  run G self shots w = (Ok (Statevector amplitudes), w') ->
  length amplitudes = 2 ^ sim_num_qubits G self.
Proof.
  intros Hinit Hrun. destruct (init_ok G _ _ _ _ _ Hinit) as (Hc & Hh & Hst).
  unfold run in Hrun. rewrite Hh, Hst in Hrun.
  apply (run_gates_length G _ _ _ _ _ _ _ (ground_state_length _) Hrun).
Qed.

Lemma run_statevector_length_witness :
  length [C1; C0; C0; C0] = 2 ^ 2.
Proof.
  apply (run_statevector_length sample_generator
           (mkQuantumCircuit 2 [gate_SWAP 0 1; mkGate "Y" [0%Z] []]) None 16 0 0 0
           (mkStatevectorSimulator sample_generator
              (mkQuantumCircuit 2 [gate_SWAP 0 1; mkGate "Y" [0%Z] []])
              2 [C1; C0; C0; C0] None)
           [C1; C0; C0; C0]); reflexivity.
Defined.

(** X14.  When no gate of the circuit is named M or Measure, the result of
    [run] does not depend on [shots], with or without a noise hook; without a
    hook a successful run returns an amplitude vector, never counts, and
    leaves the global generator as it found it. *)
Theorem run_without_measurement (G : NumpyRandom) (self : StatevectorSimulator G)
    (shots shots' : Z) (w : rng_state G) :
  forallb (fun g => negb (is_measure g)) (gates (sim_circuit G self)) = true ->
  run G self shots w = run G self shots' w
  /\ (sim_noise_hook G self = None ->
      forall out w', run G self shots w = (Ok out, w') ->
        w' = w /\ exists amplitudes, out = Statevector amplitudes).
Proof.
  intros Hgs. unfold run. split; [by apply run_gates_no_measure|].
  intros -> out w' Hrun. by apply (run_gates_no_measure_out G _ _ _ _ _ _ _ Hgs Hrun).
Qed.

Lemma run_without_measurement_witness :
  let self := mkStatevectorSimulator sample_generator
                (mkQuantumCircuit 2 [gate_SWAP 0 1; gate_CNOT 0 1])
                2 [C1; C0; C0; C0] None in
  run sample_generator self 1 0 = run sample_generator self 1024 0
  /\ (sim_noise_hook sample_generator self = None ->
      forall out w', run sample_generator self 1 0 = (Ok out, w') ->
        w' = 0 /\ exists amplitudes, out = Statevector amplitudes).
Proof.
  intros self. apply (run_without_measurement sample_generator self 1 1024 0).
  reflexivity.
Defined.

(** ** More on the measurement *)

Lemma sum_values_insert (m : gmap string nat) k v :
  sum_values (<[k := v]> m) + default 0 (m !! k) = sum_values m + v.
Proof.
  unfold sum_values.
  assert (Hcomm : forall (m' : gmap string nat) (j1 j2 : string) (z1 z2 y : nat),
            j1 ≠ j2 -> m' !! j1 = Some z1 -> m' !! j2 = Some z2 ->
            z1 + (z2 + y) = z2 + (z1 + y)) by (intros; lia).
  destruct (m !! k) as [x|] eqn:E; cbn [default].
  - rewrite <- insert_delete_eq.
    rewrite map_fold_insert_L; [|by eauto|by rewrite lookup_delete_eq].
    rewrite (map_fold_delete_L _ _ k x m);
      [unfold Datatypes.id; cbv beta; lia|by eauto|done].
  - rewrite map_fold_insert_L; [cbv beta; lia|by eauto|done].
Qed.

Lemma sum_values_tally width rs (m : gmap string nat) :
  sum_values (foldl (fun counts r =>
                       let b := format_0b width r in
                       <[b := default 0 (counts !! b) + 1]> counts) m rs)
  = sum_values m + length rs.
Proof.
  revert m. induction rs as [|r rs IH]; intros m; cbn [foldl length]; [lia|].
  rewrite IH. cbv zeta.
  pose proof (sum_values_insert m (format_0b width r)
                (default 0 (m !! format_0b width r) + 1)). lia.
Qed.

Lemma random_sample_length G k w : length (fst (random_sample G k w)) = k.
Proof.
  revert w. induction k as [|k IH]; intros w; cbn [random_sample]; [done|].
  destruct (np_random_rand G w) as [u w1]. specialize (IH w1).
  destruct (random_sample G k w1) as [us w2]. cbn [fst length] in *. lia.
Qed.

Lemma np_random_choice_Ok G w size p rs w' :
  np_random_choice G w size p = (Ok rs, w') ->
  (0 <= size)%Z
  /\ rs = map (searchsorted_right
                 (map (fun c => (c / List.last (cumsum_from 0 p) 0)%R) (cumsum_from 0 p)))
              (fst (random_sample G (Z.to_nat size) w))
  /\ w' = snd (random_sample G (Z.to_nat size) w)
  /\ Forall (fun x => (0 <= x)%R) p
  /\ (Rabs (Rsum p - 1) <= / 2 ^ 26)%R.
Proof.
  unfold np_random_choice.
  destruct (bool_decide (Exists _ p)) eqn:E1; [done|].
  destruct (bool_decide (_ < _)%R) eqn:E2; [done|].
  destruct (Z.ltb_spec size 0) as [?|Hsz]; [done|].
  destruct (random_sample G (Z.to_nat size) w) as [us w1] eqn:Ers.
  intros [= <- <-]. split; [done|]. split; [done|]. split; [done|].
  apply bool_decide_eq_false in E1, E2. split.
  - apply Forall_forall. intros x Hx. apply Rnot_lt_le. intros Hlt.
    apply E1. apply Exists_exists. by exists x.
  - by apply Rnot_lt_le.
Qed.

(** The counts of a measurement add up to the number of shots. *)
Lemma measure_counts_total (G : NumpyRandom) (n : nat) (shots : Z)
    (state : list C) (w w' : rng_state G) (counts : gmap string nat) :
  measure G n shots state w = (Ok (Counts counts), w') ->
  (0 <= shots)%Z /\ Z.of_nat (sum_values counts) = shots.
Proof.
  unfold measure.
  destruct (np_random_choice G w shots _) as [[rs|e] w1] eqn:E; [|done].
  intros [= <- <-]. apply np_random_choice_Ok in E as (Hsz & -> & _).
  split; [done|]. unfold tally. rewrite sum_values_tally.
  rewrite length_map, random_sample_length.
  unfold sum_values. rewrite map_fold_empty. lia.
Qed.

Lemma last_cumsum_from a p :
  p ≠ [] -> List.last (cumsum_from a p) 0%R = (a + Rsum p)%R.
Proof.
  revert a. induction p as [|x p IH]; intros a Hp; [done|].
  destruct p as [|y p].
  - cbn. lra.
  - change (cumsum_from a (x :: y :: p))
      with ((a + x)%R :: cumsum_from (a + x) (y :: p)).
    change (List.last ((a + x)%R :: cumsum_from (a + x) (y :: p)) 0%R)
      with (List.last (cumsum_from (a + x) (y :: p)) 0%R).
    rewrite IH by done. cbn [Rsum foldr]. lra.
Qed.

Lemma cumsum_from_length a p : length (cumsum_from a p) = length p.
Proof. revert a. induction p as [|x p IH]; intros a; cbn; [done|by rewrite IH]. Qed.

Lemma last_map {A B} (f : A -> B) (l : list A) d :
  l ≠ [] -> List.last (map f l) (f d) = f (List.last l d).
Proof.
  induction l as [|x l IH]; [done|]. intros _. destruct l as [|y l]; [done|].
  change (List.last (map f (x :: y :: l)) (f d)) with (List.last (map f (y :: l)) (f d)).
  change (List.last (x :: y :: l) d) with (List.last (y :: l) d). by apply IH.
Qed.

Lemma filter_length_lt_last (P : R -> Prop) `{!forall x, Decision (P x)} (l : list R) d :
  l ≠ [] -> ~ P (List.last l d) -> length (filter P l) < length l.
Proof.
  induction l as [|x l IH]; [done|]. intros _ Hlast.
  destruct l as [|y l].
  - cbn in Hlast. rewrite filter_cons_False by done. cbn. lia.
  - change (List.last (x :: y :: l) d) with (List.last (y :: l) d) in Hlast.
    specialize (IH ltac:(done) Hlast).
    pose proof (length_filter P (y :: l)).
    destruct (decide (P x)).
    + rewrite filter_cons_True by done. cbn [length] in *. lia.
    + rewrite filter_cons_False by done. cbn [length] in *. lia.
Qed.

Lemma random_sample_in_unit G k w :
  rand_in_unit G -> Forall (fun u => (0 <= u < 1)%R) (fst (random_sample G k w)).
Proof.
  intros HG. revert w. induction k as [|k IH]; intros w; cbn [random_sample].
  - constructor.
  - specialize (HG w). destruct (np_random_rand G w) as [u w1]. cbn [fst] in HG.
    specialize (IH w1). destruct (random_sample G k w1) as [us w2].
    cbn [fst] in *. by constructor.
Qed.

Lemma sum_near_one_nonzero (s : R) : (Rabs (s - 1) <= / 2 ^ 26)%R -> s ≠ 0%R.
Proof.
  intros Hs ->. rewrite Rabs_left in Hs by lra.
  assert (/ 2 ^ 26 < 1)%R; [|lra].
  rewrite <- Rinv_1. apply Rinv_lt_contravar.
  - rewrite Rmult_1_l. apply pow_lt. lra.
  - apply Rlt_pow_R1; [lra|lia].
Qed.

(** With draws below 1, every index that [np.random.choice] returns is an
    index of the probability vector. *)
Lemma np_random_choice_in_range G w size p rs w' :
  rand_in_unit G ->
  np_random_choice G w size p = (Ok rs, w') ->
  Forall (fun r => r < length p) rs.
Proof.
  intros HG Hc. apply np_random_choice_Ok in Hc as (Hsz & -> & _ & Hpos & Hsum).
  pose proof (sum_near_one_nonzero _ Hsum) as Hnz.
  assert (Hne : p ≠ []) by (intros ->; by apply Hnz).
  assert (Hcne : cumsum_from 0 p ≠ []) by (by destruct p).
  set (S := List.last (cumsum_from 0 p) 0%R).
  assert (HS : S = Rsum p) by (unfold S; rewrite last_cumsum_from by done; lra).
  assert (HS0 : S ≠ 0%R) by (by rewrite HS).
  apply Forall_forall. intros r Hr.
  apply list_elem_of_fmap in Hr as (u & -> & Hu).
  pose proof (random_sample_in_unit G (Z.to_nat size) w HG) as Hus.
  rewrite Forall_forall in Hus. specialize (Hus u Hu).
  unfold searchsorted_right.
  replace (length p) with (length (map (fun c => (c / S)%R) (cumsum_from 0 p)))
    by (by rewrite length_map, cumsum_from_length).
  apply (filter_length_lt_last _ _ (0 / S)%R).
  - by destruct (cumsum_from 0 p).
  - rewrite (last_map (fun c => (c / S)%R)) by done. fold S.
    replace (S / S)%R with 1%R by (field; done). lra.
Qed.

Lemma tally_foldl_keys width rs (m : gmap string nat) key c :
  foldl (fun counts r =>
           let b := format_0b width r in
           <[b := default 0 (counts !! b) + 1]> counts) m rs !! key = Some c ->
  m !! key = Some c \/ (0 < c /\ exists r, In r rs /\ key = format_0b width r).
Proof.
  revert m. induction rs as [|r rs IH]; intros m; cbn [foldl]; [by left|].
  intros Hk. apply IH in Hk as [Hk|(Hc & r' & Hr' & ->)].
  - cbv zeta in Hk. destruct (decide (format_0b width r = key)) as [<-|Hne].
    + rewrite lookup_insert_eq in Hk. injection Hk as <-.
      right. split; [lia|]. exists r. split; [by left|done].
    + rewrite lookup_insert_ne in Hk by done. by left.
  - right. split; [done|]. exists r'. split; [by right|done].
Qed.

Section CountKeys.
Context (G : NumpyRandom).

Lemma run_gates_counts n shots gs state w counts w' :
  length state = 2 ^ n ->
  run_gates G n None shots gs state w = (Ok (Counts counts), w') ->
  exists state' w1, length state' = 2 ^ n
    /\ measure G n shots state' w1 = (Ok (Counts counts), w').
Proof.
  revert state. induction gs as [|g gs IH]; intros state Hs Hrun.
  - simpl in Hrun. done.
  - cbn [run_gates] in Hrun.
    destruct (gate_step n g state) as [[state'|]|e] eqn:E; [| |done].
    + cbn [apply_noise] in Hrun. apply (IH state'); [|done].
      by apply (gate_step_length n g state).
    + by exists state, w.
Qed.

End CountKeys.

(** X16.  Without a noise hook and with a generator whose draws lie in
    [[0, 1)], every key of the counts that [run] returns is the binary label
    of an index below [2^n], and its count is positive. *)
Theorem count_keys_are_labels (G : NumpyRandom) (circuit : QuantumCircuit)
    (seed : option Z) (shots : Z) (w0 w w' : rng_state G)
    (self : StatevectorSimulator G) (counts : gmap string nat)
    (key : string) (c : nat) :
  rand_in_unit G ->
  fst (__init__ G circuit None seed w0) = Ok self ->
  run G self shots w = (Ok (Counts counts), w') ->
  counts !! key = Some c ->
  0 < c /\ exists i, i < 2 ^ sim_num_qubits G self
                     /\ key = format_0b (sim_num_qubits G self) i.
Proof.
  intros HG Hinit Hrun Hkey.
  destruct (init_ok G _ _ _ _ _ Hinit) as (Hc & Hh & Hst).
  unfold run in Hrun. rewrite Hh, Hst in Hrun.
  apply run_gates_counts in Hrun as (state' & w1 & Hlen & Hm);
    [|apply ground_state_length].
  unfold measure in Hm.
  destruct (np_random_choice G w1 shots _) as [[rs|e] w2] eqn:E; [|done].
  injection Hm as <- <-.
  apply (np_random_choice_in_range G _ _ _ _ _ HG) in E.
  rewrite length_map, Hlen in E.
  unfold tally in Hkey. apply tally_foldl_keys in Hkey as [Hk|(Hc0 & r & Hr & ->)].
  - by rewrite lookup_empty in Hk.
  - split; [done|]. exists r. split; [|done].
    rewrite Forall_forall in E. apply E. by apply list_elem_of_In.
Qed.

Lemma Cmult_minus_one z : Cmult z (RtoC (-1)) = Copp z.
Proof. destruct z as [a b]. unfold Cmult, Copp, RtoC. cbn [fst snd]. f_equal; ring. Qed.

Lemma Cnorm2_opp z : Cnorm2 (Copp z) = Cnorm2 z.
Proof. destruct z as [a b]. unfold Cnorm2, Copp. cbn [fst snd]. ring. Qed.

Lemma Cnorm2_mult_i z : Cnorm2 (Cmult Ci z) = Cnorm2 z.
Proof. destruct z as [a b]. unfold Cnorm2, Cmult, Ci. cbn [fst snd]. ring. Qed.

Lemma norm_sq_of_probabilities v w : map Cnorm2 v = map Cnorm2 w -> norm_sq v = norm_sq w.
Proof. unfold norm_sq. by intros ->. Qed.

(** Exchanging two entries of a list permutes it. *)
Lemma exchange_Permutation {A} (l : list A) i j x y :
  l !! i = Some x -> l !! j = Some y -> <[j := x]> (<[i := y]> l) ≡ₚ l.
Proof.
  intros Hi Hj.
  pose proof (lookup_lt_Some _ _ _ Hi) as Hil.
  pose proof (lookup_lt_Some _ _ _ Hj) as Hjl.
  set (f := fun o => if o =? j then i else if o =? i then j else o).
  assert (E : <[j := x]> (<[i := y]> l) = map (fun o => nth (f o) l x) (seq 0 (length l))).
  { apply (nth_ext _ _ x x); [by rewrite !length_insert, length_map, length_seq|].
    intros m Hm. rewrite !length_insert in Hm.
    rewrite nth_insert by (by rewrite length_insert).
    rewrite nth_insert by done. rewrite nth_map_seq by done. unfold f.
    destruct (Nat.eqb_spec m j) as [->|Hmj].
    - by rewrite (nth_lookup_Some _ _ _ _ Hi).
    - destruct (Nat.eqb_spec m i) as [->|Hmi]; [|done].
      by rewrite (nth_lookup_Some _ _ _ _ Hj). }
  rewrite E. apply involution_gather_Permutation; [| |done].
  - intros o Ho. unfold f. destruct (o =? j); [done|]. by destruct (o =? i).
  - intros o. unfold f.
    destruct (Nat.eqb_spec o j) as [->|Hoj].
    + destruct (Nat.eqb_spec i j) as [->|Hij]; [done|]. by rewrite Nat.eqb_refl.
    + destruct (Nat.eqb_spec o i) as [->|Hoi].
      * by rewrite Nat.eqb_refl.
      * rewrite (proj2 (Nat.eqb_neq o j)) by done.
        by rewrite (proj2 (Nat.eqb_neq o i)) by done.
Qed.

Lemma np_index_Ok {A} (l : list A) i x : np_index l i = Ok x -> l !! i = Some x.
Proof.
  unfold np_index. destruct (l !! i); [by intros [= ->]|].
  by destruct (2 ^ 63 <=? _)%Z.
Qed.

Section NoiseFacts.
Context (G : NumpyRandom).

Lemma bit_flip_loop_Permutation p target idx new_state w new w' :
  bit_flip_loop G p target idx new_state w = (Ok new, w') -> new ≡ₚ new_state.
Proof.
  revert new_state w. induction idx as [|i idx IH]; intros ns w; cbn [bit_flip_loop].
  - by intros [= <- <-].
  - destruct (np_random_rand G w) as [u w1].
    destruct (Rlt_dec u p); [|apply IH].
    destruct (py_lshift 1 target) as [m|e]; cbn [mbind result_bind]; [|done].
    destruct (np_index ns (Nat.lxor i m)) as [nj|e] eqn:Ej; cbn [mbind result_bind]; [|done].
    destruct (np_index ns i) as [ni|e] eqn:Ei; cbn [mbind result_bind]; [|done].
    intros Hrest. apply IH in Hrest. rewrite Hrest.
    apply exchange_Permutation; by apply np_index_Ok.
Qed.

Lemma bit_flip_Permutation state p target w new w' :
  bit_flip G state p target w = (Ok new, w') -> new ≡ₚ state.
Proof.
  unfold bit_flip. destruct (length state =? 0); [done|].
  apply bit_flip_loop_Permutation.
Qed.

Lemma bit_flip_loop_total n p target idx new_state w :
  length new_state = 2 ^ n -> (0 <= target < Z.of_nat n)%Z ->
  Forall (fun i => i < 2 ^ n) idx ->
  exists new w', bit_flip_loop G p target idx new_state w = (Ok new, w').
Proof.
  intros Hlen Ht. revert new_state w Hlen.
  induction idx as [|i idx IH]; intros ns w Hlen Hidx; cbn [bit_flip_loop].
  - by eexists _, _.
  - inversion Hidx as [|? ? Hi Hrest]; subst.
    destruct (np_random_rand G w) as [u w1].
    destruct (Rlt_dec u p); [|by apply IH].
    rewrite py_lshift_1_ok by lia. cbn [mbind result_bind].
    rewrite (np_index_nth _ (Nat.lxor i _) C0).
    2:{ rewrite Hlen. apply lxor_lt_pow2; [done|]. apply pow2_lt_pow2. lia. }
    cbn [mbind result_bind]. rewrite (np_index_nth _ i C0) by lia.
    cbn [mbind result_bind]. apply IH; [|done]. by rewrite !length_insert.
Qed.

End NoiseFacts.

(** X17.  On a state of [2^n] amplitudes and a target in range, [bit_flip]
    returns, for every probability [p] and every generator, a rearrangement
    of the amplitudes it was given: no amplitude is lost or duplicated and
    the norm is kept. *)
Theorem bit_flip_permutes (G : NumpyRandom) (n : nat) (state : list C) (p : R)
    (target : Z) (w : rng_state G) :
  length state = 2 ^ n -> (0 <= target < Z.of_nat n)%Z ->
  exists new w', bit_flip G state p target w = (Ok new, w')
                 /\ new ≡ₚ state /\ norm_sq new = norm_sq state.
Proof.
  intros Hs Ht.
  destruct (bit_flip_loop_total G n p target (seq 0 (length state)) state w Hs Ht)
    as (new & w' & Hloop).
  { apply Forall_forall. intros i Hi. apply elem_of_seq in Hi. lia. }
  assert (Hb : bit_flip G state p target w = (Ok new, w')).
  { unfold bit_flip. rewrite Hs at 1.
    by rewrite (proj2 (Nat.eqb_neq (2 ^ n) 0)) by (apply Nat.pow_nonzero; lia). }
  exists new, w'. split; [done|].
  pose proof (bit_flip_Permutation G _ _ _ _ _ _ Hb) as Hp.
  split; [done|]. by apply norm_sq_Permutation.
Qed.

Lemma bit_flip_permutes_witness :
  exists new w', bit_flip sample_generator [C1; C0; C0; C0] (1 / 2) 1 0 = (Ok new, w')
                 /\ new ≡ₚ [C1; C0; C0; C0] /\ norm_sq new = norm_sq [C1; C0; C0; C0].
Proof.
  apply (bit_flip_permutes sample_generator 2 [C1; C0; C0; C0] (1 / 2) 1 0);
    [reflexivity|lia].
Defined.

Lemma nth_imap {A B} (f : nat -> A -> B) (l : list A) i d d' :
  i < length l -> nth i (imap f l) d' = f i (nth i l d).
Proof.
  intros Hi. rewrite nth_lookup, list_lookup_imap.
  destruct (lookup_lt_is_Some_2 l i Hi) as [x Hx].
  rewrite Hx. cbn. by rewrite (nth_lookup_Some _ _ _ _ Hx).
Qed.

Section PhaseFlip.
Context (G : NumpyRandom).

Lemma phase_flip_loop_probabilities p target idx new_state w new w' :
  phase_flip_loop G p target idx new_state w = (Ok new, w') ->
  map Cnorm2 new = map Cnorm2 new_state.
Proof.
  revert new_state w. induction idx as [|i idx IH]; intros ns w; cbn [phase_flip_loop].
  - by intros [= <- <-].
  - destruct (py_rshift i target) as [s|e]; [|done].
    destruct (Nat.land s 1 =? 1); [|apply IH].
    destruct (np_random_rand G w) as [u w1].
    destruct (Rlt_dec u p); [|apply IH].
    destruct (np_index ns i) as [ni|e] eqn:Ei; cbn [mbind result_bind]; [|done].
    intros Hrest. apply IH in Hrest. rewrite Hrest.
    apply np_index_Ok in Ei.
    change (Cnorm2 <$> <[i := Cmult ni (RtoC (-1))]> ns = Cnorm2 <$> ns).
    rewrite list_fmap_insert, Cmult_minus_one, Cnorm2_opp.
    apply list_insert_id. by rewrite list_lookup_fmap, Ei.
Qed.

Lemma phase_flip_probabilities_Ok state p target w new w' :
  phase_flip G state p target w = (Ok new, w') -> map Cnorm2 new = map Cnorm2 state.
Proof.
  unfold phase_flip. destruct (length state =? 0); [done|].
  apply phase_flip_loop_probabilities.
Qed.

Lemma phase_flip_loop_total p target idx new_state w :
  (0 <= target)%Z -> Forall (fun i => i < length new_state) idx ->
  exists new w', phase_flip_loop G p target idx new_state w = (Ok new, w').
Proof.
  intros Ht. revert new_state w.
  induction idx as [|i idx IH]; intros ns w Hidx; cbn [phase_flip_loop].
  - by eexists _, _.
  - inversion Hidx as [|? ? Hi Hrest]; subst.
    rewrite py_rshift_ok by done.
    destruct (Nat.land _ 1 =? 1); [|by apply IH].
    destruct (np_random_rand G w) as [u w1].
    destruct (Rlt_dec u p); [|by apply IH].
    rewrite (np_index_nth _ i C0) by done. cbn [mbind result_bind].
    apply IH. by rewrite length_insert.
Qed.

(** The state while [phase_flip] with every draw below [p] is at index [k]. *)
Lemma phase_flip_loop_full (t : nat) state r k w :
  rand_in_unit G -> k + r = length state ->
  fst (phase_flip_loop G 1 (Z.of_nat t) (seq k r)
         (imap (fun i z => if (i <? k) && Nat.testbit i t then Copp z else z) state) w)
  = Ok (phase_flipped t state).
Proof.
  intros HG. revert k w. induction r as [|r IH]; intros k w Hk.
  - cbn [seq phase_flip_loop fst]. f_equal. unfold phase_flipped.
    apply imap_ext. intros i z Hi. cbv beta.
    apply lookup_lt_Some in Hi.
    by rewrite (proj2 (Nat.ltb_lt i k)) by lia.
  - cbn [seq phase_flip_loop]. rewrite py_rshift_ok by lia.
    rewrite Nat2Z.id, land_shiftr_1.
    assert (Hnext : forall b, Nat.testbit k t = b ->
              <[k := if b then Copp (nth k state C0) else nth k state C0]>
                (imap (fun i z => if (i <? k) && Nat.testbit i t then Copp z else z) state)
              = imap (fun i z => if (i <? S k) && Nat.testbit i t then Copp z else z) state).
    { intros b Hb. apply (nth_ext _ _ C0 C0); [by rewrite length_insert, !length_imap|].
      intros m Hm. rewrite length_insert, length_imap in Hm.
      rewrite nth_insert by (rewrite length_imap; lia).
      rewrite !(nth_imap _ _ _ C0) by done.
      destruct (Nat.eqb_spec m k) as [->|Hne].
      - rewrite (proj2 (Nat.ltb_lt k (S k))) by lia. by rewrite Hb.
      - by rewrite (ltb_succ_ne m k). }
    destruct (Nat.testbit k t) eqn:Eb; cbn [Nat.b2n Nat.eqb].
    + pose proof (HG w) as Hu. destruct (np_random_rand G w) as [u w1]. cbn [fst] in Hu.
      destruct (Rlt_dec u 1) as [_|Hn]; [|exfalso; apply Hn; lra].
      rewrite (np_index_nth _ k C0) by (rewrite length_imap; lia).
      cbn [mbind result_bind].
      rewrite (nth_imap _ _ _ C0) by lia. rewrite (proj2 (Nat.ltb_ge k k)) by lia. cbn [andb].
      rewrite Cmult_minus_one.
      rewrite (Hnext true eq_refl). apply IH. lia.
    + pose proof (Hnext false eq_refl) as Hn.
      rewrite list_insert_id in Hn.
      2:{ rewrite list_lookup_imap.
          destruct (lookup_lt_is_Some_2 state k ltac:(lia)) as [x Hx].
          rewrite Hx. cbn [fmap option_fmap option_map]. rewrite (proj2 (Nat.ltb_ge k k)) by lia. cbn [andb].
          by rewrite (nth_lookup_Some _ _ _ _ Hx). }
      rewrite Hn. apply IH. lia.
Qed.

End PhaseFlip.

(** X18.  [phase_flip] never changes a probability: whatever [p], the
    target and the draws, the array it returns has at every index an
    amplitude of the same squared modulus as the input; for a target that
    is not negative it does return an array. *)
Theorem phase_flip_keeps_probabilities (G : NumpyRandom) (state : list C) (p : R)
    (target : Z) (w : rng_state G) :
  state <> [] -> (0 <= target)%Z ->
  exists new w', phase_flip G state p target w = (Ok new, w')
                 /\ map Cnorm2 new = map Cnorm2 state.
Proof.
  intros Hs Ht.
  destruct (phase_flip_loop_total G p target (seq 0 (length state)) state w Ht)
    as (new & w' & Hloop).
  { apply Forall_forall. intros i Hi. apply elem_of_seq in Hi. lia. }
  assert (Hb : phase_flip G state p target w = (Ok new, w')).
  { unfold phase_flip. destruct state; [done|]. exact Hloop. }
  exists new, w'. split; [done|]. by apply (phase_flip_probabilities_Ok G _ _ _ _ _ _ Hb).
Qed.

Lemma phase_flip_keeps_probabilities_witness :
  exists new w', phase_flip sample_generator [C0; C1] (1 / 2) 0 0 = (Ok new, w')
                 /\ map Cnorm2 new = map Cnorm2 [C0; C1].
Proof.
  apply (phase_flip_keeps_probabilities sample_generator [C0; C1] (1 / 2) 0 0);
    [discriminate|lia].
Defined.

(** X19.  With [p = 1] and draws in [[0, 1)], [phase_flip] negates exactly
    the amplitudes whose index has bit [target] set (bit 0 is the least
    significant), on a state of any positive length. *)
Theorem phase_flip_p1_negates (G : NumpyRandom) (state : list C) (target : Z)
    (w : rng_state G) :
  rand_in_unit G -> state <> [] -> (0 <= target)%Z ->
  fst (phase_flip G state 1 target w) = Ok (phase_flipped (Z.to_nat target) state).
Proof.
  intros HG Hs Ht. unfold phase_flip.
  replace (length state =? 0) with false by (by destruct state).
  pose proof (phase_flip_loop_full G (Z.to_nat target) state (length state) 0 w HG
                eq_refl) as Hloop.
  rewrite Z2Nat.id in Hloop by done.
  rewrite <- Hloop. do 3 f_equal.
  apply (nth_ext _ _ C0 C0); [by rewrite length_imap|].
  intros m Hm. by rewrite (nth_imap _ _ _ C0).
Qed.

Lemma phase_flip_p1_negates_witness :
  fst (phase_flip sample_generator [C1; C1; C1; C1] 1 1 0)
  = Ok (phase_flipped 1 [C1; C1; C1; C1]).
Proof.
  apply (phase_flip_p1_negates sample_generator [C1; C1; C1; C1] 1 0);
    [exact sample_generator_in_unit|discriminate|lia].
Defined.

Lemma Cplus_0_r z : Cplus z C0 = z.
Proof. destruct z as [a b]. unfold Cplus, C0, RtoC. cbn [fst snd]. f_equal; ring. Qed.

Lemma land_pow2_clear m t : Nat.testbit m t = false -> Nat.land m (2 ^ t) = 0.
Proof.
  intros Hm. apply Nat.bits_inj. intros k.
  rewrite Nat.land_spec, Nat.pow2_bits_eqb, Nat.bits_0.
  destruct (Nat.eqb_spec t k) as [<-|_]; [by rewrite Hm|by rewrite andb_false_r].
Qed.

Lemma add_pow2_clear m t : Nat.testbit m t = false -> m + 2 ^ t = Nat.lxor m (2 ^ t).
Proof. intros Hm. apply Nat.add_nocarry_lxor. by apply land_pow2_clear. Qed.

Lemma testbit_add_pow2 m t : Nat.testbit m t = false -> Nat.testbit (m + 2 ^ t) t = true.
Proof.
  intros Hm. rewrite add_pow2_clear by done.
  by rewrite Nat.lxor_spec, Hm, Nat.pow2_bits_eqb, Nat.eqb_refl.
Qed.

Lemma ldiff_pow2_clear k t : Nat.testbit (Nat.ldiff k (2 ^ t)) t = false.
Proof.
  by rewrite Nat.ldiff_spec, Nat.pow2_bits_eqb, Nat.eqb_refl, andb_false_r.
Qed.

Lemma ldiff_pow2_add k t :
  Nat.testbit k t = true -> Nat.ldiff k (2 ^ t) + 2 ^ t = k.
Proof.
  intros Hk. rewrite add_pow2_clear by apply ldiff_pow2_clear.
  apply Nat.bits_inj. intros m.
  rewrite Nat.lxor_spec, Nat.ldiff_spec, Nat.pow2_bits_eqb.
  destruct (Nat.eqb_spec t m) as [<-|_].
  - rewrite Hk. done.
  - cbn [negb]. by rewrite andb_true_r, xorb_false_r.
Qed.

Section AmplitudeDamping.
Context (G : NumpyRandom).

Lemma amplitude_damping_loop_total p target idx new_state w :
  (0 <= target)%Z -> Forall (fun i => i < length new_state) idx ->
  exists new w', amplitude_damping_loop G p target idx new_state w = (Ok new, w').
Proof.
  intros Ht. revert new_state w.
  induction idx as [|i idx IH]; intros ns w Hidx; cbn [amplitude_damping_loop].
  - by eexists _, _.
  - inversion Hidx as [|? ? Hi Hrest]; subst.
    rewrite py_rshift_ok by done. rewrite land_shiftr_1.
    destruct (Nat.testbit i (Z.to_nat target)) eqn:Eb; cbn [Nat.b2n Nat.eqb];
      [|by apply IH].
    destruct (np_random_rand G w) as [u w1].
    destruct (Rlt_dec u p); [|by apply IH].
    rewrite py_lshift_1_ok by done. cbn [mbind result_bind]. cbv zeta.
    pose proof (ldiff_pow2_add i _ Eb) as Hj.
    rewrite (np_index_nth _ (Nat.ldiff i _) C0) by lia. cbn [mbind result_bind].
    rewrite (np_index_nth _ i C0) by done. cbn [mbind result_bind].
    apply IH. by rewrite !length_insert.
Qed.

(** The state while [amplitude_damping] with every draw below [p] is at
    index [k]. *)
Lemma amplitude_damping_loop_full (t : nat) state r k w :
  rand_in_unit G -> k + r = length state ->
  fst (amplitude_damping_loop G 1 (Z.of_nat t) (seq k r)
         (imap (fun i z =>
                  if Nat.testbit i t then (if i <? k then C0 else z)
                  else if i + 2 ^ t <? k then Cplus z (nth (i + 2 ^ t) state C0)
                       else z) state) w)
  = Ok (fully_damped t state).
Proof.
  intros HG. revert k w. induction r as [|r IH]; intros k w Hk.
  - cbn [seq amplitude_damping_loop fst]. f_equal. unfold fully_damped.
    apply imap_ext. intros i z Hi. cbv beta.
    apply lookup_lt_Some in Hi.
    rewrite (proj2 (Nat.ltb_lt i k)) by lia.
    destruct (Nat.testbit i t); [done|].
    destruct (Nat.ltb_spec (i + 2 ^ t) k) as [?|Hge]; [done|].
    rewrite (nth_overflow state) by lia. by rewrite Cplus_0_r.
  - cbn [seq amplitude_damping_loop]. rewrite py_rshift_ok by lia.
    rewrite Nat2Z.id, land_shiftr_1.
    set (inv := fun k => imap (fun i z =>
                  if Nat.testbit i t then (if i <? k then C0 else z)
                  else if i + 2 ^ t <? k then Cplus z (nth (i + 2 ^ t) state C0)
                       else z) state).
    change (imap _ state) with (inv k).
    assert (Hlen : forall k, length (inv k) = length state)
      by (intros; unfold inv; by rewrite length_imap).
    assert (Hnth : forall k m, m < length state ->
              nth m (inv k) C0
              = if Nat.testbit m t then (if m <? k then C0 else nth m state C0)
                else if m + 2 ^ t <? k
                     then Cplus (nth m state C0) (nth (m + 2 ^ t) state C0)
                     else nth m state C0).
    { intros k' m Hm. unfold inv. by rewrite (nth_imap _ _ _ C0). }
    destruct (Nat.testbit k t) eqn:Eb; cbn [Nat.b2n Nat.eqb].
    + pose proof (HG w) as Hu. destruct (np_random_rand G w) as [u w1]. cbn [fst] in Hu.
      destruct (Rlt_dec u 1) as [_|Hn]; [|exfalso; apply Hn; lra].
      rewrite py_lshift_1_ok by lia. cbn [mbind result_bind]. cbv zeta.
      rewrite Nat2Z.id.
      pose proof (ldiff_pow2_add k t Eb) as Hj.
      pose proof (ldiff_pow2_clear k t) as Hjc.
      set (j := Nat.ldiff k (2 ^ t)) in *.
      assert (Hpos : 0 < 2 ^ t) by (pose proof (Nat.pow_nonzero 2 t); lia).
      rewrite (np_index_nth _ j C0) by (rewrite Hlen; lia). cbn [mbind result_bind].
      rewrite (np_index_nth _ k C0) by (rewrite Hlen; lia). cbn [mbind result_bind].
      replace (<[k := C0]> (<[j := Cplus (nth j (inv k) C0) (nth k (inv k) C0)]> (inv k)))
        with (inv (S k)); [apply IH; lia|].
      apply (nth_ext _ _ C0 C0); [by rewrite !length_insert, !Hlen|].
      intros m Hm. rewrite Hlen in Hm.
      rewrite nth_insert by (rewrite length_insert, Hlen; lia).
      rewrite nth_insert by (rewrite Hlen; lia).
      rewrite !Hnth by lia. rewrite Hjc, Eb, Hj.
      rewrite (proj2 (Nat.ltb_ge k k)) by lia.
      destruct (Nat.eqb_spec m k) as [->|Hmk].
      * rewrite Eb. by rewrite (proj2 (Nat.ltb_lt k (S k))) by lia.
      * destruct (Nat.eqb_spec m j) as [->|Hmj].
        -- rewrite Hjc, Hj. by rewrite (proj2 (Nat.ltb_lt k (S k))) by lia.
        -- rewrite (ltb_succ_ne m k) by done.
           destruct (Nat.testbit m t) eqn:Em; [done|].
           rewrite (ltb_succ_ne (m + 2 ^ t) k); [done|].
           intros E. apply Hmj. unfold j in Hj. lia.
    + replace (inv k) with (inv (S k)); [apply IH; lia|].
      unfold inv. apply imap_ext. intros m z Hm. cbv beta.
      destruct (Nat.testbit m t) eqn:Em.
      * destruct (Nat.eqb_spec m k) as [->|Hmk]; [congruence|].
        by rewrite (ltb_succ_ne m k).
      * rewrite (ltb_succ_ne (m + 2 ^ t) k); [done|].
        intros E. pose proof (testbit_add_pow2 m t Em) as Hb. rewrite E in Hb. congruence.
Qed.

End AmplitudeDamping.

Lemma amplitude_damping_total (G : NumpyRandom) (state : list C) (p : R)
    (target : Z) (w : rng_state G) :
  state <> [] -> (0 <= target)%Z ->
  exists new w', amplitude_damping G state p target w = (Ok new, w').
Proof.
  intros Hs Ht.
  destruct (amplitude_damping_loop_total G p target (seq 0 (length state)) state w Ht)
    as (new & w' & Hloop).
  { apply Forall_forall. intros i Hi. apply elem_of_seq in Hi. lia. }
  exists new, w'. unfold amplitude_damping.
  by replace (length state =? 0) with false by (by destruct state).
Qed.

Lemma phase_flip_total (G : NumpyRandom) (state : list C) (p : R)
    (target : Z) (w : rng_state G) :
  state <> [] -> (0 <= target)%Z ->
  exists new w', phase_flip G state p target w = (Ok new, w').
Proof.
  intros Hs Ht.
  destruct (phase_flip_loop_total G p target (seq 0 (length state)) state w Ht)
    as (new & w' & Hloop).
  { apply Forall_forall. intros i Hi. apply elem_of_seq in Hi. lia. }
  exists new, w'. unfold phase_flip.
  by replace (length state =? 0) with false by (by destruct state).
Qed.

Lemma ldiff_pow2_sub k t : Nat.testbit k t = true -> Nat.ldiff k (2 ^ t) = k - 2 ^ t.
Proof. intros Hk. pose proof (ldiff_pow2_add k t Hk). lia. Qed.

Lemma testbit_sub_pow2 k t : Nat.testbit k t = true -> Nat.testbit (k - 2 ^ t) t = false.
Proof. intros Hk. rewrite <- ldiff_pow2_sub by done. apply ldiff_pow2_clear. Qed.

Lemma pow2_le_testbit k t : Nat.testbit k t = true -> 2 ^ t <= k.
Proof. intros Hk. pose proof (ldiff_pow2_add k t Hk). lia. Qed.

Section DampingPairs.
Context (G : NumpyRandom).

(** The loop of [amplitude_damping] at index [k]: the pairs below [k] are
    done, the others are as they came. *)
Lemma amplitude_damping_loop_pairs (p : R) (t : nat) state r k ns w new w' :
  k + r = length state -> length ns = length state ->
  (forall i, i < length state -> Nat.testbit i t = true ->
     if i <? k then damped_pair t state ns i
     else nth i ns C0 = nth i state C0
          /\ nth (i - 2 ^ t) ns C0 = nth (i - 2 ^ t) state C0) ->
  (forall j, j < length state -> Nat.testbit j t = false ->
     length state <= j + 2 ^ t -> nth j ns C0 = nth j state C0) ->
  amplitude_damping_loop G p (Z.of_nat t) (seq k r) ns w = (Ok new, w') ->
  length new = length state
  /\ (forall i, i < length state -> Nat.testbit i t = true -> damped_pair t state new i)
  /\ (forall j, j < length state -> Nat.testbit j t = false ->
        length state <= j + 2 ^ t -> nth j new C0 = nth j state C0).
Proof.
  revert k ns w. induction r as [|r IH]; intros k ns w Hk Hlen Hpairs Hlone.
  - cbn [seq amplitude_damping_loop]. intros [= <- <-]. split; [done|]. split; [|done].
    intros i Hi Hb. specialize (Hpairs i Hi Hb).
    by rewrite (proj2 (Nat.ltb_lt i k)) in Hpairs by lia.
  - cbn [seq amplitude_damping_loop]. rewrite py_rshift_ok by lia.
    rewrite Nat2Z.id, land_shiftr_1.
    assert (Hkeep : forall w1,
              amplitude_damping_loop G p (Z.of_nat t) (seq (S k) r) ns w1 = (Ok new, w') ->
              length new = length state
              /\ (forall i, i < length state -> Nat.testbit i t = true ->
                    damped_pair t state new i)
              /\ (forall j, j < length state -> Nat.testbit j t = false ->
                    length state <= j + 2 ^ t -> nth j new C0 = nth j state C0)).
    { intros w1. apply IH; [lia|done| |done].
      intros i Hi Hb. specialize (Hpairs i Hi Hb).
      destruct (Nat.eqb_spec i k) as [->|Hne].
      - rewrite (proj2 (Nat.ltb_ge k k)) in Hpairs by lia.
        rewrite (proj2 (Nat.ltb_lt k (S k))) by lia. by left.
      - by rewrite (ltb_succ_ne i k). }
    destruct (Nat.testbit k t) eqn:Eb; cbn [Nat.b2n Nat.eqb].
    2:{ apply IH; [lia|done| |done].
        intros i Hi Hb. specialize (Hpairs i Hi Hb).
        destruct (Nat.eqb_spec i k) as [->|Hne]; [congruence|].
        by rewrite (ltb_succ_ne i k). }
    destruct (np_random_rand G w) as [u w1].
    destruct (Rlt_dec u p); [|apply Hkeep].
    rewrite py_lshift_1_ok by lia. cbn [mbind result_bind]. cbv zeta.
    rewrite Nat2Z.id, ldiff_pow2_sub by done.
    pose proof (pow2_le_testbit k t Eb) as Hge.
    assert (Hpos : 0 < 2 ^ t) by (pose proof (Nat.pow_nonzero 2 t); lia).
    pose proof (testbit_sub_pow2 k t Eb) as Hjc.
    set (j := k - 2 ^ t) in *.
    rewrite (np_index_nth _ j C0) by lia. cbn [mbind result_bind].
    rewrite (np_index_nth _ k C0) by lia. cbn [mbind result_bind].
    pose proof (Hpairs k ltac:(lia) Eb) as Hk0.
    rewrite (proj2 (Nat.ltb_ge k k)) in Hk0 by lia. fold j in Hk0.
    destruct Hk0 as [Hkk Hkj]. rewrite Hkk, Hkj.
    assert (Hnth : forall m, m < length state ->
              nth m (<[k := C0]> (<[j := Cplus (nth j state C0) (nth k state C0)]> ns)) C0
              = if m =? k then C0
                else if m =? j then Cplus (nth j state C0) (nth k state C0)
                     else nth m ns C0).
    { intros m Hm. rewrite nth_insert by (rewrite length_insert; lia).
      destruct (m =? k); [done|]. by rewrite nth_insert by lia. }
    apply IH; [lia|by rewrite !length_insert| |].
    + intros i Hi Hb. specialize (Hpairs i Hi Hb).
      pose proof (pow2_le_testbit i t Hb) as Hgi.
      pose proof (testbit_sub_pow2 i t Hb) as Hic.
      destruct (Nat.eqb_spec i k) as [->|Hne].
      * rewrite (proj2 (Nat.ltb_lt k (S k))) by lia. right. fold j.
        rewrite !Hnth by lia. rewrite Nat.eqb_refl.
        rewrite (proj2 (Nat.eqb_neq j k)) by lia. by rewrite Nat.eqb_refl.
      * rewrite (ltb_succ_ne i k) by done.
        assert (Hij : i <> j) by (intros ->; congruence).
        assert (Hik : i - 2 ^ t <> k) by (intros E; rewrite E in Hic; congruence).
        assert (Hijj : i - 2 ^ t <> j) by (unfold j; lia).
        unfold damped_pair in *. cbv zeta in *.
        rewrite !Hnth by lia.
        rewrite (proj2 (Nat.eqb_neq i k)), (proj2 (Nat.eqb_neq i j)) by done.
        rewrite (proj2 (Nat.eqb_neq (i - 2 ^ t) k)) by done.
        by rewrite (proj2 (Nat.eqb_neq (i - 2 ^ t) j)) by done.
    + intros m Hm Hb Hout. rewrite Hnth by done.
      assert (m <> k) by (intros ->; congruence).
      assert (m <> j) by (unfold j; lia).
      rewrite (proj2 (Nat.eqb_neq m k)), (proj2 (Nat.eqb_neq m j)) by done.
      by apply Hlone.
Qed.

End DampingPairs.

(** X20.  Whatever [p] and the draws, [amplitude_damping] works pair by
    pair: for a target that is not negative it returns an array of the same
    length in which, for every index [i] whose bit [target] is set, either
    the entries at [i] and at [i - 2^target] are both as they were, or the
    entry at [i] is 0 and the entry at [i - 2^target] is the sum of the two
    (partner first); an entry that has no partner in the array is kept. *)
Theorem amplitude_damping_moves_pairs (G : NumpyRandom) (state : list C) (p : R)
    (target : Z) (w : rng_state G) :
  state <> [] -> (0 <= target)%Z ->
  exists new w',
    amplitude_damping G state p target w = (Ok new, w')
    /\ length new = length state
    /\ (forall i, i < length state -> Nat.testbit i (Z.to_nat target) = true ->
          damped_pair (Z.to_nat target) state new i)
    /\ (forall j, j < length state -> Nat.testbit j (Z.to_nat target) = false ->
          length state <= j + 2 ^ Z.to_nat target -> nth j new C0 = nth j state C0).
Proof.
  intros Hs Ht.
  destruct (amplitude_damping_total G state p target w Hs Ht) as (new & w' & Hnew).
  exists new, w'. split; [done|].
  unfold amplitude_damping in Hnew.
  replace (length state =? 0) with false in Hnew by (by destruct state).
  rewrite <- (Z2Nat.id target) in Hnew by done.
  apply (amplitude_damping_loop_pairs G p (Z.to_nat target) state (length state) 0
           state w new w'); done.
Qed.

Lemma amplitude_damping_moves_pairs_witness :
  exists new w',
    amplitude_damping sample_generator [C0; C1] (1 / 2) 0 0 = (Ok new, w')
    /\ length new = length [C0; C1]
    /\ (forall i, i < length [C0; C1] -> Nat.testbit i (Z.to_nat 0) = true ->
          damped_pair (Z.to_nat 0) [C0; C1] new i)
    /\ (forall j, j < length [C0; C1] -> Nat.testbit j (Z.to_nat 0) = false ->
          length [C0; C1] <= j + 2 ^ Z.to_nat 0 -> nth j new C0 = nth j [C0; C1] C0).
Proof.
  apply (amplitude_damping_moves_pairs sample_generator [C0; C1] (1 / 2) 0 0);
    [discriminate|lia].
Defined.

(** X21.  With [p = 1] and draws in [[0, 1)], [amplitude_damping] moves
    every amplitude whose index has bit [target] set onto the index with
    that bit cleared: the entry with the bit set becomes 0 and its partner
    becomes the sum of the two. *)
Theorem amplitude_damping_p1_moves (G : NumpyRandom) (state : list C) (target : Z)
    (w : rng_state G) :
  rand_in_unit G -> state <> [] -> (0 <= target)%Z ->
  fst (amplitude_damping G state 1 target w) = Ok (fully_damped (Z.to_nat target) state).
Proof.
  intros HG Hs Ht. unfold amplitude_damping.
  replace (length state =? 0) with false by (by destruct state).
  pose proof (amplitude_damping_loop_full G (Z.to_nat target) state (length state) 0 w HG
                eq_refl) as Hloop.
  rewrite Z2Nat.id in Hloop by done.
  rewrite <- Hloop. do 3 f_equal.
  apply (nth_ext _ _ C0 C0); [by rewrite length_imap|].
  intros m Hm. rewrite (nth_imap _ _ _ C0) by done.
  by destruct (Nat.testbit m (Z.to_nat target)).
Qed.

Lemma amplitude_damping_p1_moves_witness :
  fst (amplitude_damping sample_generator [C0; C1] 1 0 0) = Ok (fully_damped 0 [C0; C1]).
Proof.
  apply (amplitude_damping_p1_moves sample_generator [C0; C1] 0 0);
    [exact sample_generator_in_unit|discriminate|lia].
Defined.

(** X22.  [phase_flip] and [amplitude_damping] raise in two cases only:
    [OverflowError] on an empty state and [ValueError] on a negative
    target, the latter whatever [p] is.  They never raise [IndexError]. *)
Theorem shift_channels_errors (G : NumpyRandom) (state : list C) (p : R) (target : Z)
    (w : rng_state G) (e : exn) :
  let rejected :=
    (state = [] /\ e = OverflowError)
    \/ (state <> [] /\ (target < 0)%Z /\ e = ValueError) in
  (fst (phase_flip G state p target w) = Raise e <-> rejected)
  /\ (fst (amplitude_damping G state p target w) = Raise e <-> rejected).
Proof.
  cbv zeta. destruct state as [|z state].
  - cbn. split; (split; [intros [= <-]; by left|by intros [[_ ->]|[? _]]]).
  - destruct (Z.ltb_spec target 0) as [Hneg|Hpos].
    + unfold phase_flip, amplitude_damping.
      cbn [length Nat.eqb seq phase_flip_loop amplitude_damping_loop].
      unfold py_rshift. rewrite (proj2 (Z.ltb_lt target 0)) by done. cbn [fst].
      split; (split; [intros [= <-]; right; by repeat split
                     |by intros [[? _]|(_ & _ & ->)]]).
    + destruct (phase_flip_total G (z :: state) p target w)
        as (new & w' & Hp); [done|done|].
      destruct (amplitude_damping_total G (z :: state) p target w)
        as (new2 & w2 & Ha); [done|done|].
      rewrite Hp, Ha. cbn [fst].
      split; (split; [done|intros [[? _]|(_ & ? & _)]; [done|lia]]).
Qed.

Lemma map_Cnorm2_mult_i s : map Cnorm2 (map (Cmult Ci) s) = map Cnorm2 s.
Proof. rewrite map_map. apply map_ext. intros z. apply Cnorm2_mult_i. Qed.

(** X23.  As coded, [depolarizing] never changes a probability.  On a state
    of [2^n] amplitudes, a target in range and draws in [[0, 1)] it returns
    an array with the same squared modulus at every index as the input,
    whichever of X, Y, Z is drawn: its X is [bit_flip] with [p = 1], which
    gives the state back. *)
Theorem depolarizing_keeps_probabilities (G : NumpyRandom)
    (np_random_randint : nat -> rng_state G -> nat * rng_state G)
    (n : nat) (state : list C) (p : R) (target : Z) (w : rng_state G) :
  rand_in_unit G -> length state = 2 ^ n -> (0 <= target < Z.of_nat n)%Z ->
  exists new w', depolarizing G np_random_randint state p target w = (Ok new, w')
                 /\ map Cnorm2 new = map Cnorm2 state.
Proof.
  intros HG Hs Ht. unfold depolarizing.
  assert (Hne : state <> []).
  { intros ->. cbn in Hs. pose proof (Nat.pow_nonzero 2 n). lia. }
  destruct (np_random_rand G w) as [u w1].
  destruct (Rlt_dec u p); [|by exists state, w1].
  destruct (np_random_randint 3 w1) as [k w2].
  destruct k as [|[|[|k]]]; cbn [nth String.eqb Ascii.eqb Bool.eqb andb].
  - pose proof (bit_flip_p1_identity G n state target w2 HG Hs Ht) as Hb.
    destruct (bit_flip G state 1 target w2) as [res w3]. cbn [fst] in Hb. subst res.
    by exists state, w3.
  - pose proof (bit_flip_p1_identity G n state target w2 HG Hs Ht) as Hb.
    destruct (bit_flip G state 1 target w2) as [res w3]. cbn [fst] in Hb. subst res.
    destruct (phase_flip_total G state 1 target w3) as (s & w4 & Hp); [done|lia|].
    rewrite Hp. exists (map (Cmult Ci) s), w4. split; [done|].
    rewrite map_Cnorm2_mult_i. by apply (phase_flip_probabilities_Ok G _ _ _ _ _ _ Hp).
  - destruct (phase_flip_total G state 1 target w2) as (s & w4 & Hp); [done|lia|].
    exists s, w4. split; [done|]. by apply (phase_flip_probabilities_Ok G _ _ _ _ _ _ Hp).
  - destruct k; by exists state, w2.
Qed.

Lemma depolarizing_keeps_probabilities_witness :
  exists new w',
    depolarizing sample_generator (fun _ w => (1, w)) [C0; C1] (3 / 4) 0 0 = (Ok new, w')
    /\ map Cnorm2 new = map Cnorm2 [C0; C1].
Proof.
  apply (depolarizing_keeps_probabilities sample_generator (fun _ w => (1, w)) 1
           [C0; C1] (3 / 4) 0 0);
    [exact sample_generator_in_unit|reflexivity|lia].
Defined.

Lemma np_index_raises {A} (l : list A) i e :
  np_index l i = Raise e -> is_Exception e = true.
Proof.
  unfold np_index. destruct (l !! i); [done|].
  destruct (2 ^ 63 <=? _)%Z; by intros [= <-].
Qed.

Section NoisyRun.
Context (G : NumpyRandom).
Context (np_random_randint : nat -> rng_state G -> nat * rng_state G).

Lemma bit_flip_loop_raises p target idx new_state w e w' :
  bit_flip_loop G p target idx new_state w = (Raise e, w') -> is_Exception e = true.
Proof.
  revert new_state w. induction idx as [|i idx IH]; intros ns w; cbn [bit_flip_loop].
  - done.
  - destruct (np_random_rand G w) as [u w1].
    destruct (Rlt_dec u p); [|apply IH].
    unfold py_lshift.
    destruct (target <? 0)%Z; cbn [mbind result_bind]; [raised|].
    destruct (np_index ns (Nat.lxor i _)) as [nj|e1] eqn:Ej; cbn [mbind result_bind].
    2:{ intros H. injection H as <- _. by apply np_index_raises in Ej. }
    destruct (np_index ns i) as [ni|e1] eqn:Ei; cbn [mbind result_bind].
    2:{ intros H. injection H as <- _. by apply np_index_raises in Ei. }
    apply IH.
Qed.

Lemma phase_flip_loop_raises p target idx new_state w e w' :
  phase_flip_loop G p target idx new_state w = (Raise e, w') -> is_Exception e = true.
Proof.
  revert new_state w. induction idx as [|i idx IH]; intros ns w; cbn [phase_flip_loop].
  - done.
  - unfold py_rshift. destruct (target <? 0)%Z; [raised|].
    destruct (Nat.land _ 1 =? 1); [|apply IH].
    destruct (np_random_rand G w) as [u w1].
    destruct (Rlt_dec u p); [|apply IH].
    destruct (np_index ns i) as [ni|e1] eqn:Ei; cbn [mbind result_bind].
    2:{ intros H. injection H as <- _. by apply np_index_raises in Ei. }
    apply IH.
Qed.

Lemma bit_flip_keeps_moduli : keeps_moduli G (bit_flip G).
Proof.
  intros state p t w. destruct (bit_flip G state p t w) as [[new|e] w'] eqn:E.
  - apply bit_flip_Permutation in E. by apply Permutation_map.
  - unfold bit_flip in E. destruct (length state =? 0); [injection E as He _; by rewrite <- He|].
    by apply bit_flip_loop_raises in E.
Qed.

Lemma phase_flip_keeps_moduli : keeps_moduli G (phase_flip G).
Proof.
  intros state p t w. destruct (phase_flip G state p t w) as [[new|e] w'] eqn:E.
  - apply phase_flip_probabilities_Ok in E. by rewrite E.
  - unfold phase_flip in E. destruct (length state =? 0); [injection E as He _; by rewrite <- He|].
    by apply phase_flip_loop_raises in E.
Qed.

Lemma depolarizing_keeps_moduli : keeps_moduli G (depolarizing G np_random_randint).
Proof.
  intros state p t w. unfold depolarizing.
  destruct (np_random_rand G w) as [u w1].
  destruct (Rlt_dec u p); [|done].
  destruct (np_random_randint 3 w1) as [k w2].
  destruct k as [|[|[|k]]]; cbn [nth String.eqb Ascii.eqb Bool.eqb andb].
  - apply bit_flip_keeps_moduli.
  - pose proof (bit_flip_keeps_moduli state 1%R t w2) as Hb.
    destruct (bit_flip G state 1 t w2) as [[s|e] w3]; [|done].
    pose proof (phase_flip_keeps_moduli s 1%R t w3) as Hp.
    destruct (phase_flip G s 1 t w3) as [[s'|e] w4]; [|done].
    rewrite map_Cnorm2_mult_i. by rewrite Hp.
  - apply phase_flip_keeps_moduli.
  - destruct k; cbn [nth String.eqb]; reflexivity.
Qed.

Lemma flip_channel_keeps_moduli func :
  flip_channel G np_random_randint func -> keeps_moduli G func.
Proof.
  intros [->|[->| ->]];
    [apply bit_flip_keeps_moduli|apply phase_flip_keeps_moduli
    |apply depolarizing_keeps_moduli].
Qed.

Lemma apply_channel_keeps_moduli func p ts state w :
  keeps_moduli G func ->
  match apply_channel G func p ts state w with
  | (Ok new, _) => map Cnorm2 new ≡ₚ map Cnorm2 state
  | (Raise e, _) => is_Exception e = true
  end.
Proof.
  intros Hf. revert state w. induction ts as [|t ts IH]; intros state w;
    cbn [apply_channel]; [done|].
  pose proof (Hf state p t w) as H1.
  destruct (func state p t w) as [[s|e] w1]; [|done].
  specialize (IH s w1).
  destruct (apply_channel G func p ts s w1) as [[s'|e] w2]; [|done].
  by rewrite IH.
Qed.

Lemma apply_channels_keeps_moduli channels ts state w :
  Forall (fun ch => keeps_moduli G (fst (snd ch))) channels ->
  match apply_channels G channels ts state w with
  | (Ok new, _) => map Cnorm2 new ≡ₚ map Cnorm2 state
  | (Raise e, _) => is_Exception e = true
  end.
Proof.
  intros Hc. revert state w. induction Hc as [|[nm [func p]] channels Hf Hc IH];
    intros state w; cbn [apply_channels]; [done|].
  cbn [fst snd] in Hf.
  pose proof (apply_channel_keeps_moduli func p ts state w Hf) as H1.
  destruct (apply_channel G func p ts state w) as [[s|e] w1]; [|done].
  specialize (IH s w1).
  destruct (apply_channels G channels ts s w1) as [[s'|e] w2]; [|done].
  by rewrite IH.
Qed.

Lemma apply_noise_keeps_moduli channels state gate w :
  Forall (fun ch => keeps_moduli G (fst (snd ch))) channels ->
  exists new w', apply_noise G (Some (make_noise_hook G channels)) state gate w
                 = (Ok new, w')
    /\ map Cnorm2 new ≡ₚ map Cnorm2 state.
Proof.
  intros Hc. unfold apply_noise, make_noise_hook.
  pose proof (apply_channels_keeps_moduli channels (targets gate) state w Hc) as H1.
  destruct (apply_channels G channels (targets gate) state w) as [[s|e] w1].
  - by exists s, w1.
  - rewrite H1. by exists state, w1.
Qed.

Lemma run_gates_noisy_total n channels shots gs state w :
  Forall (fun ch => keeps_moduli G (fst (snd ch))) channels ->
  forallb (has_name unitary_names) gs = true ->
  forallb (targets_ok n) gs = true ->
  length state = 2 ^ n ->
  exists amplitudes w',
    run_gates G n (Some (make_noise_hook G channels)) shots gs state w
    = (Ok (Statevector amplitudes), w')
    /\ length amplitudes = 2 ^ n.
Proof.
  intros Hc. revert state w. induction gs as [|g gs IH]; intros state w Hnames Hok Hs.
  - by exists state, w.
  - cbn [forallb] in Hnames, Hok.
    apply andb_prop in Hnames as [Hg Hnames]. apply andb_prop in Hok as [Hgo Hok].
    cbn [run_gates].
    destruct (gate_step_total n g state Hg Hgo Hs) as (state' & E). rewrite E.
    pose proof (gate_step_length n g state _ Hs E) as Hl.
    destruct (apply_noise_keeps_moduli channels state' g w Hc) as (s & w1 & Ha & Hp).
    rewrite Ha. apply IH; [done|done|].
    apply Permutation_length in Hp. rewrite !length_map in Hp. congruence.
Qed.

End NoisyRun.

(** X24.  Noise built by [make_noise_hook] from [bit_flip], [phase_flip] and
    [depolarizing] channels, whatever their probabilities, never stops a run
    and only rearranges or rephases amplitudes: after every gate, for every
    state and every targets, [run] gets an array back (an exception raised
    inside a channel is swallowed and the state kept) whose squared moduli
    are those of the array before the noise, up to their order.  Over a
    circuit of the gates H, X, Y, Z, S, T, RX, RY, RZ, CNOT, SWAP whose
    targets name qubits of the circuit, [run] with such a hook returns an
    amplitude vector of [2^n] entries. *)
Theorem flip_noise_keeps_probabilities (G : NumpyRandom)
    (np_random_randint : nat -> rng_state G -> nat * rng_state G)
    (channels : list (string * (channel_t G * R))) :
  Forall (fun ch => flip_channel G np_random_randint (fst (snd ch))) channels ->
  (forall (state : list C) (gate : Gate) (w : rng_state G),
     exists new w',
       apply_noise G (Some (make_noise_hook G channels)) state gate w = (Ok new, w')
       /\ map Cnorm2 new ≡ₚ map Cnorm2 state)
  /\ (forall (circuit : QuantumCircuit) (seed : option Z) (shots : Z)
        (w0 w : rng_state G) (self : StatevectorSimulator G),
        fst (__init__ G circuit (Some (make_noise_hook G channels)) seed w0) = Ok self ->
        forallb (has_name unitary_names) (gates circuit) = true ->
        forallb (targets_ok (sim_num_qubits G self)) (gates circuit) = true ->
        exists amplitudes w',
          run G self shots w = (Ok (Statevector amplitudes), w')
          /\ length amplitudes = 2 ^ sim_num_qubits G self).
Proof.
  intros Hc.
  assert (Hk : Forall (fun ch => keeps_moduli G (fst (snd ch))) channels).
  { eapply Forall_impl; [exact Hc|]. intros ch. apply flip_channel_keeps_moduli. }
  split.
  - intros state gate w. by apply apply_noise_keeps_moduli.
  - intros circuit seed shots w0 w self Hinit Hnames Hok.
    destruct (init_ok G _ _ _ _ _ Hinit) as (Hci & Hh & Hst).
    unfold run. rewrite Hci, Hh, Hst.
    by apply run_gates_noisy_total; [| | |apply ground_state_length].
Qed.

Lemma flip_noise_keeps_probabilities_witness :
  let G := sample_generator in
  let channels := [("bitflip"%string, (bit_flip G, (1 / 20)%R));
                   ("phaseflip"%string, (phase_flip G, (1 / 10)%R))] in
  (forall (state : list C) (gate : Gate) (w : rng_state G),
     exists new w',
       apply_noise G (Some (make_noise_hook G channels)) state gate w = (Ok new, w')
       /\ map Cnorm2 new ≡ₚ map Cnorm2 state)
  /\ (forall (circuit : QuantumCircuit) (seed : option Z) (shots : Z)
        (w0 w : rng_state G) (self : StatevectorSimulator G),
        fst (__init__ G circuit (Some (make_noise_hook G channels)) seed w0) = Ok self ->
        forallb (has_name unitary_names) (gates circuit) = true ->
        forallb (targets_ok (sim_num_qubits G self)) (gates circuit) = true ->
        exists amplitudes w',
          run G self shots w = (Ok (Statevector amplitudes), w')
          /\ length amplitudes = 2 ^ sim_num_qubits G self).
Proof.
  intros G channels.
  apply (flip_noise_keeps_probabilities G (fun _ w => (0, w)) channels).
  constructor; [left; reflexivity|].
  constructor; [right; left; reflexivity|constructor].
Defined.

(** ** What comes out of a measurement *)

Section RunCounts.
Context (G : NumpyRandom).

Lemma run_gates_counts_measure n hook shots gs state w counts w' :
  run_gates G n hook shots gs state w = (Ok (Counts counts), w') ->
  exists state' w1, measure G n shots state' w1 = (Ok (Counts counts), w').
Proof.
  revert state w. induction gs as [|g gs IH]; intros state w Hrun.
  - simpl in Hrun. done.
  - cbn [run_gates] in Hrun.
    destruct (gate_step n g state) as [[state'|]|e]; [| |done].
    + destruct (apply_noise G hook state' g w) as [[s|e] w1]; [|done].
      by apply (IH s w1).
    + by exists state, w.
Qed.

End RunCounts.

(** X15.  When [run] returns counts, with or without a noise hook, the
    counts add up to [shots] (what [api.py] reports as [total_shots]), and
    [shots] is not negative. *)
Theorem counts_add_up_to_shots (G : NumpyRandom) (self : StatevectorSimulator G)
    (shots : Z) (w w' : rng_state G) (counts : gmap string nat) :
  run G self shots w = (Ok (Counts counts), w') ->
  (0 <= shots)%Z /\ Z.of_nat (sum_values counts) = shots.
Proof.
  intros Hrun. unfold run in Hrun.
  apply run_gates_counts_measure in Hrun as (state' & w1 & Hm).
  by apply (measure_counts_total G _ _ _ _ _ _ Hm).
Qed.

Lemma counts_add_up_to_shots_witness :
  (0 <= 4)%Z /\ Z.of_nat (sum_values {["1" := 4]}) = 4%Z.
Proof.
  apply (counts_add_up_to_shots sample_generator
           (mkStatevectorSimulator sample_generator
              (mkQuantumCircuit 1 [gate_H 0; gate_Measure 0; gate_X 0]) 1 [C1; C0] None)
           4 0 4 {["1" := 4]}).
  exact h_measure_x_counts.
Defined.

Lemma count_keys_are_labels_witness :
  0 < 4 /\ exists i, i < 2 ^ 1 /\ "1"%string = format_0b 1 i.
Proof.
  apply (count_keys_are_labels sample_generator
           (mkQuantumCircuit 1 [gate_H 0; gate_Measure 0; gate_X 0]) (Some 0%Z) 4 7 0 4
           (mkStatevectorSimulator sample_generator
              (mkQuantumCircuit 1 [gate_H 0; gate_Measure 0; gate_X 0]) 1 [C1; C0] None)
           {["1" := 4]} "1" 4).
  - exact sample_generator_in_unit.
  - reflexivity.
  - exact h_measure_x_counts.
  - reflexivity.
Defined.

Lemma cumsum_from_lower a p :
  Forall (fun x => (0 <= x)%R) p -> Forall (fun c => (a <= c)%R) (cumsum_from a p).
Proof.
  intros Hp. revert a. induction Hp as [|x p Hx Hp IH]; intros a; cbn [cumsum_from].
  - constructor.
  - constructor; [lra|]. eapply Forall_impl; [apply IH|]. intros c Hc. cbv beta in *. lra.
Qed.

Lemma filter_none {A} (P : A -> Prop) `{!forall x, Decision (P x)} (l : list A) :
  Forall (fun x => ~ P x) l -> filter P l = [].
Proof.
  induction 1 as [|x l Hx Hl IH]; [done|]. by rewrite filter_cons_False.
Qed.

(** In a cumulative sum of non-negative numbers, the number of entries that
    are at most [v] is the index of an entry that is positive. *)
Lemma searchsorted_cumsum_positive a v p :
  Forall (fun x => (0 <= x)%R) p -> (a <= v)%R ->
  let r := length (filter (fun c => (c <= v)%R) (cumsum_from a p)) in
  r < length p -> (0 < nth r p 0)%R.
Proof.
  intros Hp. revert a. induction Hp as [|x p Hx Hp IH]; intros a Ha; cbn [cumsum_from].
  - cbn. lia.
  - destruct (Rle_dec (a + x) v) as [Hle|Hgt].
    + rewrite filter_cons_True by done. cbn [length nth]. intros Hr.
      apply (IH (a + x)%R Hle). lia.
    + rewrite filter_cons_False by done.
      pose proof (cumsum_from_lower (a + x) p Hp) as Hlow.
      assert (E : filter (fun c => (c <= v)%R) (cumsum_from (a + x) p) = []).
      { apply filter_none. eapply Forall_impl; [exact Hlow|].
        intros c Hc. cbv beta in *. lra. }
      rewrite E. cbn [length nth]. intros _. lra.
Qed.

Lemma filter_length_fmap {A B} (f : A -> B) (P : B -> Prop) `{!forall x, Decision (P x)}
    (l : list A) :
  length (filter P (map f l)) = length (filter (fun x => P (f x)) l).
Proof.
  induction l as [|x l IH]; [done|]. cbn [map].
  destruct (decide (P (f x))).
  - rewrite !filter_cons_True by done. cbn [length]. by rewrite IH.
  - by rewrite !filter_cons_False by done.
Qed.

Lemma filter_length_ext {A} (P Q : A -> Prop) `{!forall x, Decision (P x)}
    `{!forall x, Decision (Q x)} (l : list A) :
  (forall x, P x <-> Q x) -> length (filter P l) = length (filter Q l).
Proof.
  intros HPQ. induction l as [|x l IH]; [done|].
  destruct (decide (P x)) as [HP|HP].
  - rewrite !filter_cons_True by (done || by apply HPQ). cbn [length]. by rewrite IH.
  - rewrite !filter_cons_False by (done || by rewrite <- HPQ). done.
Qed.

(** An index that [np.random.choice] returns has a positive probability. *)
Lemma np_random_choice_positive G w size p rs w' :
  rand_in_unit G ->
  np_random_choice G w size p = (Ok rs, w') ->
  Forall (fun r => (0 < nth r p 0)%R) rs.
Proof.
  intros HG Hc.
  pose proof (np_random_choice_in_range G w size p rs w' HG Hc) as Hrange.
  apply np_random_choice_Ok in Hc as (Hsz & Hrs & _ & Hpos & Hsum).
  pose proof (sum_near_one_nonzero _ Hsum) as Hnz.
  assert (Hne : p ≠ []) by (intros ->; by apply Hnz).
  set (S := List.last (cumsum_from 0 p) 0%R) in *.
  assert (HS : S = Rsum p) by (unfold S; rewrite last_cumsum_from by done; lra).
  assert (HS0 : (0 < S)%R).
  { rewrite HS. destruct (Rle_dec (Rsum p) 0) as [Hle|?]; [|lra]. exfalso.
    rewrite Rabs_left in Hsum by lra.
    assert (/ 2 ^ 26 < 1)%R; [|lra].
    rewrite <- Rinv_1. apply Rinv_lt_contravar.
    - rewrite Rmult_1_l. apply pow_lt. lra.
    - apply Rlt_pow_R1; [lra|lia]. }
  rewrite Forall_forall in Hrange. apply Forall_forall. intros r Hr.
  specialize (Hrange r Hr). subst rs.
  apply list_elem_of_fmap in Hr as (u & -> & Hu).
  pose proof (random_sample_in_unit G (Z.to_nat size) w HG) as Hus.
  rewrite Forall_forall in Hus. specialize (Hus u Hu).
  unfold searchsorted_right in *.
  rewrite (filter_length_fmap (fun c => (c / S)%R) (fun c => (c <= u)%R)) in *.
  rewrite (filter_length_ext _ (fun c => (c <= u * S)%R)) in *.
  2,3: intros c; split; intros Hcu.
  2,4: apply (Rmult_le_reg_r (/ S)); [by apply Rinv_0_lt_compat|];
       replace (u * S * / S)%R with u by (field; lra); exact Hcu.
  2,3: replace (c / S)%R with (c * / S)%R by (unfold Rdiv; ring);
       apply (Rmult_le_reg_r S); [done|];
       replace (c * / S * S)%R with c by (field; lra); exact Hcu.
  apply (searchsorted_cumsum_positive 0 (u * S) p Hpos); [|done].
  apply Rmult_le_pos; lra.
Qed.

Lemma Cabs_C0_sq : (Cabs C0 ^ 2)%R = 0%R.
Proof. rewrite Cabs_sq. unfold Cnorm2, C0, RtoC. cbn [fst snd]. ring. Qed.

(** X25.  A basis state whose amplitude is zero is never measured: with
    draws in [[0, 1)], the counts of a measurement have no entry under the
    label of an index whose amplitude is 0. *)
Theorem zero_amplitude_never_measured (G : NumpyRandom) (n : nat) (shots : Z)
    (state : list C) (w w' : rng_state G) (counts : gmap string nat) (i : nat) :
  rand_in_unit G ->
  measure G n shots state w = (Ok (Counts counts), w') ->
  nth i state C0 = C0 ->
  counts !! format_0b n i = None.
Proof.
  intros HG Hm Hi. unfold measure in Hm.
  destruct (np_random_choice G w shots _) as [[rs|e] w1] eqn:E; [|done].
  injection Hm as <- <-.
  apply (np_random_choice_positive G _ _ _ _ _ HG) in E.
  rewrite tally_lookup.
  rewrite (proj1 (count_occ_not_In Nat.eq_dec rs i)); [done|].
  intros Hin. rewrite Forall_forall in E. specialize (E i).
  assert (Hp : (0 < nth i (map (fun z => (Cabs z ^ 2)%R) state) 0)%R).
  { apply E. by apply list_elem_of_In. }
  rewrite <- Cabs_C0_sq in Hp at 2.
  rewrite (map_nth (fun z => (Cabs z ^ 2)%R) state C0 i), Hi, Cabs_C0_sq in Hp. lra.
Qed.

Lemma measure_one_state :
  measure sample_generator 1 4 [C0; C1] 0 = (Ok (Counts {["1" := 4]}), 4).
Proof.
  unfold measure. cbn [map]. rewrite !Cabs_sq. unfold Cnorm2, C0, C1, RtoC. cbn [fst snd].
  replace (0 * 0 + 0 * 0)%R with 0%R by ring.
  replace (1 * 1 + 0 * 0)%R with 1%R by ring.
  unfold np_random_choice.
  rewrite bool_decide_eq_false_2.
  2:{ rewrite !Exists_cons, Exists_nil. lra. }
  rewrite bool_decide_eq_false_2.
  2:{ cbn [Rsum foldr]. replace (0 + (1 + 0) - 1)%R with 0%R by lra.
      rewrite Rabs_R0. apply Rle_not_lt. left. apply Rinv_0_lt_compat.
      apply pow_lt. lra. }
  change (4 <? 0)%Z with false. cbv iota.
  change (Z.to_nat 4) with 4. rewrite sample_draws_first.
  cbn [cumsum_from map List.last].
  replace ((0 + 0) / (0 + 0 + 1))%R with 0%R by lra.
  replace ((0 + 0 + 1) / (0 + 0 + 1))%R with 1%R by lra.
  unfold searchsorted_right.
  repeat (rewrite filter_cons_True by lra; rewrite filter_cons_False by lra).
  reflexivity.
Qed.

Lemma zero_amplitude_never_measured_witness :
  ({["1" := 4]} : gmap string nat) !! format_0b 1 0 = None.
Proof.
  apply (zero_amplitude_never_measured sample_generator 1 4 [C0; C1] 0 4 {["1" := 4]} 0).
  - exact sample_generator_in_unit.
  - exact measure_one_state.
  - reflexivity.
Defined.

Lemma cli_foldl_lookup n (probs : list R) (idx : list nat) (m : gmap string R) i :
  foldl (fun out i => <[format_0b n i := nth i probs 0%R]> out) m idx !! format_0b n i
  = if bool_decide (i ∈ idx) then Some (nth i probs 0%R) else m !! format_0b n i.
Proof.
  revert m. induction idx as [|j idx IH]; intros m; cbn [foldl].
  - by rewrite bool_decide_eq_false_2 by set_solver.
  - rewrite IH. destruct (decide (i ∈ idx)) as [Hin|Hnin].
    + rewrite !bool_decide_eq_true_2; [done|set_solver|done].
    + rewrite (bool_decide_eq_false_2 (i ∈ idx)) by done.
      destruct (decide (i = j)) as [->|Hne].
      * rewrite bool_decide_eq_true_2 by set_solver. by rewrite lookup_insert_eq.
      * rewrite bool_decide_eq_false_2 by (by intros [?|?]%elem_of_cons).
        rewrite lookup_insert_ne; [done|]. intros E. by apply format_0b_inj in E.
Qed.

Lemma cli_foldl_keys n (probs : list R) (idx : list nat) (m : gmap string R) key v :
  foldl (fun out i => <[format_0b n i := nth i probs 0%R]> out) m idx !! key = Some v ->
  m !! key = Some v \/ exists i, i ∈ idx /\ key = format_0b n i.
Proof.
  revert m. induction idx as [|j idx IH]; intros m; cbn [foldl]; [by left|].
  intros Hk. apply IH in Hk as [Hk|(i & Hi & ->)].
  - destruct (decide (format_0b n j = key)) as [<-|Hne].
    + right. exists j. split; [set_solver|done].
    + rewrite lookup_insert_ne in Hk by done. by left.
  - right. exists i. split; [set_solver|done].
Qed.

(** X26.  The dictionary that [cli.py] prints for a state vector has exactly
    one entry per index of the vector: under the binary label of index [i]
    it holds [|amplitude_i|^2], and it has no other key.  No two indices
    share a label, whatever the width. *)
Theorem cli_probabilities_by_label (n : nat) (result : list C) :
  (forall i, i < length result ->
     cli_probabilities n result !! format_0b n i
     = Some (Cabs (nth i result C0) ^ 2)%R)
  /\ (forall key v, cli_probabilities n result !! key = Some v ->
        exists i, i < length result /\ key = format_0b n i).
Proof.
  unfold cli_probabilities. cbv zeta. rewrite length_map. split.
  - intros i Hi. rewrite cli_foldl_lookup.
    rewrite bool_decide_eq_true_2 by (apply elem_of_seq; lia).
    f_equal. rewrite (nth_map_lt _ _ C0) by done. done.
  - intros key v Hk. apply cli_foldl_keys in Hk as [Hk|(i & Hi & ->)].
    + by rewrite lookup_empty in Hk.
    + exists i. split; [|done]. apply elem_of_seq in Hi. lia.
Qed.

Lemma cnot_src_bits c t m k :
  c <> t ->
  Nat.testbit (cnot_src c t m) k
  = if k =? t then xorb (Nat.testbit m t) (Nat.testbit m c) else Nat.testbit m k.
Proof.
  intros Hct. unfold cnot_src. cbv zeta.
  rewrite (Nat.lxor_spec m (2 ^ t) c), Nat.pow2_bits_eqb.
  rewrite (proj2 (Nat.eqb_neq t c)) by done. rewrite xorb_false_r, orb_diag.
  destruct (Nat.testbit m c) eqn:Ec.
  - rewrite Nat.lxor_spec, Nat.pow2_bits_eqb.
    destruct (Nat.eqb_spec k t) as [->|Hkt].
    + by rewrite Nat.eqb_refl.
    + rewrite (proj2 (Nat.eqb_neq t k)) by done. by rewrite xorb_false_r.
  - destruct (Nat.eqb_spec k t) as [->|Hkt]; [|done]. by rewrite xorb_false_r.
Qed.

Lemma three_cnot_src a b m :
  a <> b -> cnot_src a b (cnot_src b a (cnot_src a b m)) = swap_src a b m.
Proof.
  intros Hab. apply Nat.bits_inj. intros k.
  destruct (testbit_exchange a b m) as (Ea & Eb & Ek). cbv zeta in *.
  rewrite !cnot_src_bits by done.
  rewrite !Nat.eqb_refl, (proj2 (Nat.eqb_neq a b)), (proj2 (Nat.eqb_neq b a)) by done.
  destruct (Nat.eqb_spec k b) as [->|Hkb].
  - rewrite Eb. by destruct (Nat.testbit m a), (Nat.testbit m b).
  - destruct (Nat.eqb_spec k a) as [->|Hka].
    + rewrite Ea. by destruct (Nat.testbit m a), (Nat.testbit m b).
    + by rewrite Ek.
Qed.

(** X27.  SWAP is three CNOTs: on a state of [2^n] amplitudes and two
    different qubits [a], [b] of the register, [_apply_cnot] with (a, b),
    then (b, a), then (a, b) returns the array that [_apply_swap] with
    (a, b) returns. *)
Theorem swap_is_three_cnots (n : nat) (state : list C) (a b : Z) :
  length state = 2 ^ n ->
  (0 <= a < Z.of_nat n)%Z -> (0 <= b < Z.of_nat n)%Z -> a <> b ->
  exists s1 s2 s3,
    _apply_cnot state a b = Ok s1
    /\ _apply_cnot s1 b a = Ok s2
    /\ _apply_cnot s2 a b = Ok s3
    /\ _apply_swap state a b = Ok s3.
Proof.
  intros Hs Ha Hb Hab.
  assert (Hlen : forall (f : nat -> C), length (map f (seq 0 (2 ^ n))) = 2 ^ n)
    by (intros; by rewrite length_map, length_seq).
  eexists _, _, _. split; [apply (apply_cnot_eq n); done || lia|].
  split; [apply (apply_cnot_eq n); [apply Hlen|lia|lia]|].
  split; [apply (apply_cnot_eq n); [apply Hlen|lia|lia]|].
  rewrite (apply_swap_eq n state a b Hs Ha Hb). f_equal.
  apply (nth_ext _ _ C0 C0); [by rewrite !Hlen|].
  intros m Hm. rewrite Hlen in Hm.
  assert (H1 : cnot_src (Z.to_nat a) (Z.to_nat b) m < 2 ^ n)
    by (apply cnot_src_lt; [lia|done]).
  assert (H2 : cnot_src (Z.to_nat b) (Z.to_nat a)
                 (cnot_src (Z.to_nat a) (Z.to_nat b) m) < 2 ^ n)
    by (apply cnot_src_lt; [lia|done]).
  rewrite !(nth_map_seq _ _ m) by done.
  rewrite (nth_map_seq _ _ _ _ H1), (nth_map_seq _ _ _ _ H2).
  f_equal. symmetry. apply three_cnot_src. lia.
Qed.

Lemma swap_is_three_cnots_witness :
  exists s1 s2 s3,
    _apply_cnot [C0; C1; C0; C0] 0 1 = Ok s1
    /\ _apply_cnot s1 1 0 = Ok s2
    /\ _apply_cnot s2 0 1 = Ok s3
    /\ _apply_swap [C0; C1; C0; C0] 0 1 = Ok s3.
Proof.
  apply (swap_is_three_cnots 2 [C0; C1; C0; C0] 0 1); [reflexivity|lia|lia|lia].
Defined.

(** ** The measurement branch *)

Lemma Cnorm2_nonneg z : (0 <= Cnorm2 z)%R.
Proof.
  unfold Cnorm2. pose proof (Rle_0_sqr (fst z)). pose proof (Rle_0_sqr (snd z)).
  unfold Rsqr in *. lra.
Qed.

Section MeasureCases.
Context (G : NumpyRandom).





End MeasureCases.



(** ** The norm under rounding *)

Lemma norm_sq_nonneg v : (0 <= norm_sq v)%R.
Proof.
  unfold norm_sq. induction v as [|z v IH]; cbn [map Rsum foldr]; [lra|].
  pose proof (Cnorm2_nonneg z). unfold Rsum in IH. lra.
Qed.

Lemma Cnorm2_sub_self z : Cnorm2 (Cplus z (Copp z)) = 0%R.
Proof. destruct z as [a b]. unfold Cnorm2, Cplus, Copp. cbn [fst snd]. ring. Qed.

Lemma dist_sq_refl v : dist_sq v v = 0%R.
Proof.
  unfold dist_sq. induction v as [|z v IH]; cbn [zip_with Rsum foldr]; [done|].
  rewrite Cnorm2_sub_self. unfold Rsum in IH. rewrite IH. ring.
Qed.

Lemma rounded_refl eta v : rounded eta v v.
Proof.
  split; [done|]. rewrite dist_sq_refl.
  apply Rmult_le_pos; [apply pow2_ge_0|apply norm_sq_nonneg].
Qed.

(** One entry: [c] computed where [x] is exact. *)
Lemma Cnorm2_upper eta x c :
  (eta * Cnorm2 c
   <= eta * (1 + eta) * Cnorm2 x + (1 + eta) * Cnorm2 (Cplus c (Copp x)))%R.
Proof.
  destruct x as [x1 x2], c as [c1 c2]. unfold Cnorm2, Cplus, Copp. cbn [fst snd].
  pose proof (Rle_0_sqr (eta * x1 - (c1 - x1))).
  pose proof (Rle_0_sqr (eta * x2 - (c2 - x2))).
  unfold Rsqr in *. lra.
Qed.

Lemma Cnorm2_lower eta x c :
  (eta * (1 - eta) * Cnorm2 x - (1 - eta) * Cnorm2 (Cplus c (Copp x))
   <= eta * Cnorm2 c)%R.
Proof.
  destruct x as [x1 x2], c as [c1 c2]. unfold Cnorm2, Cplus, Copp. cbn [fst snd].
  pose proof (Rle_0_sqr (eta * x1 + (c1 - x1))).
  pose proof (Rle_0_sqr (eta * x2 + (c2 - x2))).
  unfold Rsqr in *. lra.
Qed.

Lemma norm_sq_upper eta x c :
  length c = length x ->
  (eta * norm_sq c <= eta * (1 + eta) * norm_sq x + (1 + eta) * dist_sq c x)%R.
Proof.
  unfold norm_sq, dist_sq, Rsum. revert c.
  induction x as [|x0 x IH]; intros [|c0 c] Hlen; try done; cbn [map zip_with foldr].
  - lra.
  - injection Hlen as Hlen. specialize (IH c Hlen).
    pose proof (Cnorm2_upper eta x0 c0). lra.
Qed.

Lemma norm_sq_lower eta x c :
  length c = length x ->
  (eta * (1 - eta) * norm_sq x - (1 - eta) * dist_sq c x <= eta * norm_sq c)%R.
Proof.
  unfold norm_sq, dist_sq, Rsum. revert c.
  induction x as [|x0 x IH]; intros [|c0 c] Hlen; try done; cbn [map zip_with foldr].
  - lra.
  - injection Hlen as Hlen. specialize (IH c Hlen).
    pose proof (Cnorm2_lower eta x0 c0). lra.
Qed.

(** A rounded array has the norm of the exact one up to the factor
    [(1 ± eta)^2]. *)
Lemma rounded_norm eta exact computed :
  (0 < eta <= 1)%R -> rounded eta exact computed ->
  ((1 - eta) ^ 2 * norm_sq exact <= norm_sq computed
   <= (1 + eta) ^ 2 * norm_sq exact)%R.
Proof.
  intros Heta [Hlen Hd].
  pose proof (norm_sq_upper eta exact computed Hlen) as Hu.
  pose proof (norm_sq_lower eta exact computed Hlen) as Hl.
  pose proof (norm_sq_nonneg exact) as HN.
  set (N := norm_sq exact) in *. set (M := norm_sq computed) in *.
  set (D := dist_sq computed exact) in *.
  split.
  - apply (Rmult_le_reg_l eta); [lra|].
    assert ((1 - eta) * D <= (1 - eta) * (eta ^ 2 * N))%R
      by (apply Rmult_le_compat_l; lra).
    nra.
  - apply (Rmult_le_reg_l eta); [lra|].
    assert ((1 + eta) * D <= (1 + eta) * (eta ^ 2 * N))%R
      by (apply Rmult_le_compat_l; lra).
    nra.
Qed.

Lemma run_rounded_norm eta n gs state final :
  (0 < eta <= 1)%R ->
  forallb (has_name unitary_names) gs = true ->
  length state = 2 ^ n ->
  run_rounded eta n gs state final ->
  length final = 2 ^ n
  /\ ((1 - eta) ^ (2 * length gs) * norm_sq state <= norm_sq final
      <= (1 + eta) ^ (2 * length gs) * norm_sq state)%R.
Proof.
  intros Heta Hnames Hs Hrun. induction Hrun as [state|g gs state exact computed final
    Hstep Hround Hrun IH].
  - split; [done|]. change (2 * length (@nil Gate)) with 0. cbn [pow]. lra.
  - cbn [forallb] in Hnames. apply andb_prop in Hnames as [Hg Hnames].
    destruct (gate_step_norm n g state _ Hg Hs Hstep) as (st & [= <-] & Hl & Hn).
    pose proof (rounded_norm eta exact computed Heta Hround) as [Hlo Hhi].
    destruct Hround as [Hlen _].
    destruct (IH Hnames ltac:(congruence)) as (Hfl & Hflo & Hfhi).
    split; [done|]. rewrite Hn in Hlo, Hhi.
    cbn [length]. replace (2 * S (length gs)) with (2 + 2 * length gs) by lia.
    rewrite !pow_add.
    assert (H1 : (0 <= (1 - eta) ^ (2 * length gs))%R) by (apply pow_le; lra).
    assert (H2 : (0 <= (1 + eta) ^ (2 * length gs))%R) by (apply pow_le; lra).
    pose proof (norm_sq_nonneg state). pose proof (norm_sq_nonneg computed).
    split.
    + apply Rle_trans with ((1 - eta) ^ (2 * length gs) * norm_sq computed)%R; [|done].
      rewrite (Rmult_comm ((1 - eta) ^ 2)), Rmult_assoc.
      by apply Rmult_le_compat_l.
    + apply Rle_trans with ((1 + eta) ^ (2 * length gs) * norm_sq computed)%R; [done|].
      rewrite (Rmult_comm ((1 + eta) ^ 2)), Rmult_assoc.
      by apply Rmult_le_compat_l.
Qed.

(** Bernoulli's inequality, both ways. *)
Lemma pow_lower eta m : (0 <= eta <= 1)%R -> (1 - INR m * eta <= (1 - eta) ^ m)%R.
Proof.
  intros Heta. induction m as [|m IH]; [cbn; lra|].
  rewrite S_INR. cbn [pow].
  assert (0 <= (1 - eta) ^ m)%R by (apply pow_le; lra).
  pose proof (pos_INR m). nra.
Qed.

Lemma pow_upper eta m :
  (0 <= eta)%R -> (INR m * eta < 1)%R -> ((1 + eta) ^ m * (1 - INR m * eta) <= 1)%R.
Proof.
  intros Heta. induction m as [|m IH]; intros Hm; [cbn; lra|].
  rewrite S_INR in *. pose proof (pos_INR m).
  assert (Hm' : (INR m * eta < 1)%R) by nra.
  specialize (IH Hm'). cbn [pow].
  assert (Hp : (0 <= (1 + eta) ^ m)%R) by (apply pow_le; lra).
  assert ((1 + eta) * (1 - (INR m + 1) * eta) <= 1 - INR m * eta)%R by nra.
  apply Rle_trans with ((1 + eta) ^ m * (1 - INR m * eta))%R; [|done].
  rewrite Rmult_assoc, (Rmult_comm (1 + eta)), Rmult_assoc.
  apply Rmult_le_compat_l; [done|]. lra.
Qed.

(** A run in exact arithmetic is one of the rounded runs, whatever [eta]. *)
Lemma run_exact_is_rounded (G : NumpyRandom) eta n shots gs state w final w' :
  run_gates G n None shots gs state w = (Ok (Statevector final), w') ->
  run_rounded eta n gs state final.
Proof.
  revert state w. induction gs as [|g gs IH]; intros state w Hrun.
  - injection Hrun as <- _. constructor.
  - cbn [run_gates] in Hrun.
    destruct (gate_step n g state) as [[exact|]|e] eqn:E; [| |done].
    + cbn [apply_noise] in Hrun.
      apply (run_rounded_cons eta n g gs state exact exact final E);
        [apply rounded_refl|by apply (IH exact w)].
    + unfold measure in Hrun.
      by destruct (np_random_choice G w shots _) as [[rs|e] w1].
Qed.

(** C1, amended.  Over a circuit of the gates H, X, Y, Z, S, T, RX, RY, RZ,
    CNOT, SWAP, from the ground state and without a noise hook: when every
    gate returns an array within relative distance [eta] of the exact one,
    the squared moduli of the final amplitudes sum to a number between
    [(1 - eta)^(2K)] and [(1 + eta)^(2K)], where [K] is the number of gates.
    With [eta] at most [2^-48] and at most 100000 gates the sum is 1 within
    1e-9. *)
Theorem run_rounded_normalized (G : NumpyRandom) (circuit : QuantumCircuit)
    (seed : option Z) (w0 : rng_state G) (self : StatevectorSimulator G)
    (eta : R) (final : list C) :
  fst (__init__ G circuit None seed w0) = Ok self ->
  forallb (has_name unitary_names) (gates circuit) = true ->
  (0 < eta <= 1)%R ->
  run_rounded eta (sim_num_qubits G self) (gates circuit) (sim_state G self) final ->
  let K := length (gates circuit) in
  length final = 2 ^ sim_num_qubits G self
  /\ ((1 - eta) ^ (2 * K) <= norm_sq final <= (1 + eta) ^ (2 * K))%R
  /\ ((eta <= / 2 ^ 48)%R -> (Z.of_nat K <= 100000)%Z ->
      (Rabs (norm_sq final - 1) <= 1e-9)%R).
Proof.
  intros Hinit Hnames Heta Hrun K.
  destruct (init_ok G _ _ _ _ _ Hinit) as (Hc & Hh & Hst).
  rewrite Hst in Hrun.
  destruct (run_rounded_norm eta _ _ _ _ Heta Hnames (ground_state_length _) Hrun)
    as (Hlen & Hlo & Hhi).
  rewrite ground_state_norm, Rmult_1_r in Hlo, Hhi. fold K in Hlo, Hhi.
  split; [done|]. split; [done|].
  intros Hsmall HK.
  assert (Hm : (INR (2 * K) <= 200000)%R).
  { rewrite INR_IZR_INZ. apply IZR_le. lia. }
  pose proof (pos_INR (2 * K)) as Hm0.
  assert (Hx : (0 <= INR (2 * K) * eta <= 8e-10)%R).
  { split; [apply Rmult_le_pos; lra|].
    apply Rle_trans with (200000 * / 2 ^ 48)%R; [|lra].
    apply Rmult_le_compat; lra. }
  pose proof (pow_lower eta (2 * K) ltac:(lra)) as Hbl.
  pose proof (pow_upper eta (2 * K) ltac:(lra) ltac:(lra)) as Hbu.
  assert (Hp : (0 <= (1 + eta) ^ (2 * K))%R) by (apply pow_le; lra).
  assert (Hpx : ((1 + eta) ^ (2 * K) * (INR (2 * K) * eta)
                 <= (1 + eta) ^ (2 * K) * 8e-10)%R)
    by (apply Rmult_le_compat_l; lra).
  apply Rabs_le. lra.
Qed.

Lemma run_rounded_normalized_witness :
  let circuit := mkQuantumCircuit 2 [gate_CNOT 0 1; gate_SWAP 0 1] in
  let self := mkStatevectorSimulator sample_generator circuit 2 [C1; C0; C0; C0] None in
  let K := length (gates circuit) in
  length [C1; C0; C0; C0] = 2 ^ sim_num_qubits sample_generator self
  /\ ((1 - / 2 ^ 48) ^ (2 * K) <= norm_sq [C1; C0; C0; C0] <= (1 + / 2 ^ 48) ^ (2 * K))%R
  /\ ((/ 2 ^ 48 <= / 2 ^ 48)%R -> (Z.of_nat K <= 100000)%Z ->
      (Rabs (norm_sq [C1; C0; C0; C0] - 1) <= 1e-9)%R).
Proof.
  intros circuit self.
  apply (run_rounded_normalized sample_generator circuit None 0 self (/ 2 ^ 48)
           [C1; C0; C0; C0]).
  - reflexivity.
  - reflexivity.
  - lra.
  - apply (run_exact_is_rounded sample_generator _ 2 1024 _ _ 0 _ 0). reflexivity.
Defined.

(** ** The H gate in binary64 *)

(** Two H gates on the ground state do not give it back in binary64. *)
Lemma two_H_binary64 :
  run_H_binary64 2 = ((0x1.ffffffffffffep-1, 0), (0, 0))%float.
Proof. vm_compute. reflexivity. Qed.

Lemma H_steps_trans (a b c : float) (p q : positive) :
  H_steps a p b -> H_steps b q c -> H_steps a (q + p) c.
Proof.
  unfold H_steps. intros Hp Hq. rewrite Pos.iter_add, Hp. exact Hq.
Qed.

(** The first amplitude after every 250000 H gates on the ground state, the
    other one being zero; each value is computed from the one before. *)
Lemma H_gates_00250000 : H_steps 1 250000 0x1.ffffffffd4d77p-1.
Proof. vm_compute. reflexivity. Qed.

Lemma H_gates_00500000 : H_steps 1 500000 0x1.ffffffffa9aeep-1.
Proof.
  apply (H_steps_trans 1 0x1.ffffffffd4d77p-1 _ 250000 250000 H_gates_00250000).
  vm_compute. reflexivity.
Qed.

Lemma H_gates_00750000 : H_steps 1 750000 0x1.ffffffff7e866p-1.
Proof.
  apply (H_steps_trans 1 0x1.ffffffffa9aeep-1 _ 500000 250000 H_gates_00500000).
  vm_compute. reflexivity.
Qed.

Lemma H_gates_01000000 : H_steps 1 1000000 0x1.ffffffff535ddp-1.
Proof.
  apply (H_steps_trans 1 0x1.ffffffff7e866p-1 _ 750000 250000 H_gates_00750000).
  vm_compute. reflexivity.
Qed.

Lemma H_gates_01250000 : H_steps 1 1250000 0x1.ffffffff28354p-1.
Proof.
  apply (H_steps_trans 1 0x1.ffffffff535ddp-1 _ 1000000 250000 H_gates_01000000).
  vm_compute. reflexivity.
Qed.

Lemma H_gates_01500000 : H_steps 1 1500000 0x1.fffffffefd0ccp-1.
Proof.
  apply (H_steps_trans 1 0x1.ffffffff28354p-1 _ 1250000 250000 H_gates_01250000).
  vm_compute. reflexivity.
Qed.

Lemma H_gates_01750000 : H_steps 1 1750000 0x1.fffffffed1e43p-1.
Proof.
  apply (H_steps_trans 1 0x1.fffffffefd0ccp-1 _ 1500000 250000 H_gates_01500000).
  vm_compute. reflexivity.
Qed.

Lemma H_gates_02000000 : H_steps 1 2000000 0x1.fffffffea6bbap-1.
Proof.
  apply (H_steps_trans 1 0x1.fffffffed1e43p-1 _ 1750000 250000 H_gates_01750000).
  vm_compute. reflexivity.
Qed.

Lemma H_gates_02250000 : H_steps 1 2250000 0x1.fffffffe7b932p-1.
Proof.
  apply (H_steps_trans 1 0x1.fffffffea6bbap-1 _ 2000000 250000 H_gates_02000000).
  vm_compute. reflexivity.
Qed.

Lemma H_gates_02500000 : H_steps 1 2500000 0x1.fffffffe506a9p-1.
Proof.
  apply (H_steps_trans 1 0x1.fffffffe7b932p-1 _ 2250000 250000 H_gates_02250000).
  vm_compute. reflexivity.
Qed.

Lemma H_gates_02750000 : H_steps 1 2750000 0x1.fffffffe2542p-1.
Proof.
  apply (H_steps_trans 1 0x1.fffffffe506a9p-1 _ 2500000 250000 H_gates_02500000).
  vm_compute. reflexivity.
Qed.

Lemma H_gates_03000000 : H_steps 1 3000000 0x1.fffffffdfa197p-1.
Proof.
  apply (H_steps_trans 1 0x1.fffffffe2542p-1 _ 2750000 250000 H_gates_02750000).
  vm_compute. reflexivity.
Qed.

Lemma H_gates_03250000 : H_steps 1 3250000 0x1.fffffffdcef0fp-1.
Proof.
  apply (H_steps_trans 1 0x1.fffffffdfa197p-1 _ 3000000 250000 H_gates_03000000).
  vm_compute. reflexivity.
Qed.

Lemma H_gates_03500000 : H_steps 1 3500000 0x1.fffffffda3c86p-1.
Proof.
  apply (H_steps_trans 1 0x1.fffffffdcef0fp-1 _ 3250000 250000 H_gates_03250000).
  vm_compute. reflexivity.
Qed.

Lemma H_gates_03750000 : H_steps 1 3750000 0x1.fffffffd789fdp-1.
Proof.
  apply (H_steps_trans 1 0x1.fffffffda3c86p-1 _ 3500000 250000 H_gates_03500000).
  vm_compute. reflexivity.
Qed.

Lemma H_gates_04000000 : H_steps 1 4000000 0x1.fffffffd4d775p-1.
Proof.
  apply (H_steps_trans 1 0x1.fffffffd789fdp-1 _ 3750000 250000 H_gates_03750000).
  vm_compute. reflexivity.
Qed.

Lemma H_gates_04250000 : H_steps 1 4250000 0x1.fffffffd224ecp-1.
Proof.
  apply (H_steps_trans 1 0x1.fffffffd4d775p-1 _ 4000000 250000 H_gates_04000000).
  vm_compute. reflexivity.
Qed.

Lemma H_gates_04500000 : H_steps 1 4500000 0x1.fffffffcf7263p-1.
Proof.
  apply (H_steps_trans 1 0x1.fffffffd224ecp-1 _ 4250000 250000 H_gates_04250000).
  vm_compute. reflexivity.
Qed.

Lemma H_gates_04750000 : H_steps 1 4750000 0x1.fffffffccbfdbp-1.
Proof.
  apply (H_steps_trans 1 0x1.fffffffcf7263p-1 _ 4500000 250000 H_gates_04500000).
  vm_compute. reflexivity.
Qed.

Lemma H_gates_05000000 : H_steps 1 5000000 0x1.fffffffca0d52p-1.
Proof.
  apply (H_steps_trans 1 0x1.fffffffccbfdbp-1 _ 4750000 250000 H_gates_04750000).
  vm_compute. reflexivity.
Qed.

Lemma H_gates_05250000 : H_steps 1 5250000 0x1.fffffffc75ac9p-1.
Proof.
  apply (H_steps_trans 1 0x1.fffffffca0d52p-1 _ 5000000 250000 H_gates_05000000).
  vm_compute. reflexivity.
Qed.

Lemma H_gates_05500000 : H_steps 1 5500000 0x1.fffffffc4a841p-1.
Proof.
  apply (H_steps_trans 1 0x1.fffffffc75ac9p-1 _ 5250000 250000 H_gates_05250000).
  vm_compute. reflexivity.
Qed.

Lemma H_gates_05750000 : H_steps 1 5750000 0x1.fffffffc1f5b8p-1.
Proof.
  apply (H_steps_trans 1 0x1.fffffffc4a841p-1 _ 5500000 250000 H_gates_05500000).
  vm_compute. reflexivity.
Qed.

Lemma H_gates_06000000 : H_steps 1 6000000 0x1.fffffffbf432fp-1.
Proof.
  apply (H_steps_trans 1 0x1.fffffffc1f5b8p-1 _ 5750000 250000 H_gates_05750000).
  vm_compute. reflexivity.
Qed.

Lemma H_gates_06250000 : H_steps 1 6250000 0x1.fffffffbc90a6p-1.
Proof.
  apply (H_steps_trans 1 0x1.fffffffbf432fp-1 _ 6000000 250000 H_gates_06000000).
  vm_compute. reflexivity.
Qed.

Lemma H_gates_06500000 : H_steps 1 6500000 0x1.fffffffb9de1ep-1.
Proof.
  apply (H_steps_trans 1 0x1.fffffffbc90a6p-1 _ 6250000 250000 H_gates_06250000).
  vm_compute. reflexivity.
Qed.

Lemma H_gates_06750000 : H_steps 1 6750000 0x1.fffffffb72b95p-1.
Proof.
  apply (H_steps_trans 1 0x1.fffffffb9de1ep-1 _ 6500000 250000 H_gates_06500000).
  vm_compute. reflexivity.
Qed.

Lemma H_gates_07000000 : H_steps 1 7000000 0x1.fffffffb4790cp-1.
Proof.
  apply (H_steps_trans 1 0x1.fffffffb72b95p-1 _ 6750000 250000 H_gates_06750000).
  vm_compute. reflexivity.
Qed.

Lemma H_gates_07250000 : H_steps 1 7250000 0x1.fffffffb1c684p-1.
Proof.
  apply (H_steps_trans 1 0x1.fffffffb4790cp-1 _ 7000000 250000 H_gates_07000000).
  vm_compute. reflexivity.
Qed.

Lemma H_gates_07500000 : H_steps 1 7500000 0x1.fffffffaf13fbp-1.
Proof.
  apply (H_steps_trans 1 0x1.fffffffb1c684p-1 _ 7250000 250000 H_gates_07250000).
  vm_compute. reflexivity.
Qed.

Lemma H_gates_07750000 : H_steps 1 7750000 0x1.fffffffac6172p-1.
Proof.
  apply (H_steps_trans 1 0x1.fffffffaf13fbp-1 _ 7500000 250000 H_gates_07500000).
  vm_compute. reflexivity.
Qed.

Lemma H_gates_08000000 : H_steps 1 8000000 0x1.fffffffa9aeeap-1.
Proof.
  apply (H_steps_trans 1 0x1.fffffffac6172p-1 _ 7750000 250000 H_gates_07750000).
  vm_compute. reflexivity.
Qed.

Lemma H_gates_08250000 : H_steps 1 8250000 0x1.fffffffa6fc61p-1.
Proof.
  apply (H_steps_trans 1 0x1.fffffffa9aeeap-1 _ 8000000 250000 H_gates_08000000).
  vm_compute. reflexivity.
Qed.

Lemma H_gates_08500000 : H_steps 1 8500000 0x1.fffffffa449d8p-1.
Proof.
  apply (H_steps_trans 1 0x1.fffffffa6fc61p-1 _ 8250000 250000 H_gates_08250000).
  vm_compute. reflexivity.
Qed.

Lemma H_gates_08750000 : H_steps 1 8750000 0x1.fffffffa1974fp-1.
Proof.
  apply (H_steps_trans 1 0x1.fffffffa449d8p-1 _ 8500000 250000 H_gates_08500000).
  vm_compute. reflexivity.
Qed.

Lemma H_gates_09000000 : H_steps 1 9000000 0x1.fffffff9ee4c7p-1.
Proof.
  apply (H_steps_trans 1 0x1.fffffffa1974fp-1 _ 8750000 250000 H_gates_08750000).
  vm_compute. reflexivity.
Qed.

Lemma H_gates_09250000 : H_steps 1 9250000 0x1.fffffff9c323ep-1.
Proof.
  apply (H_steps_trans 1 0x1.fffffff9ee4c7p-1 _ 9000000 250000 H_gates_09000000).
  vm_compute. reflexivity.
Qed.

Lemma H_gates_09500000 : H_steps 1 9500000 0x1.fffffff997fb5p-1.
Proof.
  apply (H_steps_trans 1 0x1.fffffff9c323ep-1 _ 9250000 250000 H_gates_09250000).
  vm_compute. reflexivity.
Qed.

Lemma H_gates_09750000 : H_steps 1 9750000 0x1.fffffff96cd2dp-1.
Proof.
  apply (H_steps_trans 1 0x1.fffffff997fb5p-1 _ 9500000 250000 H_gates_09500000).
  vm_compute. reflexivity.
Qed.

Lemma H_gates_10000000 : H_steps 1 10000000 0x1.fffffff941aa4p-1.
Proof.
  apply (H_steps_trans 1 0x1.fffffff96cd2dp-1 _ 9750000 250000 H_gates_09750000).
  vm_compute. reflexivity.
Qed.

(** C1 as stated fails in binary64: after ten million H gates on one qubit
    the squared moduli of the amplitudes that [run] returns sum to less
    than [1 - 1e-9]. *)
Lemma h_chain_leaves_tolerance :
  (norm_sq_binary64 (run_H_binary64 10000000) < 1 - (1 # 1000000000))%Q.
Proof.
  unfold run_H_binary64. rewrite H_gates_10000000. vm_compute. reflexivity.
Qed.
